(** * EcoPack: the packing, metrics and consolidation engine of [src/src/App.jsx]

    A shallow embedding of [getItemVolume], [doesItemFit], [packOptimal],
    [calculateMetrics], [tryAddItemsToExistingBoxes] and
    [getBulkOrderSuggestions], followed by the properties of the engine.

    Numbers.  A JavaScript number is modelled as an exact rational ([Q]); the
    rounding of IEEE doubles is not modelled.  Equalities between computed
    numbers are stated with [==] ([Qeq]).  Division by zero (which JavaScript
    answers with an infinity or NaN, and [Q] with 0) is kept out of every
    statement that divides by a hypothesis that the divisor is positive.

    Objects.  The first part of the file is a value model: the engine only
    ever mutates objects it has created itself, so a packed box is a record
    and an array is a list.  The second part ([Module Heap]) models the same
    functions over an explicit store of arrays and box objects with
    references, proves that it computes the results of the value model, and
    that it leaves every object of the caller untouched.

    Application.  The last definitions model what [App] builds around the
    engine: the cart and the saved-for-later list (objects keyed by item id)
    with their three handlers, the flat item list handed to the engine, the
    box counts of [calculateMetrics] and the fill bar of
    [PackingVisualization]; the file ends with their properties. *)

From Stdlib Require Import QArith Qfield Lqa Lia Bool Arith List String Permutation Sorted.
Import ListNotations.
Open Scope Q_scope.

Set Implicit Arguments.

(** ** Data model *)

(** An item record: [{ id, name, length, width, height, weight }].  The cart
    adds a [quantity] field that the engine never reads on a flattened
    item. *)
Module Item.
Record t : Type := make
  { id : string; name : string;
    length : Q; width : Q; height : Q; weight : Q }.
End Item.

(** A box type of the catalog:
    [{ name, length, width, height, volume, maxWeight, baseCO2, perKgCO2 }]. *)
Module Box.
Record t : Type := make
  { name : string;
    length : Q; width : Q; height : Q;
    volume : Q; maxWeight : Q;
    baseCO2 : Q; perKgCO2 : Q }.
End Box.

(** A packed box: [{ ...boxType, items, filledVolume, totalWeight }].  The
    spread copies the fields of the box type into the new object. *)
Record PackedBox : Type := mkPacked
  { boxType : Box.t;
    items : list Item.t;
    filledVolume : Q;
    totalWeight : Q }.

(** [AMAZON_BOX_SIZES], lines 6-11. *)
Definition AMAZON_BOX_SIZES : list Box.t :=
  [ Box.make "Small Box (S3)" 25 20 12 6000 5 (15#100) (6#100);
    Box.make "Medium Box (M3)" 35 25 15 13125 10 (20#100) (55#1000);
    Box.make "Large Box (L4)" 45 35 20 31500 15 (25#100) (5#100);
    Box.make "X-Large Box (X1)" 60 40 30 72000 22 (30#100) (45#1000) ].

(** ** Helpers of the source *)

(** [getItemVolume], line 14. *)
Definition getItemVolume (item : Item.t) : Q :=
  Item.length item * Item.width item * Item.height item.

(** [doesItemFit], lines 19-28.  The [box] argument is read through its box
    type fields only, so a packed box is passed as its [boxType]. *)
Definition doesItemFit (item : Item.t) (box : Box.t)
    (currentFilledVolume currentTotalWeight : Q) : bool :=
  let itemVolume := getItemVolume item in
  Qle_bool (Item.length item) (Box.length box) &&
  Qle_bool (Item.width item) (Box.width box) &&
  Qle_bool (Item.height item) (Box.height box) &&
  Qle_bool (currentFilledVolume + itemVolume) (Box.volume box) &&
  Qle_bool (currentTotalWeight + Item.weight item) (Box.maxWeight box).

(** [a > b] on numbers. *)
Definition Qgt_bool (a b : Q) : bool := negb (Qle_bool a b).

(** [Array.prototype.sort] with a comparator: a stable sort that puts [a]
    before [b] when [cmp a b < 0] and keeps the original order of elements
    that compare equal.  Insertion from the right realises exactly that
    order: [x], which stood before every element of [l], goes in front of
    the first [y] with [cmp x y <= 0]. *)
Fixpoint insert_by (A : Type) (cmp : A -> A -> Q) (x : A) (l : list A) : list A :=
  match l with
  | [] => [x]
  | y :: l' => if Qle_bool (cmp x y) 0 then x :: l else y :: insert_by cmp x l'
  end.

Definition sort_by (A : Type) (cmp : A -> A -> Q) (l : list A) : list A :=
  fold_right (insert_by cmp) [] l.

(** The order a comparator induces: [x] may stand before [y]. *)
Definition before (A : Type) (cmp : A -> A -> Q) (x y : A) : Prop := cmp x y <= 0.

(** [(a, b) => getItemVolume(b) - getItemVolume(a)]: volume descending. *)
Definition byVolumeDesc (a b : Item.t) : Q := getItemVolume b - getItemVolume a.

(** [(a, b) => a.volume - b.volume]: smallest box first. *)
Definition byVolumeAsc (a b : Box.t) : Q := Box.volume a - Box.volume b.

(** ** [packOptimal], lines 38-155 *)

(** The inner loop of Phase 1 (lines 50-58) for one box type, started at the
    running totals [fv] and [tw]: [Some] of the final totals when every item
    fits, [None] at the first item that does not. *)
Fixpoint allItemsFitInOneBox (boxType : Box.t) (sortedItems : list Item.t)
    (tempFilledVolume tempTotalWeight : Q) : option (Q * Q) :=
  match sortedItems with
  | [] => Some (tempFilledVolume, tempTotalWeight)
  | item :: rest =>
      if doesItemFit item boxType tempFilledVolume tempTotalWeight
      then allItemsFitInOneBox boxType rest
             (tempFilledVolume + getItemVolume item)
             (tempTotalWeight + Item.weight item)
      else None
  end.

(** The outer loop of Phase 1 (lines 45-69): the first box type, smallest
    first, that takes every item. *)
Fixpoint phase1 (sortedItems : list Item.t) (sortedBoxesAsc : list Box.t)
    : option PackedBox :=
  match sortedBoxesAsc with
  | [] => None
  | boxType :: rest =>
      match allItemsFitInOneBox boxType sortedItems 0 0 with
      | Some (fv, tw) => Some (mkPacked boxType sortedItems fv tw)
      | None => phase1 sortedItems rest
      end
  end.

(** Fill percentage of [box] after [item] is added (lines 88 and 222). *)
Definition potentialNewFill (item : Item.t) (box : PackedBox) : Q :=
  ((filledVolume box + getItemVolume item) / Box.volume (boxType box)) * 100.

(** The scan over the opened boxes (lines 85-95 and 219-228), from index [i]
    on, with the best index so far ([None] for the source's [-1]) and the
    highest fill so far. *)
Fixpoint bestFitScan (item : Item.t) (boxes : list PackedBox) (i : nat)
    (bestFitBoxIndex : option nat) (highestPotentialFill : Q) : option nat :=
  match boxes with
  | [] => bestFitBoxIndex
  | existingBox :: rest =>
      if doesItemFit item (boxType existingBox)
           (filledVolume existingBox) (totalWeight existingBox)
      then
        if Qgt_bool (potentialNewFill item existingBox) highestPotentialFill
        then bestFitScan item rest (S i) (Some i) (potentialNewFill item existingBox)
        else bestFitScan item rest (S i) bestFitBoxIndex highestPotentialFill
      else bestFitScan item rest (S i) bestFitBoxIndex highestPotentialFill
  end.

Definition bestFitBox (item : Item.t) (boxes : list PackedBox) : option nat :=
  bestFitScan item boxes 0%nat None (-1).

(** [box.items.push(item); box.filledVolume += ...; box.totalWeight += ...]. *)
Definition addItem (box : PackedBox) (item : Item.t) : PackedBox :=
  mkPacked (boxType box) (items box ++ [item])
    (filledVolume box + getItemVolume item)
    (totalWeight box + Item.weight item).

(** The refill pass (lines 105-115 and 134-144): every pending item that
    fits goes into [box]; the others are kept, in order. *)
Fixpoint fillFurther (box : PackedBox) (itemsToRecheck : list Item.t)
    : PackedBox * list Item.t :=
  match itemsToRecheck with
  | [] => (box, [])
  | otherItem :: rest =>
      if doesItemFit otherItem (boxType box) (filledVolume box) (totalWeight box)
      then fillFurther (addItem box otherItem) rest
      else let (box', unpacked) := fillFurther box rest in
           (box', otherItem :: unpacked)
  end.

(** The test of [sortedBoxesAsc.find] at lines 119-124, and of the
    smallest-box lookup of [calculateMetrics] at lines 173-175. *)
Definition canHoldAlone (item : Item.t) (box : Box.t) : bool :=
  Qle_bool (Item.length item) (Box.length box) &&
  Qle_bool (Item.width item) (Box.width box) &&
  Qle_bool (Item.height item) (Box.height box) &&
  Qle_bool (Item.weight item) (Box.maxWeight box).

(** Replace the element at index [i] (an object mutated in place keeps its
    position in the array). *)
Fixpoint setNth (A : Type) (i : nat) (x : A) (l : list A) : list A :=
  match l, i with
  | [], _ => []
  | _ :: l', O => x :: l'
  | y :: l', S i' => y :: setNth i' x l'
  end.

(** The text of the [console.warn] at line 148. *)
Definition warning (item : Item.t) : string :=
  String.append "Optimal Packing: Item '"
    (String.append (Item.name item) "' cannot be packed into any available box.").

(** The [while] loop of Phase 2 (lines 78-152).  Every turn removes the head
    of [unpackedItems] and never adds to it, so [fuel] = its length suffices
    (see [phase2_fuel]).  The second component collects the warnings
    written to the console. *)
Fixpoint phase2 (fuel : nat) (sortedBoxesAsc : list Box.t)
    (packedBoxes : list PackedBox) (unpackedItems : list Item.t)
    (console : list string) : list PackedBox * list string :=
  match fuel with
  | O => (packedBoxes, console)
  | S fuel' =>
      match unpackedItems with
      | [] => (packedBoxes, console)
      | currentItem :: unpacked =>
          match bestFitBox currentItem packedBoxes with
          | Some bestFitBoxIndex =>
              match nth_error packedBoxes bestFitBoxIndex with
              | Some targetBox =>
                  let (targetBox', unpacked') :=
                    fillFurther (addItem targetBox currentItem) unpacked in
                  phase2 fuel' sortedBoxesAsc
                    (setNth bestFitBoxIndex targetBox' packedBoxes)
                    unpacked' console
              | None => (packedBoxes, console)
              end
          | None =>
              match find (canHoldAlone currentItem) sortedBoxesAsc with
              | Some newBoxType =>
                  let newBox :=
                    mkPacked newBoxType [currentItem]
                      (getItemVolume currentItem) (Item.weight currentItem) in
                  let (newBox', unpacked') := fillFurther newBox unpacked in
                  phase2 fuel' sortedBoxesAsc (packedBoxes ++ [newBox'])
                    unpacked' console
              | None =>
                  phase2 fuel' sortedBoxesAsc packedBoxes unpacked
                    (console ++ [warning currentItem])
              end
          end
      end
  end.

(** [packOptimal] with the console made explicit: the packed boxes and the
    warnings written. *)
Definition packOptimalLog (items : list Item.t) (boxTypes : list Box.t)
    : list PackedBox * list string :=
  match items with
  | [] => ([], [])
  | _ =>
      let sortedItems := sort_by byVolumeDesc items in
      let sortedBoxesAsc := sort_by byVolumeAsc boxTypes in
      match phase1 sortedItems sortedBoxesAsc with
      | Some box => ([box], [])
      | None =>
          phase2 (List.length sortedItems) sortedBoxesAsc [] sortedItems []
      end
  end.

(** The value returned by [packOptimal]. *)
Definition packOptimal (items : list Item.t) (boxTypes : list Box.t)
    : list PackedBox :=
  fst (packOptimalLog items boxTypes).

(** ** [calculateMetrics], lines 158-201 *)

(** The metrics object.  [boxBreakdown], a display string, is left out: no
    property below reads it. *)
Record Metrics : Type := mkMetrics
  { packedBoxes : list PackedBox;
    packagingEfficiencyScore : Q;
    optimalCO2Impact : Q;
    co2SavedByConsolidation : Q;
    totalBoxes : nat }.

(** [packedBoxes.reduce((sum, box) => sum + box.filledVolume, 0)]. *)
Definition totalPackedVolume (boxes : list PackedBox) : Q :=
  fold_left (fun sum box => sum + filledVolume box) boxes 0.

(** [packedBoxes.reduce((sum, box) => sum + box.volume, 0)]. *)
Definition totalBoxesVolume (boxes : list PackedBox) : Q :=
  fold_left (fun sum box => sum + Box.volume (boxType box)) boxes 0.

(** Lines 165-167. *)
Definition co2Impact (boxes : list PackedBox) : Q :=
  fold_left
    (fun sum box =>
       sum + Box.baseCO2 (boxType box)
           + totalWeight box * Box.perKgCO2 (boxType box))
    boxes 0.

(** Lines 171-180, over the catalog [catalog] (the source reads the global
    [AMAZON_BOX_SIZES], sorted in place at each item). *)
Definition individualShipmentCO2In (catalog : list Box.t)
    (flatItemList : list Item.t) : Q :=
  fold_left
    (fun sum item =>
       match find (canHoldAlone item) (sort_by byVolumeAsc catalog) with
       | Some suitableBox =>
           sum + Box.baseCO2 suitableBox
               + Item.weight item * Box.perKgCO2 suitableBox
       | None => sum
       end)
    flatItemList 0.

Definition individualShipmentCO2 : list Item.t -> Q :=
  individualShipmentCO2In AMAZON_BOX_SIZES.

Definition calculateMetrics (packedBoxes : list PackedBox)
    (flatItemList : list Item.t) : Metrics :=
  let totalPacked := totalPackedVolume packedBoxes in
  let totalBoxesVol := totalBoxesVolume packedBoxes in
  let packagingEfficiency :=
    if Qgt_bool totalBoxesVol 0 then (totalPacked / totalBoxesVol) * 100 else 0 in
  let optimalCO2 := co2Impact packedBoxes in
  mkMetrics packedBoxes packagingEfficiency optimalCO2
    (individualShipmentCO2 flatItemList - optimalCO2)
    (List.length packedBoxes).

(** ** [tryAddItemsToExistingBoxes], lines 207-247 *)

Record AddResult : Type := mkAddResult
  { quantityAdded : nat;
    newPackedBoxes : list PackedBox;
    success : bool }.

(** The [for] loop of lines 215-240 with [quantityToTry] turns left; a turn
    that finds no box leaves the loop ([break]).  A quantity is a count of
    units, a natural number. *)
Fixpoint tryAddLoop (itemTypeToAdd : Item.t) (quantityToTry : nat)
    (simulatedPackedBoxes : list PackedBox) (itemsSuccessfullyAdded : nat)
    : nat * list PackedBox :=
  match quantityToTry with
  | O => (itemsSuccessfullyAdded, simulatedPackedBoxes)
  | S q =>
      match bestFitBox itemTypeToAdd simulatedPackedBoxes with
      | Some bestBoxIndex =>
          match nth_error simulatedPackedBoxes bestBoxIndex with
          | Some targetBox =>
              tryAddLoop itemTypeToAdd q
                (setNth bestBoxIndex (addItem targetBox itemTypeToAdd)
                   simulatedPackedBoxes)
                (S itemsSuccessfullyAdded)
          | None => (itemsSuccessfullyAdded, simulatedPackedBoxes)
          end
      | None => (itemsSuccessfullyAdded, simulatedPackedBoxes)
      end
  end.

Definition tryAddItemsToExistingBoxes (itemTypeToAdd : Item.t)
    (quantityToTry : nat) (existingPackedBoxes : list PackedBox) : AddResult :=
  let (added, boxes) :=
    tryAddLoop itemTypeToAdd quantityToTry existingPackedBoxes 0%nat in
  mkAddResult added boxes (Nat.ltb 0 added).

(** ** [getBulkOrderSuggestions], lines 259-326 *)

(** An entry of the saved-for-later map: the item with its held quantity. *)
Record SavedItem : Type := mkSaved
  { savedItem : Item.t;
    quantity : nat }.

(** The two shapes pushed on [suggestions]: [type: 'suggestion'] and
    [type: 'tooBig']. *)
Inductive Suggestion : Type :=
| suggestion (item : SavedItem) (quantityToSuggest : nat) (fewerBoxes : bool)
    (efficiencyImprovement co2SavedByCombining : Q)
    (newTotalBoxes oldTotalBoxes : nat)
| tooBig (item : SavedItem) (message : string).

Definition tooBigMessage : string :=
  "Too large or heavy to fit in with the current order without requiring additional boxes or a larger box type.".

(** The figures computed at lines 279-301 for one saved item type, from the
    baseline boxes and metrics: the quantity added, the carbon saved by
    combining and the efficiency improvement. *)
Definition co2SavedByCombiningOf (boxTypes : list Box.t)
    (currentFlatItems : list Item.t) (originalPackedBoxes : list PackedBox)
    (originalMetrics : Metrics) (savedItemType : SavedItem) : Q :=
  let r := tryAddItemsToExistingBoxes (savedItem savedItemType)
             (quantity savedItemType) originalPackedBoxes in
  let hypotheticalItemsCombined :=
    currentFlatItems ++ repeat (savedItem savedItemType) (quantityAdded r) in
  let hypotheticalMetrics :=
    calculateMetrics (newPackedBoxes r) hypotheticalItemsCombined in
  let savedItemsOnlyFlatList := repeat (savedItem savedItemType) (quantityAdded r) in
  let savedItemsOnlyPackedBoxes := packOptimal savedItemsOnlyFlatList boxTypes in
  let savedItemsOnlyMetrics :=
    calculateMetrics savedItemsOnlyPackedBoxes savedItemsOnlyFlatList in
  let co2IfSavedItemShippedSeparately := optimalCO2Impact savedItemsOnlyMetrics in
  let totalCO2IfSeparate :=
    optimalCO2Impact originalMetrics + co2IfSavedItemShippedSeparately in
  totalCO2IfSeparate - optimalCO2Impact hypotheticalMetrics.

Definition efficiencyImprovementOf (currentFlatItems : list Item.t)
    (originalPackedBoxes : list PackedBox) (originalMetrics : Metrics)
    (savedItemType : SavedItem) : Q :=
  let r := tryAddItemsToExistingBoxes (savedItem savedItemType)
             (quantity savedItemType) originalPackedBoxes in
  let hypotheticalItemsCombined :=
    currentFlatItems ++ repeat (savedItem savedItemType) (quantityAdded r) in
  let hypotheticalMetrics :=
    calculateMetrics (newPackedBoxes r) hypotheticalItemsCombined in
  packagingEfficiencyScore hypotheticalMetrics
  - packagingEfficiencyScore originalMetrics.

(** The body of the [for ... in] loop (lines 270-322) for one saved item
    type: what it pushes on [suggestions]. *)
Definition suggestionsFor (boxTypes : list Box.t)
    (currentFlatItems : list Item.t) (originalPackedBoxes : list PackedBox)
    (originalMetrics : Metrics) (savedItemType : SavedItem) : list Suggestion :=
  let r := tryAddItemsToExistingBoxes (savedItem savedItemType)
             (quantity savedItemType) originalPackedBoxes in
  if Nat.ltb 0 (quantityAdded r) then
    let co2SavedByCombining :=
      co2SavedByCombiningOf boxTypes currentFlatItems originalPackedBoxes
        originalMetrics savedItemType in
    let efficiencyImprovement :=
      efficiencyImprovementOf currentFlatItems originalPackedBoxes
        originalMetrics savedItemType in
    if Qgt_bool co2SavedByCombining (1#100) || Qgt_bool efficiencyImprovement (1#10)
    then [suggestion savedItemType (quantityAdded r) false
            efficiencyImprovement co2SavedByCombining
            (totalBoxes originalMetrics) (totalBoxes originalMetrics)]
    else []
  else [tooBig savedItemType tooBigMessage].

(** [savedForLaterItemsMap] is an object keyed by item id; it is modelled by
    its entries in the order [for ... in] visits them. *)
Definition getBulkOrderSuggestions (currentFlatItems : list Item.t)
    (savedForLaterItemsMap : list (string * SavedItem))
    (boxTypes : list Box.t) : list Suggestion :=
  match savedForLaterItemsMap with
  | [] => []
  | _ =>
      let originalPackedBoxes := packOptimal currentFlatItems boxTypes in
      let originalMetrics := calculateMetrics originalPackedBoxes currentFlatItems in
      flat_map
        (fun entry =>
           suggestionsFor boxTypes currentFlatItems originalPackedBoxes
             originalMetrics (snd entry))
        savedForLaterItemsMap
  end.

(** ** Sample data (the items of the application, lines 380-389) *)

Definition book : Item.t := Item.make "book" "Book" 25 18 4 (8#10).
Definition laptop : Item.t := Item.make "laptop" "Laptop" 35 25 3 2.
Definition mug : Item.t := Item.make "mug" "Coffee Mug" 12 9 10 (4#10).
Definition keyboard : Item.t := Item.make "keyboard" "Keyboard" 45 15 4 1.

Definition smallBox : Box.t := nth 0 AMAZON_BOX_SIZES (Box.make "" 0 0 0 0 0 0 0).
Definition xlargeBox : Box.t := nth 3 AMAZON_BOX_SIZES (Box.make "" 0 0 0 0 0 0 0).

(** ** The engine over a store of objects

    JavaScript arrays and packed-box objects are mutable and passed by
    reference.  Here they live in a store; a variable of the source that
    holds an array or a box object holds a location.  Items and box types
    are records that no function of the engine writes to; they are stored
    by value.  A store is a list of cells, a location is an index, and a new
    object takes the next index. *)
Module Heap.

Definition loc : Type := nat.

(** A packed-box object: the fields copied from its box type, the reference
    to its [items] array, [filledVolume] and [totalWeight]. *)
Record BoxObject : Type := mkBoxObject
  { objType : Box.t;
    objItems : loc;
    objFilledVolume : Q;
    objTotalWeight : Q }.

Inductive cell : Type :=
| ItemArray (l : list Item.t)
| TypeArray (l : list Box.t)
| BoxArray (l : list loc)
| BoxObj (o : BoxObject).

Definition heap : Type := list cell.

(** Computations on the store; [None] is a run-time type error (a property
    read on something that is not an object of the expected shape). *)
Definition M (A : Type) : Type := heap -> option (A * heap).

Definition ret (A : Type) (a : A) : M A := fun h => Some (a, h).

Definition bind (A B : Type) (m : M A) (k : A -> M B) : M B :=
  fun h => match m h with
           | Some (a, h') => k a h'
           | None => None
           end.

Definition fail (A : Type) : M A := fun _ => None.

Notation "x <- m ;; k" := (bind m (fun x => k))
  (at level 61, m at next level, right associativity).
Notation "m ;;; k" := (bind m (fun _ => k))
  (at level 61, right associativity).

(** Object creation: an array literal, a spread copy, an object literal. *)
Definition alloc (c : cell) : M loc :=
  fun h => Some (List.length h, h ++ [c]).

Definition load (l : loc) : M cell :=
  fun h => match nth_error h l with
           | Some c => Some (c, h)
           | None => None
           end.

(** In-place update of an existing object. *)
Definition store (l : loc) (c : cell) : M unit :=
  fun h => if Nat.ltb l (List.length h) then Some (tt, setNth l c h) else None.

Definition loadItems (l : loc) : M (list Item.t) :=
  c <- load l ;;
  match c with ItemArray its => ret its | _ => fail _ end.

Definition loadTypes (l : loc) : M (list Box.t) :=
  c <- load l ;;
  match c with TypeArray ts => ret ts | _ => fail _ end.

Definition loadBoxes (l : loc) : M (list loc) :=
  c <- load l ;;
  match c with BoxArray bs => ret bs | _ => fail _ end.

Definition loadObject (l : loc) : M BoxObject :=
  c <- load l ;;
  match c with BoxObj o => ret o | _ => fail _ end.

Fixpoint mapM (A B : Type) (f : A -> M B) (l : list A) : M (list B) :=
  match l with
  | [] => ret []
  | x :: l' => y <- f x ;; ys <- mapM f l' ;; ret (y :: ys)
  end.

(** The current value of a packed-box object, its items read through the
    reference. *)
Definition loadPacked (box : loc) : M PackedBox :=
  o <- loadObject box ;;
  its <- loadItems (objItems o) ;;
  ret (mkPacked (objType o) its (objFilledVolume o) (objTotalWeight o)).

(** The current values of the boxes of an array of packed boxes. *)
Definition loadPackedBoxes (boxes : loc) : M (list PackedBox) :=
  bs <- loadBoxes boxes ;;
  mapM loadPacked bs.

(** [array.push(item)] on an array of items. *)
Definition pushToItems (array : loc) (item : Item.t) : M unit :=
  its <- loadItems array ;;
  store array (ItemArray (its ++ [item])).

(** [array.push(box)] on an array of packed boxes. *)
Definition pushToBoxes (array : loc) (box : loc) : M unit :=
  bs <- loadBoxes array ;;
  store array (BoxArray (bs ++ [box])).

(** [box.field = f(box.field)]. *)
Definition updateObject (box : loc) (f : BoxObject -> BoxObject) : M unit :=
  o <- loadObject box ;;
  store box (BoxObj (f o)).

(** [box.items.push(item); box.filledVolume += getItemVolume(item);
    box.totalWeight += item.weight] (lines 100-102, 109-111, 138-140,
    232-234). *)
Definition pushItem (box : loc) (item : Item.t) : M unit :=
  o <- loadObject box ;;
  pushToItems (objItems o) item ;;;
  updateObject box
    (fun o => mkBoxObject (objType o) (objItems o)
                (objFilledVolume o + getItemVolume item) (objTotalWeight o)) ;;;
  updateObject box
    (fun o => mkBoxObject (objType o) (objItems o)
                (objFilledVolume o) (objTotalWeight o + Item.weight item)).

(** [[...array].sort(cmp)]: a fresh copy, sorted in place. *)
Definition sortedCopyOfItems (array : loc) : M loc :=
  its <- loadItems array ;;
  copy <- alloc (ItemArray its) ;;
  its' <- loadItems copy ;;
  store copy (ItemArray (sort_by byVolumeDesc its')) ;;;
  ret copy.

Definition sortedCopyOfTypes (array : loc) : M loc :=
  ts <- loadTypes array ;;
  copy <- alloc (TypeArray ts) ;;
  ts' <- loadTypes copy ;;
  store copy (TypeArray (sort_by byVolumeAsc ts')) ;;;
  ret copy.

(** Phase 1 (lines 45-69).  The inner loop only reads its arrays and keeps
    its totals in local variables, so it is [allItemsFitInOneBox] on the
    items read.  The box returned refers to the array [sortedItems]
    itself. *)
Fixpoint phase1 (sortedItems : loc) (its : list Item.t) (types : list Box.t)
    : M (option loc) :=
  match types with
  | [] => ret None
  | boxType :: rest =>
      match allItemsFitInOneBox boxType its 0 0 with
      | Some (fv, tw) =>
          box <- alloc (BoxObj (mkBoxObject boxType sortedItems fv tw)) ;;
          result <- alloc (BoxArray [box]) ;;
          ret (Some result)
      | None => phase1 sortedItems its rest
      end
  end.

(** The refill pass (lines 107-115 and 136-144) over the items read from
    [itemsToRecheck]; the items that do not fit are pushed on the array
    [unpackedItems]. *)
Fixpoint fillFurther (box : loc) (itemsToRecheck : list Item.t)
    (unpackedItems : loc) : M unit :=
  match itemsToRecheck with
  | [] => ret tt
  | otherItem :: rest =>
      o <- loadObject box ;;
      if doesItemFit otherItem (objType o) (objFilledVolume o) (objTotalWeight o)
      then pushItem box otherItem ;;; fillFurther box rest unpackedItems
      else pushToItems unpackedItems otherItem ;;;
           fillFurther box rest unpackedItems
  end.

(** The [while] loop of Phase 2 (lines 78-152).  The scan for the best box
    only reads the boxes, so it is [bestFitBox] on their current values.
    The result is the console. *)
Fixpoint phase2 (fuel : nat) (sortedBoxesAsc packedBoxes unpackedItems : loc)
    (console : list string) : M (list string) :=
  match fuel with
  | O => ret console
  | S fuel' =>
      pending <- loadItems unpackedItems ;;
      match pending with
      | [] => ret console
      | currentItem :: rest =>
          store unpackedItems (ItemArray rest) ;;;
          boxes <- loadPackedBoxes packedBoxes ;;
          match bestFitBox currentItem boxes with
          | Some bestFitBoxIndex =>
              bs <- loadBoxes packedBoxes ;;
              match nth_error bs bestFitBoxIndex with
              | Some targetBox =>
                  pushItem targetBox currentItem ;;;
                  still <- loadItems unpackedItems ;;
                  itemsToRecheck <- alloc (ItemArray still) ;;
                  unpackedItems' <- alloc (ItemArray []) ;;
                  toCheck <- loadItems itemsToRecheck ;;
                  fillFurther targetBox toCheck unpackedItems' ;;;
                  phase2 fuel' sortedBoxesAsc packedBoxes unpackedItems' console
              | None => fail _
              end
          | None =>
              types <- loadTypes sortedBoxesAsc ;;
              match find (canHoldAlone currentItem) types with
              | Some newBoxType =>
                  newItems <- alloc (ItemArray [currentItem]) ;;
                  newBox <-
                    alloc (BoxObj (mkBoxObject newBoxType newItems
                                     (getItemVolume currentItem)
                                     (Item.weight currentItem))) ;;
                  still <- loadItems unpackedItems ;;
                  itemsToRecheck <- alloc (ItemArray still) ;;
                  unpackedItems' <- alloc (ItemArray []) ;;
                  toCheck <- loadItems itemsToRecheck ;;
                  fillFurther newBox toCheck unpackedItems' ;;;
                  pushToBoxes packedBoxes newBox ;;;
                  phase2 fuel' sortedBoxesAsc packedBoxes unpackedItems' console
              | None =>
                  phase2 fuel' sortedBoxesAsc packedBoxes unpackedItems
                    (console ++ [warning currentItem])
              end
          end
      end
  end.

(** [packOptimal(items, boxTypes)]: the location of the array returned, and
    the console. *)
Definition packOptimal (items boxTypes : loc) : M (loc * list string) :=
  its <- loadItems items ;;
  match its with
  | [] => result <- alloc (BoxArray []) ;; ret (result, [])
  | _ =>
      sortedItems <- sortedCopyOfItems items ;;
      sortedBoxesAsc <- sortedCopyOfTypes boxTypes ;;
      sorted <- loadItems sortedItems ;;
      types <- loadTypes sortedBoxesAsc ;;
      single <- phase1 sortedItems sorted types ;;
      match single with
      | Some result => ret (result, [])
      | None =>
          packedBoxes <- alloc (BoxArray []) ;;
          unpackedItems <- alloc (ItemArray sorted) ;;
          console <-
            phase2 (List.length sorted) sortedBoxesAsc packedBoxes
              unpackedItems [] ;;
          ret (packedBoxes, console)
      end
  end.

(** [box => ({ ...box, items: [...box.items] })] (lines 208-211). *)
Definition copyBox (box : loc) : M loc :=
  o <- loadObject box ;;
  its <- loadItems (objItems o) ;;
  itemsCopy <- alloc (ItemArray its) ;;
  alloc (BoxObj (mkBoxObject (objType o) itemsCopy
                   (objFilledVolume o) (objTotalWeight o))).

(** The [for] loop of lines 215-240. *)
Fixpoint tryAddLoop (itemTypeToAdd : Item.t) (quantityToTry : nat)
    (simulatedPackedBoxes : loc) (itemsSuccessfullyAdded : nat) : M nat :=
  match quantityToTry with
  | O => ret itemsSuccessfullyAdded
  | S q =>
      boxes <- loadPackedBoxes simulatedPackedBoxes ;;
      match bestFitBox itemTypeToAdd boxes with
      | Some bestBoxIndex =>
          bs <- loadBoxes simulatedPackedBoxes ;;
          match nth_error bs bestBoxIndex with
          | Some targetBox =>
              pushItem targetBox itemTypeToAdd ;;;
              tryAddLoop itemTypeToAdd q simulatedPackedBoxes
                (S itemsSuccessfullyAdded)
          | None => fail _
          end
      | None => ret itemsSuccessfullyAdded
      end
  end.

(** [tryAddItemsToExistingBoxes]: the quantity added and the location of
    the array of simulated boxes. *)
Definition tryAddItemsToExistingBoxes (itemTypeToAdd : Item.t)
    (quantityToTry : nat) (existingPackedBoxes : loc) : M (nat * loc) :=
  bs <- loadBoxes existingPackedBoxes ;;
  copies <- mapM copyBox bs ;;
  simulatedPackedBoxes <- alloc (BoxArray copies) ;;
  added <- tryAddLoop itemTypeToAdd quantityToTry simulatedPackedBoxes 0%nat ;;
  ret (added, simulatedPackedBoxes).

(** [h'] keeps every object of [h] as it is and only adds new ones. *)
Definition extends (h h' : heap) : Prop := exists fresh, h' = h ++ fresh.

(** The packed boxes that the array at [boxes] denotes in [h]. *)
Definition denotes (h : heap) (boxes : loc) (value : list PackedBox) : Prop :=
  loadPackedBoxes boxes h = Some (value, h).

(** From [h] to [h'] no object was removed, and only the objects at the
    locations [written] may have changed. *)
Definition modifies (written : list loc) (h h' : heap) : Prop :=
  (List.length h <= List.length h')%nat /\
  forall l, (l < List.length h)%nat -> ~ In l written ->
            nth_error h' l = nth_error h l.

(** The object at [box] with its items array at [itemsAt] has the value
    [value]. *)
Definition holdsBox (h : heap) (box itemsAt : loc) (value : PackedBox) : Prop :=
  nth_error h box
  = Some (BoxObj (mkBoxObject (boxType value) itemsAt
                    (filledVolume value) (totalWeight value))) /\
  nth_error h itemsAt = Some (ItemArray (items value)).

(** Box objects paired with their items arrays, and the values they hold. *)
Definition represents (h : heap) (cells : list (loc * loc))
    (values : list PackedBox) : Prop :=
  Forall2 (fun p value => holdsBox h (fst p) (snd p) value) cells values.

Definition footprint (cells : list (loc * loc)) : list loc :=
  flat_map (fun p => [fst p; snd p]) cells.

End Heap.

(** ** Input domain

    Section 3 and section 7 of the specification: items come with positive
    dimensions and weights, and a box type declares a volume of at least
    length x width x height.  Each property below names the part of this
    that it needs; most need only that the numbers are not negative. *)

Definition dimsNonneg (item : Item.t) : Prop :=
  0 <= Item.length item /\ 0 <= Item.width item /\ 0 <= Item.height item.

Definition weightNonneg (item : Item.t) : Prop := 0 <= Item.weight item.

Definition validItem (item : Item.t) : Prop :=
  dimsNonneg item /\ weightNonneg item.

(** Positive dimensions, as section 3 has them. *)
Definition dimsPositive (item : Item.t) : Prop :=
  0 < Item.length item /\ 0 < Item.width item /\ 0 < Item.height item.

Definition volumeCoversDims (box : Box.t) : Prop :=
  Box.length box * Box.width box * Box.height box <= Box.volume box.

(** The item goes through the three axis limits of the box. *)
Definition fitsAxes (item : Item.t) (box : Box.t) : Prop :=
  Item.length item <= Box.length box /\
  Item.width item <= Box.width box /\
  Item.height item <= Box.height box.

(** ** Invariants of packed boxes *)

(** Sums over an item list, first item first. *)
Definition itemsVolume (l : list Item.t) : Q :=
  fold_right (fun item s => getItemVolume item + s) 0 l.

Definition itemsWeight (l : list Item.t) : Q :=
  fold_right (fun item s => Item.weight item + s) 0 l.

(** The invariant of a packed box (section 3): the running totals are the
    sums over the assigned items, and stay within the limits of the box. *)
Definition packedInvariant (box : PackedBox) : Prop :=
  filledVolume box == itemsVolume (items box) /\
  totalWeight box == itemsWeight (items box) /\
  filledVolume box <= Box.volume (boxType box) /\
  totalWeight box <= Box.maxWeight (boxType box).

(** The box passes the fit predicate for one more [item]. *)
Definition accepts (item : Item.t) (box : PackedBox) : bool :=
  doesItemFit item (boxType box) (filledVolume box) (totalWeight box).

(** A box that is not filled below zero, and a box that holds something. *)
Definition filledNonneg (box : PackedBox) : Prop := 0 <= filledVolume box.

Definition loaded (box : PackedBox) : Prop := 0 < filledVolume box.

(** What the accounting of items needs of a box: a non-negative load and a
    type of the catalog. *)
Definition wellLoaded (cat : list Box.t) (box : PackedBox) : Prop :=
  0 <= totalWeight box /\ In (boxType box) cat.

(** ** Phase 1 and the accounting of items, in the words of the specification *)

(** Phase 1 accepts [boxType] for [items]: its sequential test, run over the
    items in descending-volume order from an empty box, reaches the end. *)
Definition allFitIn (items : list Item.t) (boxType : Box.t) : Prop :=
  allItemsFitInOneBox boxType (sort_by byVolumeDesc items) 0 0 <> None.

(** The order-free reading of "all items together fit in the box type". *)
Definition fitTogether (items : list Item.t) (boxType : Box.t) : Prop :=
  Forall (fun item => fitsAxes item boxType) items /\
  itemsVolume items <= Box.volume boxType /\
  itemsWeight items <= Box.maxWeight boxType.

(** Some box type of the catalog can hold the item alone. *)
Definition holdable (boxTypes : list Box.t) (item : Item.t) : bool :=
  existsb (canHoldAlone item) boxTypes.

Definition unholdable (boxTypes : list Box.t) (item : Item.t) : bool :=
  negb (holdable boxTypes item).

(** All items of a packing result, box after box. *)
Definition packedItems (boxes : list PackedBox) : list Item.t :=
  flat_map items boxes.

(** ** The best-fit rule and the simulation, in the words of the specification *)

(** The best-fit rule of sections 4.2 and 4.4: box [i] accepts the item, no
    accepting box reaches a higher fill percentage after the addition, and
    every accepting box before [i] reaches a strictly lower one. *)
Definition isBestFit (item : Item.t) (boxes : list PackedBox) (i : nat) : Prop :=
  exists box,
    nth_error boxes i = Some box /\
    accepts item box = true /\
    forall j other,
      nth_error boxes j = Some other -> accepts item other = true ->
      potentialNewFill item other <= potentialNewFill item box /\
      ((j < i)%nat -> potentialNewFill item other < potentialNewFill item box).

(** What the scan for the best box has established after the boxes [pre]:
    its best index and highest fill so far. *)
Definition scannedSoFar (item : Item.t) (pre : list PackedBox)
    (best : option nat) (hi : Q) : Prop :=
  match best with
  | None => hi = -1 /\ forall box, In box pre -> accepts item box = false
  | Some i =>
      isBestFit item pre i /\
      exists box, nth_error pre i = Some box /\ hi = potentialNewFill item box
  end.


(** ** Metrics, in the words of the specification *)

(** Section 4.3 in its own words: total filled volume and total container
    volume across the containers, and the efficiency they define. *)
Definition totalFilled (boxes : list PackedBox) : Q :=
  fold_right (fun box s => filledVolume box + s) 0 boxes.

Definition totalCapacity (boxes : list PackedBox) : Q :=
  fold_right (fun box s => Box.volume (boxType box) + s) 0 boxes.

Definition efficiencySpec (boxes : list PackedBox) : Q :=
  match boxes with
  | [] => 0
  | _ => totalFilled boxes / totalCapacity boxes * 100
  end.

(** Section 4.3 in its own words.  [isSmallestHolder catalog item b]: [b] is
    a smallest-volume type of the catalog able to hold the item alone. *)
Definition isSmallestHolder (catalog : list Box.t) (item : Item.t)
    (b : Box.t) : Prop :=
  In b catalog /\ canHoldAlone item b = true /\
  forall b', In b' catalog -> canHoldAlone item b' = true ->
             Box.volume b <= Box.volume b'.

(** The carbon cost of shipping the item alone in box type [b]: fixed cost
    plus per-kilogram cost. *)
Definition carbonAloneIn (item : Item.t) (b : Box.t) : Q :=
  Box.baseCO2 b + Item.weight item * Box.perKgCO2 b.

(** The contribution of one item to the baseline: the cost of its smallest
    box of [AMAZON_BOX_SIZES], nothing when no type holds it. *)
Definition carbonAlone (item : Item.t) : Q :=
  match find (canHoldAlone item) (sort_by byVolumeAsc AMAZON_BOX_SIZES) with
  | Some b => carbonAloneIn item b
  | None => 0
  end.

Definition baselineCarbon (flatItemList : list Item.t) : Q :=
  fold_right (fun item s => carbonAlone item + s) 0 flatItemList.

(** Carbon impact: sum over the containers of fixed cost plus total weight
    times per-kilogram cost. *)
Definition actualCarbon (boxes : list PackedBox) : Q :=
  fold_right
    (fun box s =>
       (Box.baseCO2 (boxType box)
        + totalWeight box * Box.perKgCO2 (boxType box)) + s)
    0 boxes.

(** ** Suggestions *)

(** The number of units of a saved item type that fit into the boxes of
    the baseline packing. *)
Definition unitsThatFit (savedItemType : SavedItem)
    (originalPackedBoxes : list PackedBox) : nat :=
  quantityAdded
    (tryAddItemsToExistingBoxes (savedItem savedItemType)
       (quantity savedItemType) originalPackedBoxes).



(** ** More sample data *)

Definition anvil : Item.t := Item.make "anvil" "Anvil" 20 20 20 30.

(** A box type that declares half of length x width x height, and an item
    that fills its three dimensions. *)
Definition cramped : Box.t := Box.make "Cramped" 10 10 10 500 5 (1#10) (1#10).
Definition cube : Item.t := Item.make "cube" "Cube" 10 10 10 1.

(** A saved-for-later map: three mugs, a keyboard, two anvils. *)
Definition sampleSaved : list (string * SavedItem) :=
  [ ("mug"%string, mkSaved mug 3);
    ("keyboard"%string, mkSaved keyboard 1);
    ("anvil"%string, mkSaved anvil 2) ].

(** A store of a caller: an item list at 0, the catalog at 1, and at 4 a
    packing result of one small box (object 3) holding a book (array 2). *)
Definition sampleStore : Heap.heap :=
  [ Heap.ItemArray [book; mug; keyboard];
    Heap.TypeArray AMAZON_BOX_SIZES;
    Heap.ItemArray [book];
    Heap.BoxObj (Heap.mkBoxObject smallBox 2%nat 1800 (8#10));
    Heap.BoxArray [3%nat] ].

(** ** The fill bar of [PackingVisualization], line 349 *)

(** [(box.filledVolume / box.volume) * 100], the height of the bar drawn for
    a packed box and the percentage in its caption. *)
Definition filledPercentage (box : PackedBox) : Q :=
  (filledVolume box / Box.volume (boxType box)) * 100.

(** ** Objects used as maps

    [cartItems], [savedForLaterItems] and the [boxCounts] of
    [calculateMetrics] are plain objects used as maps from a string key.
    Such an object is modelled by its own properties in the order
    [Object.values], [Object.entries] and [for ... in] visit them, which for
    keys that are not array indices is the order in which the keys were
    first assigned.  The keys of the application are item ids and box
    names: none is an array index, none names a property that
    [Object.prototype] supplies. *)
Module Obj.

Definition t (V : Type) : Type := list (string * V).

(** [obj[key]]: [None] stands for [undefined]. *)
Fixpoint get (V : Type) (key : string) (obj : t V) : option V :=
  match obj with
  | [] => None
  | (k, v) :: rest => if String.eqb key k then Some v else get key rest
  end.

(** [obj[key] = v]: a key that is present keeps its place, a new key goes
    last. *)
Fixpoint set (V : Type) (key : string) (v : V) (obj : t V) : t V :=
  match obj with
  | [] => [(key, v)]
  | (k, v') :: rest =>
      if String.eqb key k then (k, v) :: rest else (k, v') :: set key v rest
  end.

(** [delete obj[key]]. *)
Definition delete (V : Type) (key : string) (obj : t V) : t V :=
  filter (fun entry => negb (String.eqb key (fst entry))) obj.

(** [Object.keys(obj)] and [Object.values(obj)]. *)
Definition keys (V : Type) (obj : t V) : list string := map fst obj.

Definition values (V : Type) (obj : t V) : list V := map snd obj.

End Obj.

(** ** The box counts of [calculateMetrics], lines 185-188 *)



(** ** The cart of [App], lines 368-465 *)

(** An entry of [cartItems] or of [savedForLaterItems] is an item with its
    [quantity]: the [SavedItem] that [getBulkOrderSuggestions] reads.  A
    quantity is a count of units; the [change] of [handleUpdateQuantity] is
    a signed integer. *)
Definition ItemMap : Type := Obj.t SavedItem.

(** [obj[id] ? obj[id].quantity : 0] and [obj[id]?.quantity || 0]. *)
Definition quantityOr0 (entry : option SavedItem) : nat :=
  match entry with
  | Some e => quantity e
  | None => 0%nat
  end.

(** The updater of [handleUpdateQuantity], lines 400-413; the spread
    [{ ...prev }] makes a copy, which a value is. *)
Definition handleUpdateQuantity (item : Item.t) (change : Z) (prev : ItemMap)
    : ItemMap :=
  let newCart := prev in
  let currentQuantity := quantityOr0 (Obj.get (Item.id item) newCart) in
  let newQuantity := (Z.of_nat currentQuantity + change)%Z in
  if (0 <? newQuantity)%Z
  then Obj.set (Item.id item) (mkSaved item (Z.to_nat newQuantity)) newCart
  else Obj.delete (Item.id item) newCart.

(** The two states of [App] that the handlers update. *)
Record AppState : Type := mkAppState
  { cartItems : ItemMap;
    savedForLaterItems : ItemMap }.

(** [moveToSavedForLater], lines 415-427: [item] is an entry of the cart,
    with the quantity it holds there. *)
Definition moveToSavedForLater (item : SavedItem) (state : AppState) : AppState :=
  let id := Item.id (savedItem item) in
  let newCart := Obj.delete id (cartItems state) in
  let newSaved :=
    Obj.set id
      (mkSaved (savedItem item)
         (quantityOr0 (Obj.get id (savedForLaterItems state)) + quantity item))
      (savedForLaterItems state) in
  mkAppState newCart newSaved.

(** [moveToCartFromSaved], lines 429-445.  The entry of the saved list is
    decremented in place and deleted when nothing is left of it. *)
Definition moveToCartFromSaved (item : SavedItem) (quantityToMove : nat)
    (state : AppState) : AppState :=
  let id := Item.id (savedItem item) in
  let newSaved :=
    match Obj.get id (savedForLaterItems state) with
    | Some entry =>
        let remaining := (Z.of_nat (quantity entry) - Z.of_nat quantityToMove)%Z in
        if (remaining <=? 0)%Z
        then Obj.delete id (savedForLaterItems state)
        else Obj.set id (mkSaved (savedItem entry) (Z.to_nat remaining))
               (savedForLaterItems state)
    | None => savedForLaterItems state
    end in
  let newCart :=
    Obj.set id
      (mkSaved (savedItem item)
         (quantityOr0 (Obj.get id (cartItems state)) + quantityToMove))
      (cartItems state) in
  mkAppState newCart newSaved.


(** [Object.values(cartItems)], line 451. *)
Definition cartAsList (cart : ItemMap) : list SavedItem := Obj.values cart.

(** [cartAsList.reduce((sum, item) => sum + item.quantity, 0)], line 452; the
    heading of the saved list sums [savedForLaterItems] the same way. *)
Definition totalItemsInCart (cart : ItemMap) : nat :=
  fold_left (fun sum item => (sum + quantity item)%nat) (cartAsList cart) 0%nat.

(** [cartAsList.flatMap(item => Array(item.quantity).fill(item))], line 455:
    every entry repeated as often as its quantity says.  The engine reads
    the item fields of an element only. *)
Definition flatItemList (cart : ItemMap) : list Item.t :=
  flat_map (fun item => repeat (savedItem item) (quantity item)) (cartAsList cart).

(** Lines 458 and 462-465: what [App] shows for its two states. *)
Definition optimalMetrics (cart : ItemMap) : Metrics :=
  calculateMetrics (packOptimal (flatItemList cart) AMAZON_BOX_SIZES)
    (flatItemList cart).


(** What the handlers keep of a state object: every entry is filed under the
    id of its item and holds at least one unit, and no key occurs twice. *)
Definition wellFormed (obj : ItemMap) : Prop :=
  NoDup (Obj.keys obj) /\
  Forall
    (fun entry =>
       fst entry = Item.id (savedItem (snd entry)) /\
       (0 < quantity (snd entry))%nat)
    obj.

(** ** The saved list over a store of entry objects

    The spread [{ ...prevSaved }] copies the references of a state object,
    not the entry objects they lead to.  Here a state object maps an id to
    the location of its entry object in a store, and the updater that
    [moveToCartFromSaved] hands to [setSavedForLaterItems] (lines 430-439)
    is run on that store.  The quantity of an entry object is a signed
    integer: the decrement can take it below zero. *)
Module CartStore.

Record Entry : Type := mkEntry
  { entryItem : Item.t;
    entryQuantity : Z }.

Definition loc : Type := nat.

Definition store : Type := list Entry.

Definition StateObject : Type := Obj.t loc.

(** The entries a state object leads to, key by key; [None] when a
    reference leads nowhere. *)
Fixpoint view (h : store) (obj : StateObject) : option (Obj.t Entry) :=
  match obj with
  | [] => Some []
  | (k, l) :: rest =>
      match nth_error h l, view h rest with
      | Some entry, Some entries => Some ((k, entry) :: entries)
      | _, _ => None
      end
  end.

(** Lines 430-439.  [newSaved[item.id].quantity -= quantityToMove] writes to
    the entry object that [newSaved] and [prevSaved] both refer to. *)
Definition savedUpdater (id : string) (quantityToMove : Z)
    (prevSaved : StateObject) (h : store) : option (StateObject * store) :=
  let newSaved := prevSaved in
  match Obj.get id newSaved with
  | Some l =>
      match nth_error h l with
      | Some entry =>
          let remaining := (entryQuantity entry - quantityToMove)%Z in
          let h' := setNth l (mkEntry (entryItem entry) remaining) h in
          if (remaining <=? 0)%Z
          then Some (Obj.delete id newSaved, h')
          else Some (newSaved, h')
      | None => None
      end
  | None => Some (newSaved, h)
  end.

(** The pure reading of the same updater: what it would return if the
    decrement were made on a copy of the entry. *)
Definition decrement (id : string) (quantityToMove : Z) (entries : Obj.t Entry)
    : Obj.t Entry :=
  match Obj.get id entries with
  | Some entry =>
      let remaining := (entryQuantity entry - quantityToMove)%Z in
      if (remaining <=? 0)%Z
      then Obj.delete id entries
      else Obj.set id (mkEntry (entryItem entry) remaining) entries
  | None => entries
  end.

End CartStore.

(** ** Orders that leave no choice to the sort *)

(** Elements that the comparator cannot tell apart are the same element:
    then a permutation of the list sorts to the same list. *)
Definition tiesAreEqual (A : Type) (cmp : A -> A -> Q) (l : list A) : Prop :=
  forall x y, In x l -> In y l -> cmp x y <= 0 -> cmp y x <= 0 -> x = y.

(** ** The simulation, box by box *)

(** [new] is [old] with [k] more units of [item] at the end of its items. *)
Definition withUnits (item : Item.t) (k : nat) (old new : PackedBox) : Prop :=
  boxType new = boxType old /\
  items new = items old ++ repeat item k /\
  filledVolume new == filledVolume old + inject_Z (Z.of_nat k) * getItemVolume item /\
  totalWeight new == totalWeight old + inject_Z (Z.of_nat k) * Item.weight item.


(** ** Items and the boxes that hold them *)

(** The type of the box can hold alone each of the items in the box. *)
Definition holdsEachAlone (box : PackedBox) : Prop :=
  0 <= totalWeight box /\
  Forall (fun item => canHoldAlone item (boxType box) = true) (items box).


(** ** A sample state of the application *)

(** Two books and a mug in the cart; [sampleSaved] saved for later. *)
Definition sampleCart : ItemMap :=
  [ ("book"%string, mkSaved book 2); ("mug"%string, mkSaved mug 1) ].

Definition sampleState : AppState := mkAppState sampleCart sampleSaved.

(** The saved list as a state object over a store: three mugs in entry
    object 0, a keyboard in entry object 1. *)
Definition sampleEntries : CartStore.store :=
  [ CartStore.mkEntry mug 3; CartStore.mkEntry keyboard 1 ].

Definition sampleSavedObject : CartStore.StateObject :=
  [ ("mug"%string, 0%nat); ("keyboard"%string, 1%nat) ].

(** ** Counting boxes by name *)


(** ** The boxes that Phase 2 opens *)

(** The box was sized for its first item: its type is a smallest type of
    the catalog able to hold that item alone, and no item in the box has a
    larger volume than the first. *)
Definition sizedForFirstItem (boxTypes : list Box.t) (box : PackedBox) : Prop :=
  exists first rest,
    items box = first :: rest /\
    isSmallestHolder boxTypes first (boxType box) /\
    Forall (fun item => getItemVolume item <= getItemVolume first) rest.

(** The box [later] was opened for an item that the box [earlier] does not
    accept. *)
Definition passedOver (earlier later : PackedBox) : Prop :=
  match items later with
  | first :: _ => accepts first earlier = false
  | [] => True
  end.

(** [box'] is [box] after more items went in. *)
Definition grown (box box' : PackedBox) : Prop :=
  boxType box' = boxType box /\
  filledVolume box <= filledVolume box' /\
  totalWeight box <= totalWeight box' /\
  exists placed, items box' = items box ++ placed.

(** * Properties *)

(** ** Arithmetic and boolean helpers *)

Lemma Qgt_bool_iff (a b : Q) : Qgt_bool a b = true <-> b < a.
Proof.
  unfold Qgt_bool. rewrite negb_true_iff.
  split; intro H.
  - apply Qnot_le_lt. intro Hle. apply Qle_bool_iff in Hle. congruence.
  - destruct (Qle_bool a b) eqn:E; [|reflexivity].
    apply Qle_bool_iff in E. exfalso. apply (Qlt_not_le _ _ H E).
Qed.

Lemma Qle_bool_false_iff (a b : Q) : Qle_bool a b = false <-> b < a.
Proof.
  rewrite <- Qgt_bool_iff. unfold Qgt_bool. now rewrite negb_true_iff.
Qed.

Lemma doesItemFit_iff (item : Item.t) (box : Box.t) (fv tw : Q) :
  doesItemFit item box fv tw = true <->
  fitsAxes item box /\
  fv + getItemVolume item <= Box.volume box /\
  tw + Item.weight item <= Box.maxWeight box.
Proof.
  unfold doesItemFit, fitsAxes.
  rewrite !andb_true_iff, !Qle_bool_iff. tauto.
Qed.

Lemma canHoldAlone_iff (item : Item.t) (box : Box.t) :
  canHoldAlone item box = true <->
  fitsAxes item box /\ Item.weight item <= Box.maxWeight box.
Proof.
  unfold canHoldAlone, fitsAxes.
  rewrite !andb_true_iff, !Qle_bool_iff. tauto.
Qed.

Lemma getItemVolume_nonneg (item : Item.t) :
  dimsNonneg item -> 0 <= getItemVolume item.
Proof.
  intros (Hl & Hw & Hh). unfold getItemVolume.
  apply Qmult_le_0_compat; [apply Qmult_le_0_compat|]; assumption.
Qed.

Lemma Qmult_le_mono (a b c d : Q) :
  0 <= a -> a <= b -> 0 <= c -> c <= d -> a * c <= b * d.
Proof.
  intros Ha Hab Hc Hcd.
  apply Qle_trans with (b * c).
  - rewrite (Qmult_comm a c), (Qmult_comm b c).
    apply Qmult_le_compat_nonneg; split; auto; try apply Qle_refl; lra.
  - apply Qmult_le_compat_nonneg; split; auto; lra.
Qed.

(** An item that passes the axis limits has a volume below the product of
    the limits, hence below a declared volume that covers the product. *)
Lemma fitsAxes_volume (item : Item.t) (box : Box.t) :
  dimsNonneg item -> volumeCoversDims box -> fitsAxes item box ->
  getItemVolume item <= Box.volume box.
Proof.
  intros (Hl & Hw & Hh) Hbox (Al & Aw & Ah).
  unfold volumeCoversDims in Hbox. unfold getItemVolume.
  eapply Qle_trans; [|exact Hbox].
  apply Qmult_le_mono; auto.
  - apply Qmult_le_0_compat; assumption.
  - apply Qmult_le_mono; auto.
Qed.

Lemma itemsVolume_nonneg (l : list Item.t) :
  Forall dimsNonneg l -> 0 <= itemsVolume l.
Proof.
  induction 1 as [|x l Hx _ IH]; simpl; [lra|].
  pose proof (getItemVolume_nonneg Hx). lra.
Qed.

Lemma itemsWeight_nonneg (l : list Item.t) :
  Forall weightNonneg l -> 0 <= itemsWeight l.
Proof.
  induction 1 as [|x l Hx _ IH]; simpl; [lra|].
  unfold weightNonneg in Hx. lra.
Qed.

Lemma itemsVolume_app (l1 l2 : list Item.t) :
  itemsVolume (l1 ++ l2) == itemsVolume l1 + itemsVolume l2.
Proof. induction l1 as [|x l1 IH]; simpl; [lra | rewrite IH; lra]. Qed.

Lemma itemsWeight_app (l1 l2 : list Item.t) :
  itemsWeight (l1 ++ l2) == itemsWeight l1 + itemsWeight l2.
Proof. induction l1 as [|x l1 IH]; simpl; [lra | rewrite IH; lra]. Qed.

Lemma itemsVolume_perm (l l' : list Item.t) :
  Permutation l l' -> itemsVolume l == itemsVolume l'.
Proof. induction 1; simpl; lra. Qed.

Lemma itemsWeight_perm (l l' : list Item.t) :
  Permutation l l' -> itemsWeight l == itemsWeight l'.
Proof. induction 1; simpl; lra. Qed.

(** ** The inline checks and the fit predicate *)

Lemma canHoldAlone_doesItemFit (item : Item.t) (box : Box.t) :
  dimsNonneg item -> volumeCoversDims box ->
  canHoldAlone item box = doesItemFit item box 0 0.
Proof.
  intros Hi Hb.
  apply eq_true_iff_eq.
  rewrite canHoldAlone_iff, doesItemFit_iff.
  split.
  - intros [Hax Hw]. repeat split; try apply Hax.
    + pose proof (fitsAxes_volume Hi Hb Hax). lra.
    + lra.
  - intros (Hax & _ & Hw). split; [exact Hax | lra].
Qed.

Lemma find_ext_Forall (A : Type) (P : A -> Prop) (f g : A -> bool) (l : list A) :
  Forall P l -> (forall x, P x -> f x = g x) -> find f l = find g l.
Proof.
  intros Hl Hfg. induction Hl as [|x l Hx _ IH]; simpl; [reflexivity|].
  rewrite (Hfg x Hx), IH. reflexivity.
Qed.

(** ** The stable sort *)

Section Sorting.
Variable A : Type.
Variable cmp : A -> A -> Q.

Lemma insert_by_perm (x : A) (l : list A) :
  Permutation (insert_by cmp x l) (x :: l).
Proof.
  induction l as [|y l IH]; simpl; [reflexivity|].
  destruct (Qle_bool (cmp x y) 0); [reflexivity|].
  rewrite IH. apply perm_swap.
Qed.

Lemma sort_by_perm (l : list A) : Permutation (sort_by cmp l) l.
Proof.
  induction l as [|x l IH]; simpl; [reflexivity|].
  unfold sort_by in *. simpl. rewrite insert_by_perm. now constructor.
Qed.

Lemma sort_by_In (l : list A) (x : A) : In x (sort_by cmp l) <-> In x l.
Proof.
  split; apply Permutation_in;
    [apply sort_by_perm | apply Permutation_sym, sort_by_perm].
Qed.

Lemma sort_by_Forall (P : A -> Prop) (l : list A) :
  Forall P l -> Forall P (sort_by cmp l).
Proof.
  intro H. eapply Permutation_Forall; [|exact H].
  apply Permutation_sym, sort_by_perm.
Qed.

Lemma sort_by_length (l : list A) : List.length (sort_by cmp l) = List.length l.
Proof. apply Permutation_length, sort_by_perm. Qed.

Lemma sort_by_nil (l : list A) : sort_by cmp l = [] -> l = [].
Proof.
  intro H. apply Permutation_nil.
  rewrite <- H. apply sort_by_perm.
Qed.

Hypothesis cmp_total : forall x y, 0 < cmp x y -> cmp y x <= 0.
Hypothesis cmp_trans : forall x y z, cmp x y <= 0 -> cmp y z <= 0 -> cmp x z <= 0.

Lemma insert_by_sorted (x : A) (l : list A) :
  StronglySorted (before cmp) l -> StronglySorted (before cmp) (insert_by cmp x l).
Proof.
  induction 1 as [|y l Hs IH Hy]; simpl.
  - constructor; constructor.
  - destruct (Qle_bool (cmp x y) 0) eqn:E.
    + apply Qle_bool_iff in E.
      constructor; [constructor; assumption|].
      constructor; [exact E|].
      eapply Forall_impl; [|exact Hy].
      intros z Hz. exact (cmp_trans E Hz).
    + apply Qle_bool_false_iff in E.
      constructor; [exact IH|].
      eapply Permutation_Forall;
        [apply Permutation_sym, insert_by_perm|].
      constructor; [apply cmp_total; exact E | exact Hy].
Qed.

Lemma sort_by_sorted (l : list A) : StronglySorted (before cmp) (sort_by cmp l).
Proof.
  induction l as [|x l IH]; [constructor|].
  apply insert_by_sorted. exact IH.
Qed.

End Sorting.

Lemma StronglySorted_impl (A : Type) (R R' : A -> A -> Prop) (l : list A) :
  (forall a b, R a b -> R' a b) -> StronglySorted R l -> StronglySorted R' l.
Proof.
  intros HR. induction 1 as [|a l _ IH Ha]; constructor; [exact IH|].
  eapply Forall_impl; [|exact Ha]. intros b. apply HR.
Qed.

Lemma sortedItems_desc (l : list Item.t) :
  StronglySorted (fun a b => getItemVolume b <= getItemVolume a)
    (sort_by byVolumeDesc l).
Proof.
  apply StronglySorted_impl with (R := before byVolumeDesc).
  - unfold before, byVolumeDesc. intros a b Hab. lra.
  - apply sort_by_sorted; unfold byVolumeDesc; intros; lra.
Qed.

Lemma sortedBoxes_asc (l : list Box.t) :
  StronglySorted (fun a b => Box.volume a <= Box.volume b)
    (sort_by byVolumeAsc l).
Proof.
  apply StronglySorted_impl with (R := before byVolumeAsc).
  - unfold before, byVolumeAsc. intros a b Hab. lra.
  - apply sort_by_sorted; unfold byVolumeAsc; intros; lra.
Qed.

(** C8.  For an item with non-negative dimensions and a catalog whose box
    types declare a volume of at least length x width x height, the inline
    check used when Phase 2 opens a new box and when [calculateMetrics]
    looks up the smallest box of a single item ([canHoldAlone], the same
    test at both places) is [doesItemFit] at filled volume 0 and total
    weight 0 on every box type; hence both lookups select the box that a
    lookup with [doesItemFit] selects. *)
Theorem inline_checks_agree_with_doesItemFit
    (item : Item.t) (catalog : list Box.t) :
  dimsNonneg item -> Forall volumeCoversDims catalog ->
  (forall box, In box catalog ->
     canHoldAlone item box = doesItemFit item box 0 0) /\
  find (canHoldAlone item) (sort_by byVolumeAsc catalog)
  = find (fun box => doesItemFit item box 0 0) (sort_by byVolumeAsc catalog).
Proof.
  intros Hi Hc. split.
  - intros box Hin. apply canHoldAlone_doesItemFit; [exact Hi|].
    rewrite Forall_forall in Hc. auto.
  - apply find_ext_Forall with (P := volumeCoversDims).
    + apply sort_by_Forall. exact Hc.
    + intros box Hb. apply canHoldAlone_doesItemFit; assumption.
Qed.

Lemma inline_checks_agree_with_doesItemFit_witness :
  (forall box, In box AMAZON_BOX_SIZES ->
     canHoldAlone keyboard box = doesItemFit keyboard box 0 0) /\
  find (canHoldAlone keyboard) (sort_by byVolumeAsc AMAZON_BOX_SIZES)
  = find (fun box => doesItemFit keyboard box 0 0)
      (sort_by byVolumeAsc AMAZON_BOX_SIZES).
Proof.
  apply inline_checks_agree_with_doesItemFit.
  - unfold dimsNonneg; simpl; repeat split; discriminate.
  - repeat constructor; unfold volumeCoversDims; simpl; discriminate.
Defined.

(** ** Phase 1: the all-items test *)

Lemma allItemsFit_totals (box : Box.t) (l : list Item.t) (fv tw fv' tw' : Q) :
  allItemsFitInOneBox box l fv tw = Some (fv', tw') ->
  fv' == fv + itemsVolume l /\ tw' == tw + itemsWeight l.
Proof.
  revert fv tw. induction l as [|x l IH]; simpl; intros fv tw H.
  - injection H as <- <-. split; lra.
  - destruct (doesItemFit x box fv tw); [|discriminate].
    destruct (IH _ _ H) as [Hv Hw]. split; lra.
Qed.

Lemma allItemsFit_bounds (box : Box.t) (l : list Item.t) (fv tw fv' tw' : Q) :
  allItemsFitInOneBox box l fv tw = Some (fv', tw') -> l <> [] ->
  fv' <= Box.volume box /\ tw' <= Box.maxWeight box.
Proof.
  revert fv tw. induction l as [|x l IH]; simpl; intros fv tw H Hne;
    [congruence|].
  destruct (doesItemFit x box fv tw) eqn:E; [|discriminate].
  destruct l as [|y l].
  - simpl in H. injection H as <- <-.
    apply doesItemFit_iff in E. tauto.
  - apply (IH _ _ H). discriminate.
Qed.

(** The sequential test against its order-free reading, from any running
    totals. *)
Lemma allItemsFit_iff (box : Box.t) (l : list Item.t) (fv tw : Q) :
  Forall validItem l ->
  fv <= Box.volume box -> tw <= Box.maxWeight box ->
  (allItemsFitInOneBox box l fv tw <> None <->
   Forall (fun item => fitsAxes item box) l /\
   fv + itemsVolume l <= Box.volume box /\
   tw + itemsWeight l <= Box.maxWeight box).
Proof.
  intros Hl. revert fv tw.
  induction Hl as [|x l [Hd Hw] Hl IH]; simpl; intros fv tw Hfv Htw.
  - split; [intros _; repeat split; [constructor | lra | lra] | discriminate].
  - pose proof (getItemVolume_nonneg Hd) as Hx.
    assert (0 <= itemsVolume l) as Hvl
      by (apply itemsVolume_nonneg; eapply Forall_impl; [|exact Hl];
          intros ? [? ?]; assumption).
    assert (0 <= itemsWeight l) as Hwl
      by (apply itemsWeight_nonneg; eapply Forall_impl; [|exact Hl];
          intros ? [? ?]; assumption).
    unfold weightNonneg in Hw.
    destruct (doesItemFit x box fv tw) eqn:E.
    + apply doesItemFit_iff in E. destruct E as (Hax & Ev & Ew).
      rewrite (IH _ _ Ev Ew). split.
      * intros (Hf & Hv' & Hw').
        split; [constructor; assumption|]. split; lra.
      * intros (Hf & Hv' & Hw'). inversion Hf; subst.
        split; [assumption|]. split; lra.
    + split; [congruence|].
      intros (Hf & Hv' & Hw'). exfalso.
      inversion Hf; subst.
      assert (doesItemFit x box fv tw = true) as E'
        by (apply doesItemFit_iff; split; [assumption|]; split; lra).
      congruence.
Qed.



(** ** The scan for the best box *)

Lemma bestFitScan_found (item : Item.t) (boxes : list PackedBox) (k : nat)
    (best : option nat) (hi : Q) (i : nat) :
  bestFitScan item boxes k best hi = Some i ->
  best = Some i \/
  (k <= i)%nat /\ exists box, nth_error boxes (i - k) = Some box /\
                             accepts item box = true.
Proof.
  revert k best hi. induction boxes as [|b boxes IH]; simpl; intros k best hi H.
  - left. exact H.
  - fold (accepts item b) in H.
    assert (forall best' hi',
              bestFitScan item boxes (S k) best' hi' = Some i ->
              best' = Some i \/
              (k <= i)%nat /\ exists box, nth_error (b :: boxes) (i - k) = Some box /\
                                         accepts item box = true) as Hrec.
    { intros best' hi' H'. destruct (IH _ _ _ H') as [Hb | (Hle & box & Hn & Ha)].
      - left. exact Hb.
      - right. split; [lia|]. exists box. split; [|exact Ha].
        replace (i - k)%nat with (S (i - S k)) by lia. exact Hn. }
    destruct (accepts item b) eqn:Ea.
    + destruct (Qgt_bool (potentialNewFill item b) hi).
      * destruct (Hrec _ _ H) as [Hb | Hr]; [|right; exact Hr].
        injection Hb as <-. right. split; [lia|].
        exists b. rewrite Nat.sub_diag. split; [reflexivity | exact Ea].
      * apply (Hrec _ _ H).
    + apply (Hrec _ _ H).
Qed.

Lemma bestFitBox_accepts (item : Item.t) (boxes : list PackedBox) (i : nat) :
  bestFitBox item boxes = Some i ->
  exists box, nth_error boxes i = Some box /\ accepts item box = true.
Proof.
  intro H. destruct (bestFitScan_found _ _ _ _ _ H) as [Hb | (_ & box & Hn & Ha)].
  - discriminate.
  - rewrite Nat.sub_0_r in Hn. exists box. split; assumption.
Qed.

(** ** Lists updated in place *)

Lemma setNth_length (A : Type) (i : nat) (x : A) (l : list A) :
  List.length (setNth i x l) = List.length l.
Proof.
  revert i. induction l as [|y l IH]; intros [|i]; simpl; auto.
Qed.

Lemma setNth_Forall (A : Type) (P : A -> Prop) (i : nat) (x : A) (l : list A) :
  Forall P l -> P x -> Forall P (setNth i x l).
Proof.
  intros Hl Hx. revert i.
  induction Hl as [|y l Hy Hl IH]; intros [|i]; simpl; constructor; auto.
Qed.

Lemma nth_error_Forall (A : Type) (P : A -> Prop) (l : list A) (i : nat) (x : A) :
  Forall P l -> nth_error l i = Some x -> P x.
Proof.
  intros Hl Hn. rewrite Forall_forall in Hl.
  apply Hl. eapply nth_error_In. exact Hn.
Qed.

(** ** The refill pass *)

Lemma addItem_invariant (box : PackedBox) (item : Item.t) :
  packedInvariant box -> accepts item box = true ->
  packedInvariant (addItem box item).
Proof.
  intros (Hv & Hw & _ & _) Ha.
  apply doesItemFit_iff in Ha. destruct Ha as (_ & Av & Aw).
  unfold packedInvariant, addItem. simpl.
  rewrite itemsVolume_app, itemsWeight_app. simpl.
  repeat split; try assumption; lra.
Qed.

Lemma fillFurther_boxType (box : PackedBox) (l : list Item.t) :
  boxType (fst (fillFurther box l)) = boxType box.
Proof.
  revert box. induction l as [|x l IH]; intros box; simpl; [reflexivity|].
  destruct (doesItemFit _ _ _ _).
  - rewrite IH. reflexivity.
  - specialize (IH box). destruct (fillFurther box l). exact IH.
Qed.

Lemma fillFurther_invariant (box : PackedBox) (l : list Item.t) :
  packedInvariant box -> packedInvariant (fst (fillFurther box l)).
Proof.
  revert box. induction l as [|x l IH]; intros box Hb; simpl; [exact Hb|].
  destruct (doesItemFit _ _ _ _) eqn:E.
  - apply IH. apply addItem_invariant; assumption.
  - specialize (IH box Hb). destruct (fillFurther box l). exact IH.
Qed.

Lemma fillFurther_unpacked_Forall (P : Item.t -> Prop) (box : PackedBox)
    (l : list Item.t) :
  Forall P l -> Forall P (snd (fillFurther box l)).
Proof.
  intro Hl. revert box.
  induction Hl as [|x l Hx Hl IH]; intros box; simpl; [constructor|].
  destruct (doesItemFit _ _ _ _).
  - apply IH.
  - specialize (IH box). destruct (fillFurther box l).
    constructor; assumption.
Qed.

Lemma fillFurther_unpacked_length (box : PackedBox) (l : list Item.t) :
  (List.length (snd (fillFurther box l)) <= List.length l)%nat.
Proof.
  revert box. induction l as [|x l IH]; intros box; simpl; [lia|].
  destruct (doesItemFit _ _ _ _).
  - specialize (IH (addItem box x)). lia.
  - specialize (IH box). destruct (fillFurther box l). simpl in *. lia.
Qed.

(** ** The loop of Phase 2: an invariant rule

    A property of the loop state (opened boxes, pending items, console) that
    each of the three kinds of turn preserves holds when the loop ends, and
    the loop ends with nothing pending as soon as the fuel covers the
    pending items. *)

Section Phase2Rule.
Variable sortedBoxesAsc : list Box.t.
Variable I : list PackedBox -> list Item.t -> list string -> Prop.

Hypothesis into_existing :
  forall packed cur rest console i target,
    I packed (cur :: rest) console ->
    bestFitBox cur packed = Some i ->
    nth_error packed i = Some target ->
    accepts cur target = true ->
    I (setNth i (fst (fillFurther (addItem target cur) rest)) packed)
      (snd (fillFurther (addItem target cur) rest)) console.

Hypothesis into_new :
  forall packed cur rest console newBoxType,
    I packed (cur :: rest) console ->
    bestFitBox cur packed = None ->
    find (canHoldAlone cur) sortedBoxesAsc = Some newBoxType ->
    let newBox :=
      mkPacked newBoxType [cur] (getItemVolume cur) (Item.weight cur) in
    I (packed ++ [fst (fillFurther newBox rest)])
      (snd (fillFurther newBox rest)) console.

Hypothesis dropped :
  forall packed cur rest console,
    I packed (cur :: rest) console ->
    bestFitBox cur packed = None ->
    find (canHoldAlone cur) sortedBoxesAsc = None ->
    I packed rest (console ++ [warning cur]).

Lemma phase2_rule (fuel : nat) (packed : list PackedBox)
    (unpacked : list Item.t) (console : list string) :
  (List.length unpacked <= fuel)%nat ->
  I packed unpacked console ->
  exists packed' console',
    phase2 fuel sortedBoxesAsc packed unpacked console = (packed', console') /\
    I packed' [] console'.
Proof.
  revert packed unpacked console.
  induction fuel as [|fuel IH]; intros packed unpacked console Hlen HI.
  - destruct unpacked; [|simpl in Hlen; lia].
    exists packed, console. split; [reflexivity | exact HI].
  - destruct unpacked as [|cur rest].
    + exists packed, console. split; [reflexivity | exact HI].
    + simpl in Hlen. simpl.
      destruct (bestFitBox cur packed) as [i|] eqn:Eb.
      * destruct (bestFitBox_accepts _ _ Eb) as (target & Hn & Ha).
        rewrite Hn.
        pose proof (into_existing HI Eb Hn Ha) as Hstep.
        pose proof (fillFurther_unpacked_length (addItem target cur) rest) as Hl.
        destruct (fillFurther (addItem target cur) rest) as [t' u'].
        simpl in *. apply IH; [lia | exact Hstep].
      * destruct (find (canHoldAlone cur) sortedBoxesAsc) as [nb|] eqn:Ef.
        -- pose proof (into_new HI Eb Ef) as Hstep.
           pose proof (fillFurther_unpacked_length
                         (mkPacked nb [cur] (getItemVolume cur) (Item.weight cur))
                         rest) as Hl.
           simpl in Hstep.
           destruct (fillFurther _ rest) as [n' u'].
           simpl in *. apply IH; [lia | exact Hstep].
        -- apply IH; [lia|]. apply (dropped HI Eb Ef).
Qed.

End Phase2Rule.

(** The loop of Phase 2 does not depend on its fuel once the fuel covers
    the pending items: [phase2] is the loop run to its end. *)
Lemma phase2_fuel (sorted : list Box.t) (fuel fuel' : nat)
    (packed : list PackedBox) (unpacked : list Item.t) (console : list string) :
  (List.length unpacked <= fuel)%nat -> (List.length unpacked <= fuel')%nat ->
  phase2 fuel sorted packed unpacked console
  = phase2 fuel' sorted packed unpacked console.
Proof.
  revert fuel' packed unpacked console.
  induction fuel as [|fuel IH]; intros fuel' packed unpacked console H1 H2.
  - destruct unpacked; [|simpl in H1; lia]. destruct fuel'; reflexivity.
  - destruct unpacked as [|cur rest]; [destruct fuel'; reflexivity|].
    destruct fuel' as [|fuel']; [simpl in H2; lia|].
    simpl in H1, H2. simpl.
    destruct (bestFitBox cur packed) as [i|].
    + destruct (nth_error packed i) as [target|]; [|reflexivity].
      pose proof (fillFurther_unpacked_length (addItem target cur) rest) as Hl.
      destruct (fillFurther (addItem target cur) rest) as [t' u'].
      simpl in Hl. apply IH; lia.
    + destruct (find (canHoldAlone cur) sorted) as [nb|].
      * pose proof (fillFurther_unpacked_length
                      (mkPacked nb [cur] (getItemVolume cur) (Item.weight cur))
                      rest) as Hl.
        destruct (fillFurther _ rest) as [n' u'].
        simpl in Hl. apply IH; lia.
      * apply IH; lia.
Qed.

(** ** The loop of the simulator: an invariant rule *)

Lemma tryAddLoop_rule (I : list PackedBox -> nat -> Prop) (item : Item.t) :
  (forall boxes n i target,
     I boxes n ->
     bestFitBox item boxes = Some i ->
     nth_error boxes i = Some target ->
     accepts item target = true ->
     I (setNth i (addItem target item) boxes) (S n)) ->
  forall q boxes n,
    I boxes n ->
    I (snd (tryAddLoop item q boxes n)) (fst (tryAddLoop item q boxes n)).
Proof.
  intros Hstep. induction q as [|q IH]; intros boxes n HI; simpl; [exact HI|].
  destruct (bestFitBox item boxes) as [i|] eqn:Eb; [|exact HI].
  destruct (bestFitBox_accepts _ _ Eb) as (target & Hn & Ha).
  rewrite Hn. apply IH. eapply Hstep; eassumption.
Qed.

Lemma tryAdd_quantityAdded (item : Item.t) (q : nat) (boxes : list PackedBox) :
  quantityAdded (tryAddItemsToExistingBoxes item q boxes)
  = fst (tryAddLoop item q boxes 0%nat).
Proof.
  unfold tryAddItemsToExistingBoxes. destruct (tryAddLoop item q boxes 0%nat).
  reflexivity.
Qed.

Lemma tryAdd_newPackedBoxes (item : Item.t) (q : nat) (boxes : list PackedBox) :
  newPackedBoxes (tryAddItemsToExistingBoxes item q boxes)
  = snd (tryAddLoop item q boxes 0%nat).
Proof.
  unfold tryAddItemsToExistingBoxes. destruct (tryAddLoop item q boxes 0%nat).
  reflexivity.
Qed.

(** ** The invariant of packed boxes *)

Lemma phase1_invariant (sortedItems : list Item.t) (boxes : list Box.t)
    (box : PackedBox) :
  sortedItems <> [] ->
  phase1 sortedItems boxes = Some box -> packedInvariant box.
Proof.
  intros Hne. induction boxes as [|b boxes IH]; simpl; [discriminate|].
  destruct (allItemsFitInOneBox b sortedItems 0 0) as [[fv tw]|] eqn:E;
    [|exact IH].
  intros H. injection H as <-.
  destruct (allItemsFit_totals _ _ _ _ E) as [Hv Hw].
  destruct (@allItemsFit_bounds _ _ _ _ _ _ E Hne) as [Bv Bw].
  unfold packedInvariant. simpl. repeat split; try assumption; lra.
Qed.

Lemma newBox_invariant (item : Item.t) (box : Box.t) :
  dimsNonneg item -> volumeCoversDims box -> canHoldAlone item box = true ->
  packedInvariant
    (mkPacked box [item] (getItemVolume item) (Item.weight item)).
Proof.
  intros Hi Hb Hc. apply canHoldAlone_iff in Hc. destruct Hc as [Hax Hw].
  pose proof (fitsAxes_volume Hi Hb Hax).
  unfold packedInvariant. simpl. repeat split; try assumption; lra.
Qed.

Lemma phase2_invariant (sorted : list Box.t) (fuel : nat)
    (packed : list PackedBox) (unpacked : list Item.t) (console : list string) :
  Forall volumeCoversDims sorted ->
  Forall dimsNonneg unpacked -> Forall packedInvariant packed ->
  (List.length unpacked <= fuel)%nat ->
  Forall packedInvariant (fst (phase2 fuel sorted packed unpacked console)).
Proof.
  intros Hs Hu Hp Hlen.
  destruct (@phase2_rule sorted
              (fun packed unpacked _ =>
                 Forall packedInvariant packed /\ Forall dimsNonneg unpacked))
    with (fuel := fuel) (packed := packed) (unpacked := unpacked)
         (console := console)
    as (packed' & console' & -> & Hp' & _); auto.
  - intros pk cur rest _ i target [Hpk Hcr] _ Hn Ha.
    inversion Hcr; subst. split.
    + apply setNth_Forall; [exact Hpk|].
      apply fillFurther_invariant, addItem_invariant; [|exact Ha].
      eapply nth_error_Forall; eassumption.
    + apply fillFurther_unpacked_Forall. assumption.
  - intros pk cur rest _ nb [Hpk Hcr] _ Hf. simpl.
    inversion Hcr; subst.
    destruct (find_some _ _ Hf) as [Hin Hc]. split.
    + apply Forall_app. split; [exact Hpk|]. constructor; [|constructor].
      apply fillFurther_invariant, newBox_invariant; try assumption.
      rewrite Forall_forall in Hs. auto.
    + apply fillFurther_unpacked_Forall. assumption.
  - intros pk cur rest _ [Hpk Hcr] _ _. inversion Hcr; subst. split; assumption.
Qed.

Lemma packOptimal_invariant (items : list Item.t) (boxTypes : list Box.t) :
  Forall dimsNonneg items -> Forall volumeCoversDims boxTypes ->
  Forall packedInvariant (packOptimal items boxTypes).
Proof.
  intros Hi Hb. unfold packOptimal, packOptimalLog.
  destruct items as [|x items]; [constructor|].
  set (its := x :: items) in *.
  destruct (phase1 (sort_by byVolumeDesc its) (sort_by byVolumeAsc boxTypes))
    as [box|] eqn:E1.
  - simpl. constructor; [|constructor].
    eapply phase1_invariant; [|exact E1].
    intro Hn. apply sort_by_nil in Hn. discriminate.
  - apply phase2_invariant; auto using sort_by_Forall.
Qed.

Lemma tryAdd_invariant (item : Item.t) (q : nat) (boxes : list PackedBox) :
  Forall packedInvariant boxes ->
  Forall packedInvariant
    (newPackedBoxes (tryAddItemsToExistingBoxes item q boxes)).
Proof.
  intro Hb. rewrite tryAdd_newPackedBoxes.
  apply (@tryAddLoop_rule (fun boxes _ => Forall packedInvariant boxes));
    [|exact Hb].
  intros bs _ i target Hbs _ Hn Ha.
  apply setNth_Forall; [exact Hbs|].
  apply addItem_invariant; [|exact Ha].
  eapply nth_error_Forall; eassumption.
Qed.

(** C1.  For items with non-negative dimensions and a catalog whose box
    types declare a volume of at least length x width x height (the item
    and container types of section 3), every box
    returned by [packOptimal] satisfies the invariant of packed boxes
    (filled volume = sum of the item volumes, total weight = sum of the item
    weights, filled volume <= volume, total weight <= maximum weight); the
    simulator returns boxes that satisfy it whenever its input boxes do, in
    particular on the result of [packOptimal]. *)
Theorem packed_boxes_keep_invariant
    (items : list Item.t) (boxTypes : list Box.t)
    (item : Item.t) (q : nat) (existing : list PackedBox) :
  Forall dimsNonneg items -> Forall volumeCoversDims boxTypes ->
  Forall packedInvariant existing ->
  Forall packedInvariant (packOptimal items boxTypes) /\
  Forall packedInvariant
    (newPackedBoxes (tryAddItemsToExistingBoxes item q existing)) /\
  Forall packedInvariant
    (newPackedBoxes
       (tryAddItemsToExistingBoxes item q (packOptimal items boxTypes))).
Proof.
  intros Hi Hb He.
  pose proof (packOptimal_invariant Hi Hb) as Hp.
  repeat split; auto using tryAdd_invariant.
Qed.

Lemma packed_boxes_keep_invariant_witness :
  Forall packedInvariant (packOptimal [book; mug; keyboard] AMAZON_BOX_SIZES) /\
  Forall packedInvariant
    (newPackedBoxes
       (tryAddItemsToExistingBoxes mug 3
          [mkPacked smallBox [book] 1800 (8#10)])) /\
  Forall packedInvariant
    (newPackedBoxes
       (tryAddItemsToExistingBoxes mug 3
          (packOptimal [book; mug; keyboard] AMAZON_BOX_SIZES))).
Proof.
  apply packed_boxes_keep_invariant.
  - repeat constructor; simpl; discriminate.
  - repeat constructor; unfold volumeCoversDims; simpl; discriminate.
  - repeat constructor; simpl; first [reflexivity | discriminate].
Defined.

(** The condition on the declared volume cannot be dropped.  A new box of
    Phase 2 is opened on the axis limits and the weight alone (lines
    119-124); for a box type that declares less than length x width x
    height (which section 3 of the specification rules out), Phase 1
    rejects the type for the cube (1000 > 500), Phase 2 opens it
    nevertheless, and the box returned is filled beyond its declared
    volume. *)
Remark undersized_catalog_is_overfilled :
  packOptimal [cube] [cramped] = [mkPacked cramped [cube] 1000 1] /\
  ~ Forall packedInvariant (packOptimal [cube] [cramped]).
Proof.
  split; [vm_compute; reflexivity|].
  intro H. inversion H as [|box rest (_ & _ & Hv & _) _]; subst.
  vm_compute in Hv. apply Hv. reflexivity.
Qed.

(** ** Phase 1: the smallest single box *)

Lemma phase1_some (sortedItems : list Item.t) (boxes : list Box.t)
    (box : PackedBox) :
  phase1 sortedItems boxes = Some box ->
  exists before after,
    boxes = before ++ boxType box :: after /\
    Forall (fun b => allItemsFitInOneBox b sortedItems 0 0 = None) before /\
    allItemsFitInOneBox (boxType box) sortedItems 0 0
    = Some (filledVolume box, totalWeight box) /\
    items box = sortedItems.
Proof.
  induction boxes as [|b boxes IH]; simpl; [discriminate|].
  destruct (allItemsFitInOneBox b sortedItems 0 0) as [[fv tw]|] eqn:E.
  - intros H. injection H as <-. exists [], boxes. simpl.
    repeat split; [constructor | exact E].
  - intros H. destruct (IH H) as (bf & af & -> & Hbf & Hfit & Hit).
    exists (b :: bf), af. repeat split; try assumption.
    constructor; assumption.
Qed.





(** The second example of section 8: the keyboard is too long for the small
    and the medium box, so the three items go into one large box, the
    keyboard (the largest volume) first. *)
Example laptops_and_keyboard :
  map (fun box => (Box.name (boxType box), map Item.name (items box)))
    (packOptimal [laptop; laptop; keyboard] AMAZON_BOX_SIZES)
  = [("Large Box (L4)"%string,
      ["Keyboard"%string; "Laptop"%string; "Laptop"%string])].
Proof. vm_compute. reflexivity. Qed.

(** On valid items and box types with non-negative limits, Phase 1 accepts
    a box type exactly when the items fit together in the order-free
    sense. *)
Lemma allFitIn_fitTogether (items : list Item.t) (boxType : Box.t) :
  0 <= Box.volume boxType -> 0 <= Box.maxWeight boxType ->
  Forall validItem items ->
  (allFitIn items boxType <-> fitTogether items boxType).
Proof.
  intros Hv Hw Hi. unfold allFitIn, fitTogether.
  pose proof (sort_by_perm byVolumeDesc items) as Hp.
  rewrite allItemsFit_iff;
    [| apply sort_by_Forall; exact Hi | exact Hv | exact Hw].
  rewrite (itemsVolume_perm Hp), (itemsWeight_perm Hp), !Qplus_0_l.
  split; intros (Hf & Hr); (split; [|exact Hr]);
    (eapply Permutation_Forall; [|exact Hf]);
    [|apply Permutation_sym]; exact Hp.
Qed.

(** ** Which items are packed, which are dropped *)

Lemma filter_perm (A : Type) (f : A -> bool) (l l' : list A) :
  Permutation l l' -> Permutation (filter f l) (filter f l').
Proof.
  induction 1 as [|x l l' _ IH|x y l|l l' l'' _ IH1 _ IH2]; simpl.
  - constructor.
  - destruct (f x); [constructor|]; exact IH.
  - destruct (f x), (f y); try reflexivity. apply perm_swap.
  - etransitivity; eassumption.
Qed.

Lemma filter_all (A : Type) (f : A -> bool) (l : list A) :
  Forall (fun x => f x = true) l -> filter f l = l.
Proof.
  induction 1 as [|x l Hx _ IH]; simpl; [reflexivity|].
  rewrite Hx, IH. reflexivity.
Qed.

Lemma filter_none (A : Type) (f : A -> bool) (l : list A) :
  Forall (fun x => f x = true) l -> filter (fun x => negb (f x)) l = [].
Proof.
  induction 1 as [|x l Hx _ IH]; simpl; [reflexivity|].
  rewrite Hx. exact IH.
Qed.

Lemma holdable_perm (cat cat' : list Box.t) (item : Item.t) :
  Permutation cat cat' -> holdable cat item = holdable cat' item.
Proof.
  intro Hp. unfold holdable. apply eq_true_iff_eq.
  rewrite !existsb_exists.
  split; intros (b & Hin & Hb); exists b; (split; [|exact Hb]).
  - eapply Permutation_in; eassumption.
  - eapply Permutation_in; [apply Permutation_sym|]; eassumption.
Qed.

Lemma find_none_unholdable (cat : list Box.t) (item : Item.t) :
  find (canHoldAlone item) cat = None -> holdable cat item = false.
Proof.
  intro H. unfold holdable.
  destruct (existsb (canHoldAlone item) cat) eqn:E; [|reflexivity].
  apply existsb_exists in E. destruct E as (b & Hin & Hb).
  rewrite (find_none _ _ H _ Hin) in Hb. discriminate.
Qed.

Lemma find_some_holdable (cat : list Box.t) (item : Item.t) (b : Box.t) :
  find (canHoldAlone item) cat = Some b -> holdable cat item = true.
Proof.
  intro H. apply find_some in H. destruct H as [Hin Hb].
  unfold holdable. apply existsb_exists. exists b. split; assumption.
Qed.

(** A box with a non-negative load that accepts an item has a type that can
    hold the item alone. *)
Lemma accepts_holdable (cat : list Box.t) (item : Item.t) (box : PackedBox) :
  0 <= totalWeight box -> In (boxType box) cat ->
  accepts item box = true -> holdable cat item = true.
Proof.
  intros Htw Hin Ha. apply doesItemFit_iff in Ha. destruct Ha as (Hax & _ & Hw).
  unfold holdable. apply existsb_exists. exists (boxType box).
  split; [exact Hin|]. apply canHoldAlone_iff. split; [exact Hax | lra].
Qed.

Section Accounting.
Variable cat : list Box.t.

Lemma addItem_sound (box : PackedBox) (item : Item.t) :
  wellLoaded cat box -> weightNonneg item -> wellLoaded cat (addItem box item).
Proof.
  intros [Htw Hin] Hw. unfold wellLoaded, addItem, weightNonneg in *. simpl.
  split; [lra | exact Hin].
Qed.

Lemma fillFurther_accounting (box : PackedBox) (l : list Item.t) :
  wellLoaded cat box -> Forall weightNonneg l ->
  exists placed,
    items (fst (fillFurther box l)) = items box ++ placed /\
    Permutation (filter (holdable cat) l)
      (placed ++ filter (holdable cat) (snd (fillFurther box l))) /\
    filter (unholdable cat) (snd (fillFurther box l))
    = filter (unholdable cat) l /\
    wellLoaded cat (fst (fillFurther box l)).
Proof.
  intros Hs Hl. revert box Hs.
  induction Hl as [|x l Hx Hl IH]; intros box Hs; simpl.
  - exists []. rewrite app_nil_r.
    split; [reflexivity|]. split; [constructor|]. split; [reflexivity | exact Hs].
  - fold (accepts x box). destruct (accepts x box) eqn:Ea.
    + destruct (IH (addItem box x) (addItem_sound Hs Hx))
        as (placed & Hit & Hperm & Hun & Hsd).
      destruct Hs as [Htw Hin].
      pose proof (accepts_holdable cat x box Htw Hin Ea) as Hh.
      exists (x :: placed). unfold unholdable in *. rewrite Hh. simpl.
      split; [rewrite Hit; simpl; rewrite <- app_assoc; reflexivity|].
      split; [constructor; exact Hperm|].
      split; [exact Hun | exact Hsd].
    + destruct (IH box Hs) as (placed & Hit & Hperm & Hun & Hsd).
      destruct (fillFurther box l) as [b' u']. simpl in *.
      exists placed. unfold unholdable in *.
      split; [exact Hit|].
      destruct (holdable cat x); simpl.
      * split; [rewrite Hperm; apply Permutation_middle|].
        split; [exact Hun | exact Hsd].
      * split; [exact Hperm|].
        split; [rewrite Hun; reflexivity | exact Hsd].
Qed.

Lemma packedItems_setNth (boxes : list PackedBox) (i : nat)
    (target box' : PackedBox) (extra : list Item.t) :
  nth_error boxes i = Some target ->
  items box' = items target ++ extra ->
  Permutation (packedItems (setNth i box' boxes)) (packedItems boxes ++ extra).
Proof.
  revert i. induction boxes as [|b boxes IH]; intros [|i] Hn Hit;
    simpl in *; try discriminate.
  - injection Hn as ->. rewrite Hit.
    rewrite <- !app_assoc. apply Permutation_app_head, Permutation_app_comm.
  - rewrite (IH _ Hn Hit). rewrite app_assoc. reflexivity.
Qed.

Lemma packedItems_app (l1 l2 : list PackedBox) :
  packedItems (l1 ++ l2) = packedItems l1 ++ packedItems l2.
Proof. apply flat_map_app. Qed.

Lemma phase2_accounting (fuel : nat) (packed : list PackedBox)
    (unpacked : list Item.t) (console : list string) :
  Forall (wellLoaded cat) packed -> Forall weightNonneg unpacked ->
  (List.length unpacked <= fuel)%nat ->
  Permutation (packedItems (fst (phase2 fuel cat packed unpacked console)))
    (packedItems packed ++ filter (holdable cat) unpacked) /\
  snd (phase2 fuel cat packed unpacked console)
  = console ++ map warning (filter (unholdable cat) unpacked).
Proof.
  intros Hp Hu Hlen.
  destruct (@phase2_rule cat
              (fun pk un cs =>
                 Forall (wellLoaded cat) pk /\ Forall weightNonneg un /\
                 Permutation (packedItems pk ++ filter (holdable cat) un)
                   (packedItems packed ++ filter (holdable cat) unpacked) /\
                 cs ++ map warning (filter (unholdable cat) un)
                 = console ++ map warning (filter (unholdable cat) unpacked)))
    with (fuel := fuel) (packed := packed) (unpacked := unpacked)
         (console := console)
    as (packed' & console' & -> & _ & _ & Hperm & Hlog); auto.
  - (* the item goes into an opened box *)
    intros pk cur rest cs i target (Hpk & Hcr & Hperm & Hlog) _ Hn Ha.
    inversion Hcr as [|? ? Hcur Hrest]; subst.
    pose proof (nth_error_Forall _ Hpk Hn) as Hsd.
    pose proof (accepts_holdable cat cur target (proj1 Hsd) (proj2 Hsd) Ha) as Hh.
    destruct (fillFurther_accounting (addItem_sound Hsd Hcur) Hrest)
      as (placed & Hit & Hfp & Hfu & Hsd').
    simpl in Hperm, Hlog. unfold unholdable in Hlog at 1.
    rewrite Hh in Hperm, Hlog. simpl in Hlog.
    split; [apply setNth_Forall; assumption|].
    split; [apply fillFurther_unpacked_Forall; assumption|].
    split.
    + rewrite <- Hperm.
      rewrite (@packedItems_setNth pk i target _ (cur :: placed) Hn)
        by (rewrite Hit; simpl; rewrite <- app_assoc; reflexivity).
      rewrite <- app_assoc. apply Permutation_app_head. simpl.
      constructor. rewrite Hfp. reflexivity.
    + rewrite Hfu. exact Hlog.
  - (* a new box is opened *)
    intros pk cur rest cs nb (Hpk & Hcr & Hperm & Hlog) _ Hf. simpl.
    inversion Hcr as [|? ? Hcur Hrest]; subst.
    pose proof (find_some_holdable _ _ Hf) as Hh.
    destruct (find_some _ _ Hf) as [Hin _].
    assert (wellLoaded cat (mkPacked nb [cur] (getItemVolume cur) (Item.weight cur)))
      as Hsd by (split; simpl; assumption).
    destruct (fillFurther_accounting Hsd Hrest)
      as (placed & Hit & Hfp & Hfu & Hsd').
    simpl in Hperm, Hlog. unfold unholdable in Hlog at 1.
    rewrite Hh in Hperm, Hlog. simpl in Hlog.
    split; [apply Forall_app; split; [assumption | constructor; auto]|].
    split; [apply fillFurther_unpacked_Forall; assumption|].
    split.
    + rewrite <- Hperm. rewrite packedItems_app. simpl.
      rewrite app_nil_r, Hit. simpl. rewrite <- app_assoc.
      apply Permutation_app_head. simpl. constructor.
      rewrite Hfp. reflexivity.
    + rewrite Hfu. exact Hlog.
  - (* the item is dropped with a warning *)
    intros pk cur rest cs (Hpk & Hcr & Hperm & Hlog) _ Hf.
    inversion Hcr as [|? ? Hcur Hrest]; subst.
    pose proof (find_none_unholdable _ _ Hf) as Hh.
    simpl in Hperm, Hlog. unfold unholdable in Hlog at 1.
    rewrite Hh in Hperm, Hlog. simpl in Hlog.
    split; [assumption|]. split; [assumption|]. split; [exact Hperm|].
    rewrite <- app_assoc. exact Hlog.
  - simpl in Hperm, Hlog. rewrite app_nil_r in Hperm, Hlog.
    simpl. split; assumption.
Qed.

End Accounting.

Lemma allItemsFit_holdable (box : Box.t) (l : list Item.t) (fv tw : Q) :
  allItemsFitInOneBox box l fv tw <> None ->
  0 <= tw -> Forall weightNonneg l ->
  Forall (fun item => canHoldAlone item box = true) l.
Proof.
  intros H Htw Hl. revert fv tw H Htw.
  induction Hl as [|x l Hx Hl IH]; intros fv tw H Htw; [constructor|].
  simpl in H. destruct (doesItemFit x box fv tw) eqn:E; [|congruence].
  apply doesItemFit_iff in E. destruct E as (Hax & _ & Hw).
  unfold weightNonneg in Hx. constructor.
  - apply canHoldAlone_iff. split; [exact Hax | lra].
  - apply (IH _ _ H). lra.
Qed.

Lemma packOptimalLog_accounting (input : list Item.t) (boxTypes : list Box.t) :
  Forall weightNonneg input ->
  Permutation (packedItems (packOptimal input boxTypes))
    (filter (holdable boxTypes) input) /\
  snd (packOptimalLog input boxTypes)
  = map warning (filter (unholdable boxTypes) (sort_by byVolumeDesc input)).
Proof.
  intros Hw. unfold packOptimal, packOptimalLog.
  destruct input as [|x rest]; [split; [constructor | reflexivity]|].
  set (its := x :: rest) in *.
  set (sortedItems := sort_by byVolumeDesc its).
  set (sorted := sort_by byVolumeAsc boxTypes).
  assert (forall item, holdable sorted item = holdable boxTypes item) as Hh
    by (intro item; apply holdable_perm, sort_by_perm).
  assert (forall item, unholdable sorted item = unholdable boxTypes item) as Hu
    by (intro item; unfold unholdable; rewrite Hh; reflexivity).
  assert (Forall weightNonneg sortedItems) as Hws
    by (apply sort_by_Forall; exact Hw).
  destruct (phase1 sortedItems sorted) as [box|] eqn:E1.
  - destruct (phase1_some _ _ E1) as (bf & af & Hsplit & _ & Hsome & Hit).
    assert (Forall (fun item => holdable boxTypes item = true) sortedItems)
      as Hall.
    { assert (allItemsFitInOneBox (boxType box) sortedItems 0 0 <> None) as Hfit
        by (rewrite Hsome; discriminate).
      pose proof (allItemsFit_holdable _ _ Hfit (Qle_refl 0) Hws) as Hc.
      eapply Forall_impl; [|exact Hc]. intros item Hi. simpl in Hi.
      rewrite <- Hh. unfold holdable. apply existsb_exists.
      exists (boxType box). split; [|exact Hi].
      fold sorted in Hsplit. rewrite Hsplit. apply in_or_app. right. left.
      reflexivity. }
    unfold packedItems. cbn [fst snd flat_map]. split.
    + rewrite app_nil_r, Hit.
      rewrite <- (filter_all _ Hall) at 1.
      apply filter_perm, sort_by_perm.
    + unfold unholdable. rewrite (filter_none _ Hall). reflexivity.
  - destruct (@phase2_accounting sorted (List.length sortedItems) []
                sortedItems [] (Forall_nil _) Hws (le_n _)) as [Hperm Hlog].
    split.
    + rewrite Hperm. cbn [packedItems flat_map app].
      rewrite (filter_ext _ _ Hh). apply filter_perm, sort_by_perm.
    + rewrite Hlog. cbn [app]. rewrite (filter_ext _ _ Hu). reflexivity.
Qed.

(** C3.  For items with non-negative weights and any catalog: the items in
    the boxes returned by [packOptimal] are, counted with multiplicity,
    exactly the input items that some box type of the catalog can hold alone
    (axis limits and maximum weight); so an input item is missing from the
    result exactly when no box type can hold it alone, and every other item
    is packed exactly once.  Every item that no box type can hold is
    reported: the console receives one warning per such item, in
    descending-volume order, and nothing else. *)
Theorem items_packed_or_reported (input : list Item.t) (boxTypes : list Box.t) :
  Forall weightNonneg input ->
  Permutation (packedItems (packOptimal input boxTypes))
    (filter (holdable boxTypes) input) /\
  (forall item, In item input ->
     (~ In item (packedItems (packOptimal input boxTypes)) <->
      holdable boxTypes item = false)) /\
  snd (packOptimalLog input boxTypes)
  = map warning (filter (unholdable boxTypes) (sort_by byVolumeDesc input)).
Proof.
  intros Hw. destruct (packOptimalLog_accounting boxTypes Hw) as [Hperm Hlog].
  split; [exact Hperm|]. split; [|exact Hlog].
  intros item Hin. split.
  - intro Hnot. destruct (holdable boxTypes item) eqn:E; [|reflexivity].
    exfalso. apply Hnot.
    eapply Permutation_in; [apply Permutation_sym; exact Hperm|].
    apply filter_In. split; assumption.
  - intros Hf Hpacked.
    apply (Permutation_in _ Hperm) in Hpacked.
    apply filter_In in Hpacked. destruct Hpacked as [_ Ht]. congruence.
Qed.

Lemma items_packed_or_reported_witness :
  Permutation (packedItems (packOptimal [book; anvil; keyboard] AMAZON_BOX_SIZES))
    (filter (holdable AMAZON_BOX_SIZES) [book; anvil; keyboard]) /\
  (forall item, In item [book; anvil; keyboard] ->
     (~ In item (packedItems (packOptimal [book; anvil; keyboard] AMAZON_BOX_SIZES)) <->
      holdable AMAZON_BOX_SIZES item = false)) /\
  snd (packOptimalLog [book; anvil; keyboard] AMAZON_BOX_SIZES)
  = map warning (filter (unholdable AMAZON_BOX_SIZES)
                   (sort_by byVolumeDesc [book; anvil; keyboard])).
Proof.
  apply items_packed_or_reported.
  repeat constructor; unfold weightNonneg; simpl; discriminate.
Defined.

(** The 30 kg item of section 8: it is left out of the boxes and the console
    receives its warning. *)
Example anvil_is_reported :
  packedItems (packOptimal [book; anvil; keyboard] AMAZON_BOX_SIZES)
  = [keyboard; book] /\
  snd (packOptimalLog [book; anvil; keyboard] AMAZON_BOX_SIZES)
  = ["Optimal Packing: Item 'Anvil' cannot be packed into any available box."%string].
Proof. split; vm_compute; reflexivity. Qed.

(** ** The best-fit rule *)

Lemma dimsPositive_nonneg (item : Item.t) : dimsPositive item -> dimsNonneg item.
Proof.
  intros (Hl & Hw & Hh). repeat split; apply Qlt_le_weak; assumption.
Qed.

Lemma getItemVolume_pos (item : Item.t) :
  dimsPositive item -> 0 < getItemVolume item.
Proof.
  intros (Hl & Hw & Hh). unfold getItemVolume.
  apply Qmult_lt_0_compat; [apply Qmult_lt_0_compat|]; assumption.
Qed.

(** A box that accepts an item of positive volume on top of a non-negative
    filled volume has a positive volume, and the fill percentage after the
    addition is a positive number: the division is by a positive number,
    and the [-1] that the scan starts from is below it. *)
Lemma potentialNewFill_pos (item : Item.t) (box : PackedBox) :
  dimsPositive item -> filledNonneg box -> accepts item box = true ->
  0 < potentialNewFill item box.
Proof.
  intros Hi Hf Ha. pose proof (getItemVolume_pos Hi) as Hp.
  apply doesItemFit_iff in Ha. destruct Ha as (_ & Hv & _).
  unfold filledNonneg in Hf. unfold potentialNewFill.
  apply Qmult_lt_0_compat; [|reflexivity].
  apply Qlt_shift_div_l; lra.
Qed.

Section BestFit.
Variable item : Item.t.

Lemma isBestFit_lt (boxes : list PackedBox) (i : nat) :
  isBestFit item boxes i -> (i < List.length boxes)%nat.
Proof.
  intros (box & Hn & _). apply nth_error_Some. congruence.
Qed.

Lemma nth_error_snoc (pre : list PackedBox) (b : PackedBox) (j : nat)
    (other : PackedBox) :
  nth_error (pre ++ [b]) j = Some other ->
  (j < List.length pre)%nat /\ nth_error pre j = Some other \/
  j = List.length pre /\ other = b.
Proof.
  intro H. destruct (Nat.lt_ge_cases j (List.length pre)) as [Hlt | Hge].
  - left. split; [exact Hlt|]. rewrite nth_error_app1 in H; assumption.
  - right. rewrite nth_error_app2 in H by exact Hge.
    destruct (j - List.length pre)%nat as [|m] eqn:E; simpl in H.
    + split; [lia | congruence].
    + destruct m; discriminate.
Qed.

Lemma bestFitScan_spec (boxes pre : list PackedBox) (best : option nat) (hi : Q) :
  (forall box, In box boxes -> accepts item box = true ->
               -1 < potentialNewFill item box) ->
  scannedSoFar item pre best hi ->
  match bestFitScan item boxes (List.length pre) best hi with
  | Some i => isBestFit item (pre ++ boxes) i
  | None => forall box, In box (pre ++ boxes) -> accepts item box = false
  end.
Proof.
  revert pre best hi.
  induction boxes as [|b boxes IH]; intros pre best hi Hfill Hsc.
  - simpl. rewrite app_nil_r. destruct best as [i|]; apply Hsc.
  - assert (forall best' hi', scannedSoFar item (pre ++ [b]) best' hi' ->
              match bestFitScan item boxes (S (List.length pre)) best' hi' with
              | Some i => isBestFit item (pre ++ b :: boxes) i
              | None => forall box, In box (pre ++ b :: boxes) ->
                                    accepts item box = false
              end) as Hrec.
    { intros best' hi' Hsc'.
      specialize (IH (pre ++ [b]) best' hi').
      rewrite length_app, Nat.add_1_r, <- app_assoc in IH. simpl in IH.
      apply IH; [|exact Hsc'].
      intros box Hin. apply Hfill. right. exact Hin. }
    simpl. fold (accepts item b).
    destruct (accepts item b) eqn:Ea.
    + destruct (Qgt_bool (potentialNewFill item b) hi) eqn:Eg.
      * (* the new box is strictly better: it becomes the best *)
        apply Qgt_bool_iff in Eg. apply Hrec. split.
        -- exists b. split; [rewrite nth_error_app2, Nat.sub_diag by lia; reflexivity|].
           split; [exact Ea|].
           intros j other Hj Ha.
           destruct (nth_error_snoc _ _ _ Hj) as [[Hlt Hpre] | [-> ->]].
           ++ destruct best as [i|].
              ** destruct Hsc as [(bx & Hbx & _ & Hmax) (bx' & Hbx' & ->)].
                 assert (bx' = bx) as -> by congruence.
                 destruct (Hmax _ _ Hpre Ha) as [Hle _].
                 split; [|intros _]; lra.
              ** destruct Hsc as [_ Hrej].
                 rewrite (Hrej other (nth_error_In _ _ Hpre)) in Ha. discriminate.
           ++ split; [apply Qle_refl | lia].
        -- exists b. split; [|reflexivity].
           rewrite nth_error_app2, Nat.sub_diag by lia. reflexivity.
      * (* not strictly better: the best stays *)
        apply Hrec.
        assert (potentialNewFill item b <= hi) as Hle.
        { destruct (Qle_bool (potentialNewFill item b) hi) eqn:El.
          - apply Qle_bool_iff. exact El.
          - unfold Qgt_bool in Eg. rewrite El in Eg. discriminate. }
        destruct best as [i|].
        -- destruct Hsc as [Hbest (bx' & Hbx' & ->)].
           pose proof (isBestFit_lt Hbest) as Hi.
           destruct Hbest as (bx & Hbx & Habx & Hmax).
           assert (bx' = bx) as -> by congruence.
           split.
           ++ exists bx. split; [rewrite nth_error_app1; assumption|].
              split; [exact Habx|].
              intros j other Hj Ha.
              destruct (nth_error_snoc _ _ _ Hj) as [[Hlt Hpre] | [-> ->]].
              ** apply (Hmax _ _ Hpre Ha).
              ** split; [exact Hle | lia].
           ++ exists bx. split; [rewrite nth_error_app1; assumption | reflexivity].
        -- destruct Hsc as [-> _].
           pose proof (Hfill b (or_introl eq_refl) Ea). lra.
    + (* the box does not accept the item *)
      apply Hrec. destruct best as [i|].
      * destruct Hsc as [Hbest (bx' & Hbx' & ->)].
        pose proof (isBestFit_lt Hbest) as Hi.
        destruct Hbest as (bx & Hbx & Habx & Hmax).
        assert (bx' = bx) as -> by congruence.
        split.
        -- exists bx. split; [rewrite nth_error_app1; assumption|].
           split; [exact Habx|].
           intros j other Hj Ha.
           destruct (nth_error_snoc _ _ _ Hj) as [[Hlt Hpre] | [-> ->]].
           ++ apply (Hmax _ _ Hpre Ha).
           ++ congruence.
        -- exists bx. split; [rewrite nth_error_app1; assumption | reflexivity].
      * destruct Hsc as [-> Hrej]. split; [reflexivity|].
        intros box Hin. apply in_app_or in Hin.
        destruct Hin as [Hin | [<- | []]]; [apply Hrej; exact Hin | exact Ea].
Qed.

Lemma bestFitBox_spec (boxes : list PackedBox) :
  dimsPositive item -> Forall filledNonneg boxes ->
  match bestFitBox item boxes with
  | Some i => isBestFit item boxes i
  | None => forall box, In box boxes -> accepts item box = false
  end.
Proof.
  intros Hi Hb. unfold bestFitBox.
  apply (@bestFitScan_spec boxes [] None (-1)).
  - intros box Hin Ha. rewrite Forall_forall in Hb.
    pose proof (potentialNewFill_pos Hi (Hb _ Hin) Ha). lra.
  - split; [reflexivity|]. intros box [].
Qed.

End BestFit.

(** ** The consolidation simulator *)


Lemma tryAddLoop_count (item : Item.t) (q : nat) (boxes : list PackedBox) (n : nat) :
  tryAddLoop item q boxes n
  = ((n + fst (tryAddLoop item q boxes 0))%nat, snd (tryAddLoop item q boxes 0)).
Proof.
  revert boxes n. induction q as [|q IH]; intros boxes n; simpl.
  - rewrite Nat.add_0_r. reflexivity.
  - destruct (bestFitBox item boxes) as [i|]; simpl;
      [|rewrite Nat.add_0_r; reflexivity].
    destruct (nth_error boxes i) as [target|]; simpl;
      [|rewrite Nat.add_0_r; reflexivity].
    rewrite (IH _ (S n)), (IH _ 1%nat). simpl.
    rewrite Nat.add_succ_r. reflexivity.
Qed.



Lemma tryAddLoop_bound (item : Item.t) (q : nat) (boxes : list PackedBox) :
  (fst (tryAddLoop item q boxes 0) <= q)%nat.
Proof.
  revert boxes. induction q as [|q IH]; intros boxes; simpl; [lia|].
  destruct (bestFitBox item boxes) as [i|]; simpl; [|lia].
  destruct (nth_error boxes i) as [target|]; simpl; [|lia].
  rewrite tryAddLoop_count. simpl.
  specialize (IH (setNth i (addItem target item) boxes)). lia.
Qed.




(** Forty mugs are offered to the large box that holds a book and a
    keyboard: twenty-five go in, the twenty-sixth would exceed the
    volume. *)
Example mugs_into_the_large_box :
  quantityAdded
    (tryAddItemsToExistingBoxes mug 40
       (packOptimal [book; keyboard] AMAZON_BOX_SIZES)) = 25%nat.
Proof. vm_compute. reflexivity. Qed.

(** ** Packaging efficiency *)

Lemma fold_left_sum (A : Type) (f : A -> Q) (l : list A) (a : Q) :
  fold_left (fun sum x => sum + f x) l a
  == a + fold_right (fun x s => f x + s) 0 l.
Proof.
  revert a. induction l as [|x l IH]; intros a; simpl; [lra|].
  rewrite IH. lra.
Qed.

Lemma totalPackedVolume_spec (boxes : list PackedBox) :
  totalPackedVolume boxes == totalFilled boxes.
Proof.
  unfold totalPackedVolume, totalFilled.
  rewrite (fold_left_sum filledVolume). lra.
Qed.

Lemma totalBoxesVolume_spec (boxes : list PackedBox) :
  totalBoxesVolume boxes == totalCapacity boxes.
Proof.
  unfold totalBoxesVolume, totalCapacity.
  rewrite (fold_left_sum (fun box => Box.volume (boxType box))). lra.
Qed.

Lemma totalFilled_bounds (boxes : list PackedBox) :
  Forall loaded boxes ->
  Forall (fun box => filledVolume box <= Box.volume (boxType box)) boxes ->
  0 <= totalFilled boxes <= totalCapacity boxes /\
  (boxes <> [] -> 0 < totalCapacity boxes).
Proof.
  intros Hf Hb. induction Hf as [|b boxes Hn Hf IH]; simpl.
  - split; [lra | congruence].
  - unfold loaded in Hn. inversion Hb; subst.
    destruct (IH H2) as [[H0 H1'] _]. split; [lra | intros _; lra].
Qed.

(** The score of [calculateMetrics] on boxes that hold something within
    their volume. *)
Lemma efficiency_spec_range (boxes : list PackedBox) (flatItemList : list Item.t) :
  Forall loaded boxes ->
  Forall (fun box => filledVolume box <= Box.volume (boxType box)) boxes ->
  packagingEfficiencyScore (calculateMetrics boxes flatItemList)
  == efficiencySpec boxes /\
  0 <= packagingEfficiencyScore (calculateMetrics boxes flatItemList) <= 100.
Proof.
  intros Hf Hb.
  destruct (totalFilled_bounds Hf Hb) as [[H0 H1] Hpos].
  unfold calculateMetrics. simpl.
  pose proof (totalPackedVolume_spec boxes) as Ep.
  pose proof (totalBoxesVolume_spec boxes) as Ec.
  destruct (Qgt_bool (totalBoxesVolume boxes) 0) eqn:Eg.
  - apply Qgt_bool_iff in Eg.
    assert (boxes <> []) as Hne.
    { intros ->. vm_compute in Eg. discriminate. }
    split.
    + unfold efficiencySpec. destruct boxes as [|b boxes]; [congruence|].
      rewrite Ep, Ec. reflexivity.
    + rewrite Ep, Ec. specialize (Hpos Hne).
      split.
      * apply Qmult_le_0_compat; [|discriminate].
        apply Qle_shift_div_l; [exact Hpos | lra].
      * setoid_replace 100 with (1 * 100) at 2 by reflexivity.
        apply Qmult_le_compat_r; [|discriminate].
        apply Qle_shift_div_r; [exact Hpos | lra].
  - split; [|split; [apply Qle_refl | discriminate]].
    unfold efficiencySpec. destruct boxes as [|b boxes]; [reflexivity|].
    exfalso.
    assert (0 < totalCapacity (b :: boxes)) as Hc by (apply Hpos; discriminate).
    assert (Qgt_bool (totalBoxesVolume (b :: boxes)) 0 = true) as Eg'
      by (apply Qgt_bool_iff; rewrite Ec; exact Hc).
    congruence.
Qed.

Lemma itemsVolume_pos (l : list Item.t) :
  l <> [] -> Forall dimsPositive l -> 0 < itemsVolume l.
Proof.
  intros Hne Hl. destruct Hl as [|x l Hx Hl]; [congruence|]. simpl.
  pose proof (getItemVolume_pos Hx).
  assert (0 <= itemsVolume l).
  { apply itemsVolume_nonneg. eapply Forall_impl; [|exact Hl].
    apply dimsPositive_nonneg. }
  lra.
Qed.

Lemma addItem_loaded (box : PackedBox) (item : Item.t) :
  dimsPositive item -> loaded box -> loaded (addItem box item).
Proof.
  intros Hi Hf. pose proof (getItemVolume_pos Hi).
  unfold loaded in *. simpl. lra.
Qed.

Lemma fillFurther_loaded (box : PackedBox) (l : list Item.t) :
  Forall dimsPositive l -> loaded box -> loaded (fst (fillFurther box l)).
Proof.
  intros Hl. revert box.
  induction Hl as [|x l Hx Hl IH]; intros box Hb; simpl; [exact Hb|].
  destruct (doesItemFit _ _ _ _).
  - apply IH. apply addItem_loaded; assumption.
  - specialize (IH box Hb). destruct (fillFurther box l). exact IH.
Qed.

(** Every box that Phase 2 opens holds an item of positive volume. *)
Lemma phase2_loaded (sorted : list Box.t) (fuel : nat)
    (packed : list PackedBox) (unpacked : list Item.t) (console : list string) :
  Forall dimsPositive unpacked -> Forall loaded packed ->
  (List.length unpacked <= fuel)%nat ->
  Forall loaded (fst (phase2 fuel sorted packed unpacked console)).
Proof.
  intros Hu Hp Hlen.
  destruct (@phase2_rule sorted
              (fun packed unpacked _ =>
                 Forall loaded packed /\ Forall dimsPositive unpacked))
    with (fuel := fuel) (packed := packed) (unpacked := unpacked)
         (console := console)
    as (packed' & console' & -> & Hp' & _); auto.
  - intros pk cur rest _ i target [Hpk Hcr] _ Hn Ha.
    inversion Hcr; subst. split.
    + apply setNth_Forall; [exact Hpk|].
      apply fillFurther_loaded; [assumption|].
      apply addItem_loaded; [assumption|].
      eapply nth_error_Forall; eassumption.
    + apply fillFurther_unpacked_Forall. assumption.
  - intros pk cur rest _ nb [Hpk Hcr] _ Hf. simpl.
    inversion Hcr; subst. split.
    + apply Forall_app. split; [exact Hpk|]. constructor; [|constructor].
      apply fillFurther_loaded; [assumption|].
      unfold loaded. simpl. apply getItemVolume_pos. assumption.
    + apply fillFurther_unpacked_Forall. assumption.
  - intros pk cur rest _ [Hpk Hcr] _ _. inversion Hcr; subst. split; assumption.
Qed.

Lemma packOptimal_loaded (input : list Item.t) (boxTypes : list Box.t) :
  Forall dimsPositive input -> Forall loaded (packOptimal input boxTypes).
Proof.
  intros Hi. unfold packOptimal, packOptimalLog.
  destruct input as [|x rest]; [constructor|].
  set (its := x :: rest) in *.
  destruct (phase1 (sort_by byVolumeDesc its) (sort_by byVolumeAsc boxTypes))
    as [box|] eqn:E1.
  - cbn [fst]. constructor; [|constructor].
    destruct (phase1_some _ _ E1) as (bf & af & Hsplit & _ & Hsome & Hit).
    destruct (allItemsFit_totals _ _ _ _ Hsome) as [Hv _].
    unfold loaded. rewrite Hv, Qplus_0_l.
    apply itemsVolume_pos; [|apply sort_by_Forall; exact Hi].
    intro Hn. apply sort_by_nil in Hn. discriminate.
  - apply phase2_loaded; auto using sort_by_Forall.
Qed.

(** C5.  For items with positive dimensions and a catalog whose box types
    declare a volume of at least length x width x height, the packaging
    efficiency that [calculateMetrics] reports for the result of
    [packOptimal] is total filled volume / total container volume x 100,
    and 0 when there are no boxes; it lies between 0 and 100. *)
Theorem efficiency_of_packing_in_range
    (input : list Item.t) (boxTypes : list Box.t) :
  Forall dimsPositive input ->
  Forall volumeCoversDims boxTypes ->
  let m := calculateMetrics (packOptimal input boxTypes) input in
  packagingEfficiencyScore m == efficiencySpec (packOptimal input boxTypes) /\
  0 <= packagingEfficiencyScore m <= 100.
Proof.
  intros Hi Hc m. subst m.
  apply efficiency_spec_range.
  - apply packOptimal_loaded. exact Hi.
  - assert (Forall dimsNonneg input) as Hn
      by (eapply Forall_impl; [|exact Hi]; apply dimsPositive_nonneg).
    eapply Forall_impl; [|apply packOptimal_invariant; eassumption].
    intros box (_ & _ & Hle & _). exact Hle.
Qed.

Lemma efficiency_of_packing_in_range_witness :
  let m := calculateMetrics (packOptimal [book; mug] AMAZON_BOX_SIZES) [book; mug] in
  packagingEfficiencyScore m
  == efficiencySpec (packOptimal [book; mug] AMAZON_BOX_SIZES) /\
  0 <= packagingEfficiencyScore m <= 100.
Proof.
  apply efficiency_of_packing_in_range.
  - repeat constructor.
  - repeat constructor; unfold volumeCoversDims; simpl; discriminate.
Defined.

(** The example of section 8: a book and a mug share one small box, filled
    to 48 percent. *)
Example book_and_mug_efficiency :
  map (fun box => Box.name (boxType box)) (packOptimal [book; mug] AMAZON_BOX_SIZES)
  = ["Small Box (S3)"%string] /\
  packagingEfficiencyScore
    (calculateMetrics (packOptimal [book; mug] AMAZON_BOX_SIZES) [book; mug])
  == 48.
Proof. split; vm_compute; reflexivity. Qed.

(** ** Suggestions *)

Lemma getBulkOrderSuggestions_flat_map (currentFlatItems : list Item.t)
    (saved : list (string * SavedItem)) (boxTypes : list Box.t) :
  getBulkOrderSuggestions currentFlatItems saved boxTypes
  = flat_map
      (fun entry =>
         suggestionsFor boxTypes currentFlatItems
           (packOptimal currentFlatItems boxTypes)
           (calculateMetrics (packOptimal currentFlatItems boxTypes)
              currentFlatItems)
           (snd entry))
      saved.
Proof. destruct saved; reflexivity. Qed.



(** A cart of a book and a mug, packed in one small box: two of the three
    saved mugs fold into it (efficiency up by 36 points, 0.15 kg of carbon
    saved); the keyboard and the anvil are rejected. *)
Example suggestions_for_sample_cart :
  getBulkOrderSuggestions [book; mug] sampleSaved AMAZON_BOX_SIZES
  = flat_map
      (fun entry =>
         suggestionsFor AMAZON_BOX_SIZES [book; mug]
           (packOptimal [book; mug] AMAZON_BOX_SIZES)
           (calculateMetrics (packOptimal [book; mug] AMAZON_BOX_SIZES)
              [book; mug])
           (snd entry))
      sampleSaved /\
  map (fun s => match s with
                | suggestion i n _ e c _ _ =>
                    (Item.name (savedItem i), n, Qred e, Qred c)
                | tooBig i _ => (Item.name (savedItem i), 0%nat, 0, 0)
                end)
    (getBulkOrderSuggestions [book; mug] sampleSaved AMAZON_BOX_SIZES)
  = [ ("Coffee Mug"%string, 2%nat, 36, 3#20);
      ("Keyboard"%string, 0%nat, 0, 0);
      ("Anvil"%string, 0%nat, 0, 0) ].
Proof. split; [reflexivity | vm_compute; reflexivity]. Qed.

(** ** Carbon saved by consolidation *)

Lemma co2Impact_spec (boxes : list PackedBox) :
  co2Impact boxes == actualCarbon boxes.
Proof.
  unfold co2Impact.
  assert (forall a,
            fold_left
              (fun sum box =>
                 sum + Box.baseCO2 (boxType box)
                 + totalWeight box * Box.perKgCO2 (boxType box)) boxes a
            == a + actualCarbon boxes) as H.
  { induction boxes as [|b boxes IH]; intros a; simpl; [lra|].
    rewrite IH. lra. }
  rewrite H. lra.
Qed.

Lemma individualShipmentCO2_spec (flatItemList : list Item.t) :
  individualShipmentCO2 flatItemList == baselineCarbon flatItemList.
Proof.
  unfold individualShipmentCO2, individualShipmentCO2In.
  assert (forall a,
            fold_left
              (fun sum item =>
                 match find (canHoldAlone item)
                         (sort_by byVolumeAsc AMAZON_BOX_SIZES) with
                 | Some suitableBox =>
                     sum + Box.baseCO2 suitableBox
                     + Item.weight item * Box.perKgCO2 suitableBox
                 | None => sum
                 end) flatItemList a
            == a + baselineCarbon flatItemList) as H.
  { unfold baselineCarbon.
    induction flatItemList as [|x l IH]; intros a; cbn [fold_left fold_right];
      [lra|].
    rewrite IH. unfold carbonAlone, carbonAloneIn.
    destruct (find (canHoldAlone x) (sort_by byVolumeAsc AMAZON_BOX_SIZES));
      lra. }
  rewrite H. lra.
Qed.

(** The lookup [sort(...).find(...)] returns a smallest type able to hold
    the item alone, and nothing only when no type can. *)
Lemma find_smallest_holder (catalog : list Box.t) (item : Item.t) :
  match find (canHoldAlone item) (sort_by byVolumeAsc catalog) with
  | Some b => isSmallestHolder catalog item b
  | None => forall b, In b catalog -> canHoldAlone item b = false
  end.
Proof.
  destruct (find (canHoldAlone item) (sort_by byVolumeAsc catalog)) as [b|] eqn:E.
  - pose proof (sortedBoxes_asc catalog) as Hs.
    revert E Hs. generalize (sort_by_In byVolumeAsc catalog).
    generalize (sort_by byVolumeAsc catalog) as sorted.
    intros sorted Hin E Hs.
    assert (In b sorted /\ canHoldAlone item b = true /\
            forall b', In b' sorted -> canHoldAlone item b' = true ->
                       Box.volume b <= Box.volume b') as (H1 & H2 & H3).
    { clear Hin. induction sorted as [|c sorted IH]; simpl in E; [discriminate|].
      inversion Hs as [|? ? Hs' Hc]; subst.
      destruct (canHoldAlone item c) eqn:Ec.
      - injection E as <-. split; [left; reflexivity|]. split; [exact Ec|].
        intros b' [<- | Hb'] _; [apply Qle_refl|].
        rewrite Forall_forall in Hc. auto.
      - destruct (IH E Hs') as (H1 & H2 & H3).
        split; [right; exact H1|]. split; [exact H2|].
        intros b' [<- | Hb'] Hh; [congruence | auto]. }
    split; [apply Hin; exact H1|]. split; [exact H2|].
    intros b' Hb' Hh. apply H3; [apply Hin; exact Hb' | exact Hh].
  - intros b Hb. apply (find_none _ _ E). apply sort_by_In. exact Hb.
Qed.

(** C7.  The carbon saved that [calculateMetrics] reports is the baseline
    carbon minus the actual carbon impact, with nothing clamped: the
    baseline is the sum over the items of the fixed plus per-kilogram cost
    of a smallest type of [AMAZON_BOX_SIZES] able to hold the item alone (0
    for an item no type holds), the impact is the sum over the boxes of
    fixed cost plus total weight times per-kilogram cost; and there is an
    input, a book shipped in an extra-large box, whose reported value is
    negative. *)
Theorem carbon_saved_is_unclamped_difference :
  (forall (boxes : list PackedBox) (flatItemList : list Item.t),
     co2SavedByConsolidation (calculateMetrics boxes flatItemList)
     == baselineCarbon flatItemList - actualCarbon boxes /\
     optimalCO2Impact (calculateMetrics boxes flatItemList)
     == actualCarbon boxes) /\
  (forall item : Item.t,
     (exists b, isSmallestHolder AMAZON_BOX_SIZES item b /\
                carbonAlone item = carbonAloneIn item b) \/
     (holdable AMAZON_BOX_SIZES item = false /\ carbonAlone item = 0)) /\
  co2SavedByConsolidation
    (calculateMetrics (packOptimal [book] [xlargeBox]) [book]) < 0.
Proof.
  split; [|split].
  - intros boxes l. unfold calculateMetrics. simpl.
    rewrite co2Impact_spec, individualShipmentCO2_spec.
    split; reflexivity.
  - intros item. unfold carbonAlone.
    pose proof (find_smallest_holder AMAZON_BOX_SIZES item) as H.
    destruct (find (canHoldAlone item) (sort_by byVolumeAsc AMAZON_BOX_SIZES))
      as [b|] eqn:E.
    + left. exists b. split; [exact H | reflexivity].
    + right. split; [|reflexivity].
      apply find_none_unholdable in E.
      rewrite <- E. apply holdable_perm, Permutation_sym, sort_by_perm.
  - vm_compute. reflexivity.
Qed.

(** ** The store: reading, writing, and what a write leaves alone *)

Lemma nth_error_setNth_same (A : Type) (l : list A) (i : nat) (x : A) :
  (i < List.length l)%nat -> nth_error (setNth i x l) i = Some x.
Proof.
  revert i. induction l as [|y l IH]; intros [|i] H; simpl in *;
    try lia; [reflexivity|].
  apply IH. lia.
Qed.

Lemma nth_error_setNth_other (A : Type) (l : list A) (i j : nat) (x : A) :
  i <> j -> nth_error (setNth i x l) j = nth_error l j.
Proof.
  revert i j. induction l as [|y l IH]; intros [|i] [|j] H; simpl;
    try reflexivity; try lia.
  apply IH. lia.
Qed.

Lemma nth_error_lt (A : Type) (l : list A) (i : nat) (x : A) :
  nth_error l i = Some x -> (i < List.length l)%nat.
Proof. intro H. apply nth_error_Some. congruence. Qed.

Lemma nth_error_snoc_new (A : Type) (l : list A) (x : A) :
  nth_error (l ++ [x]) (List.length l) = Some x.
Proof. rewrite nth_error_app2, Nat.sub_diag by lia. reflexivity. Qed.

Lemma nth_error_snoc_old (A : Type) (l : list A) (x y : A) (i : nat) :
  nth_error l i = Some y -> nth_error (l ++ [x]) i = Some y.
Proof.
  intro H. rewrite nth_error_app1; [exact H|]. eapply nth_error_lt; eassumption.
Qed.

Lemma modifies_refl (W : list Heap.loc) (h : Heap.heap) : Heap.modifies W h h.
Proof. split; [lia | reflexivity]. Qed.

Lemma modifies_trans (W1 W2 W : list Heap.loc) (h h1 h2 : Heap.heap) :
  Heap.modifies W1 h h1 -> Heap.modifies W2 h1 h2 ->
  incl W1 W -> incl W2 W ->
  Heap.modifies W h h2.
Proof.
  intros [L1 H1] [L2 H2] I1 I2. split; [lia|].
  intros l Hl Hn. rewrite H2, H1; auto; lia.
Qed.

Lemma modifies_alloc (W : list Heap.loc) (h : Heap.heap) (c : Heap.cell) :
  Heap.modifies W h (h ++ [c]).
Proof.
  split; [rewrite length_app; simpl; lia|].
  intros l Hl _. apply nth_error_app1. exact Hl.
Qed.

Lemma modifies_store (W : list Heap.loc) (h : Heap.heap) (l : Heap.loc)
    (c : Heap.cell) :
  In l W -> Heap.modifies W h (setNth l c h).
Proof.
  intro Hin. split; [rewrite setNth_length; lia|].
  intros l' _ Hn. apply nth_error_setNth_other.
  intros ->. exact (Hn Hin).
Qed.

Lemma modifies_keeps (W : list Heap.loc) (h h' : Heap.heap) (l : Heap.loc)
    (c : Heap.cell) :
  Heap.modifies W h h' -> nth_error h l = Some c -> ~ In l W ->
  nth_error h' l = Some c.
Proof.
  intros [_ H] Hc Hn. rewrite H; [exact Hc | | exact Hn].
  eapply nth_error_lt; eassumption.
Qed.

Lemma extends_refl (h : Heap.heap) : Heap.extends h h.
Proof. exists []. rewrite app_nil_r. reflexivity. Qed.

Lemma extends_length (h h' : Heap.heap) :
  Heap.extends h h' -> (List.length h <= List.length h')%nat.
Proof. intros [fresh ->]. rewrite length_app. lia. Qed.

Lemma extends_keeps (h h' : Heap.heap) (l : Heap.loc) (c : Heap.cell) :
  Heap.extends h h' -> nth_error h l = Some c -> nth_error h' l = Some c.
Proof.
  intros [fresh ->] H. rewrite nth_error_app1; [exact H|].
  eapply nth_error_lt; eassumption.
Qed.

(** A run that only writes to objects that did not exist in [h0] leaves
    [h0] as it is. *)
Lemma extends_modifies (W : list Heap.loc) (h0 h h' : Heap.heap) :
  Heap.extends h0 h -> Heap.modifies W h h' ->
  Forall (fun l => (List.length h0 <= l)%nat) W ->
  Heap.extends h0 h'.
Proof.
  intros Hext [Hlen Hsame] HW.
  pose proof (extends_length Hext) as Hl0.
  exists (skipn (List.length h0) h').
  rewrite <- (firstn_skipn (List.length h0) h') at 1. f_equal.
  apply nth_error_ext. intro i.
  destruct (Nat.lt_ge_cases i (List.length h0)) as [Hi | Hi].
  - rewrite nth_error_firstn.
    destruct (Nat.ltb_spec i (List.length h0)) as [_ | Hge]; [|lia].
    rewrite Hsame; [| lia |].
    + destruct Hext as [fresh ->]. apply nth_error_app1. exact Hi.
    + intro Hin. rewrite Forall_forall in HW. specialize (HW _ Hin). lia.
  - rewrite nth_error_firstn.
    destruct (Nat.ltb_spec i (List.length h0)) as [Hlt | _]; [lia|].
    symmetry. apply nth_error_None. exact Hi.
Qed.

(** ** Running the operations of the store *)

Lemma run_bind (A B : Type) (m : Heap.M A) (k : A -> Heap.M B)
    (h h1 : Heap.heap) (a : A) :
  m h = Some (a, h1) -> Heap.bind m k h = k a h1.
Proof. unfold Heap.bind. intros ->. reflexivity. Qed.

Lemma loadItems_at (h : Heap.heap) (l : Heap.loc) (its : list Item.t) :
  nth_error h l = Some (Heap.ItemArray its) ->
  Heap.loadItems l h = Some (its, h).
Proof.
  intro H. unfold Heap.loadItems, Heap.bind, Heap.load. rewrite H. reflexivity.
Qed.

Lemma loadTypes_at (h : Heap.heap) (l : Heap.loc) (ts : list Box.t) :
  nth_error h l = Some (Heap.TypeArray ts) ->
  Heap.loadTypes l h = Some (ts, h).
Proof.
  intro H. unfold Heap.loadTypes, Heap.bind, Heap.load. rewrite H. reflexivity.
Qed.

Lemma loadBoxes_at (h : Heap.heap) (l : Heap.loc) (bs : list Heap.loc) :
  nth_error h l = Some (Heap.BoxArray bs) ->
  Heap.loadBoxes l h = Some (bs, h).
Proof.
  intro H. unfold Heap.loadBoxes, Heap.bind, Heap.load. rewrite H. reflexivity.
Qed.

Lemma loadObject_at (h : Heap.heap) (l : Heap.loc) (o : Heap.BoxObject) :
  nth_error h l = Some (Heap.BoxObj o) ->
  Heap.loadObject l h = Some (o, h).
Proof.
  intro H. unfold Heap.loadObject, Heap.bind, Heap.load. rewrite H. reflexivity.
Qed.

Lemma store_at (h : Heap.heap) (l : Heap.loc) (c c' : Heap.cell) :
  nth_error h l = Some c' ->
  Heap.store l c h = Some (tt, setNth l c h).
Proof.
  intro H. unfold Heap.store.
  apply nth_error_lt in H. apply Nat.ltb_lt in H. rewrite H. reflexivity.
Qed.

(** One step of a run: the first operation of a sequence is a read whose
    cell is known, or a write to a cell that exists. *)
Ltac run_step :=
  first
    [ erewrite run_bind by (eapply loadItems_at; eassumption)
    | erewrite run_bind by (eapply loadTypes_at; eassumption)
    | erewrite run_bind by (eapply loadBoxes_at; eassumption)
    | erewrite run_bind by (eapply loadObject_at; eassumption)
    | erewrite run_bind by (eapply store_at; eassumption) ].

Lemma loadPacked_at (h : Heap.heap) (box itemsAt : Heap.loc) (v : PackedBox) :
  Heap.holdsBox h box itemsAt v -> Heap.loadPacked box h = Some (v, h).
Proof.
  intros [Hb Hi]. unfold Heap.loadPacked.
  run_step. simpl. run_step. destruct v. reflexivity.
Qed.

Lemma mapM_loadPacked_at (h : Heap.heap) (cells : list (Heap.loc * Heap.loc))
    (vs : list PackedBox) :
  Heap.represents h cells vs ->
  Heap.mapM Heap.loadPacked (map fst cells) h = Some (vs, h).
Proof.
  induction 1 as [|p v cells vs Hp _ IH]; simpl; [reflexivity|].
  erewrite run_bind by (eapply loadPacked_at; exact Hp).
  erewrite run_bind by exact IH. reflexivity.
Qed.

Lemma loadPackedBoxes_at (h : Heap.heap) (boxes : Heap.loc)
    (cells : list (Heap.loc * Heap.loc)) (vs : list PackedBox) :
  nth_error h boxes = Some (Heap.BoxArray (map fst cells)) ->
  Heap.represents h cells vs ->
  Heap.denotes h boxes vs.
Proof.
  intros Hb Hr. unfold Heap.denotes, Heap.loadPackedBoxes.
  run_step. apply mapM_loadPacked_at. exact Hr.
Qed.

(** Reading back: an array that denotes packed boxes is an array of box
    objects, each with an items array. *)
Lemma loadPacked_inv (h h' : Heap.heap) (box : Heap.loc) (v : PackedBox) :
  Heap.loadPacked box h = Some (v, h') ->
  h' = h /\ exists itemsAt, Heap.holdsBox h box itemsAt v.
Proof.
  unfold Heap.loadPacked, Heap.loadObject, Heap.loadItems, Heap.bind,
    Heap.load, Heap.ret, Heap.fail, Heap.holdsBox.
  intro H.
  destruct (nth_error h box) as [[| | |o]|] eqn:Eb; try discriminate.
  destruct (nth_error h (Heap.objItems o)) as [[its| | |]|] eqn:Ei;
    try discriminate.
  injection H as <- <-. split; [reflexivity|].
  exists (Heap.objItems o). destruct o. simpl in *.
  split; [reflexivity | assumption].
Qed.

Lemma mapM_loadPacked_inv (h h' : Heap.heap) (bs : list Heap.loc)
    (vs : list PackedBox) :
  Heap.mapM Heap.loadPacked bs h = Some (vs, h') ->
  h' = h /\ exists cells, bs = map fst cells /\ Heap.represents h cells vs.
Proof.
  revert vs h'. induction bs as [|b bs IH]; intros vs h' H; simpl in H.
  - injection H as <- <-. split; [reflexivity|]. exists []. split; constructor.
  - unfold Heap.bind in H.
    destruct (Heap.loadPacked b h) as [[v h1]|] eqn:E1; [|discriminate].
    destruct (loadPacked_inv _ _ E1) as [-> (ia & Hb)].
    destruct (Heap.mapM Heap.loadPacked bs h) as [[vs' h2]|] eqn:E2;
      [|discriminate].
    destruct (IH _ _ eq_refl) as [-> (cells & -> & Hr)].
    injection H as <- <-. split; [reflexivity|].
    exists ((b, ia) :: cells). split; [reflexivity|].
    constructor; assumption.
Qed.

Lemma denotes_inv (h : Heap.heap) (boxes : Heap.loc) (vs : list PackedBox) :
  Heap.denotes h boxes vs ->
  exists cells,
    nth_error h boxes = Some (Heap.BoxArray (map fst cells)) /\
    Heap.represents h cells vs.
Proof.
  unfold Heap.denotes, Heap.loadPackedBoxes, Heap.loadBoxes, Heap.bind,
    Heap.load, Heap.ret, Heap.fail.
  intro H.
  destruct (nth_error h boxes) as [[| |bs|]|] eqn:Eb; try discriminate.
  destruct (mapM_loadPacked_inv _ _ H) as [_ (cells & -> & Hr)].
  exists cells. split; [reflexivity | exact Hr].
Qed.

Lemma holdsBox_keeps (W : list Heap.loc) (h h' : Heap.heap)
    (box itemsAt : Heap.loc) (v : PackedBox) :
  Heap.modifies W h h' -> Heap.holdsBox h box itemsAt v ->
  ~ In box W -> ~ In itemsAt W ->
  Heap.holdsBox h' box itemsAt v.
Proof.
  intros Hm [Hb Hi] Nb Ni.
  split; eapply modifies_keeps; eassumption.
Qed.

Lemma represents_keeps (W : list Heap.loc) (h h' : Heap.heap)
    (cells : list (Heap.loc * Heap.loc)) (vs : list PackedBox) :
  Heap.modifies W h h' -> Heap.represents h cells vs ->
  (forall l, In l (Heap.footprint cells) -> ~ In l W) ->
  Heap.represents h' cells vs.
Proof.
  intros Hm Hr. induction Hr as [|p v cells vs Hp _ IH]; intros Hd;
    constructor.
  - eapply holdsBox_keeps; try eassumption; apply Hd; simpl; auto.
  - apply IH. intros l Hin. apply Hd. simpl. auto.
Qed.

Lemma represents_extends (h h' : Heap.heap)
    (cells : list (Heap.loc * Heap.loc)) (vs : list PackedBox) :
  Heap.extends h h' -> Heap.represents h cells vs ->
  Heap.represents h' cells vs.
Proof.
  intros He Hr. induction Hr as [|p v cells vs [Hb Hi] _ IH]; constructor;
    [|exact IH].
  split; eapply extends_keeps; eassumption.
Qed.

Lemma denotes_extends (h h' : Heap.heap) (boxes : Heap.loc)
    (vs : list PackedBox) :
  Heap.extends h h' -> Heap.denotes h boxes vs -> Heap.denotes h' boxes vs.
Proof.
  intros He Hd. destruct (denotes_inv Hd) as (cells & Hb & Hr).
  eapply loadPackedBoxes_at.
  - eapply extends_keeps; eassumption.
  - eapply represents_extends; eassumption.
Qed.

Lemma pushToItems_at (h : Heap.heap) (array : Heap.loc) (its : list Item.t)
    (item : Item.t) :
  nth_error h array = Some (Heap.ItemArray its) ->
  Heap.pushToItems array item h
  = Some (tt, setNth array (Heap.ItemArray (its ++ [item])) h).
Proof.
  intro H. unfold Heap.pushToItems. run_step. eapply store_at. eassumption.
Qed.

Lemma pushToBoxes_at (h : Heap.heap) (array : Heap.loc) (bs : list Heap.loc)
    (box : Heap.loc) :
  nth_error h array = Some (Heap.BoxArray bs) ->
  Heap.pushToBoxes array box h
  = Some (tt, setNth array (Heap.BoxArray (bs ++ [box])) h).
Proof.
  intro H. unfold Heap.pushToBoxes. run_step. eapply store_at. eassumption.
Qed.

Lemma updateObject_at (h : Heap.heap) (box : Heap.loc) (o : Heap.BoxObject)
    (f : Heap.BoxObject -> Heap.BoxObject) :
  nth_error h box = Some (Heap.BoxObj o) ->
  Heap.updateObject box f h = Some (tt, setNth box (Heap.BoxObj (f o)) h).
Proof.
  intro H. unfold Heap.updateObject. run_step. eapply store_at. eassumption.
Qed.

(** Adding an item to a box object: the object and its items array take the
    value of [addItem]; nothing else is written. *)
Lemma pushItem_spec (h : Heap.heap) (box itemsAt : Heap.loc) (v : PackedBox)
    (item : Item.t) :
  Heap.holdsBox h box itemsAt v -> box <> itemsAt ->
  exists h',
    Heap.pushItem box item h = Some (tt, h') /\
    List.length h' = List.length h /\
    Heap.holdsBox h' box itemsAt (addItem v item) /\
    Heap.modifies [box; itemsAt] h h'.
Proof.
  intros [Hb Hi] Hne.
  pose proof (nth_error_lt _ _ Hb) as Lb.
  pose proof (nth_error_lt _ _ Hi) as Li.
  set (h1 := setNth itemsAt (Heap.ItemArray (items v ++ [item])) h).
  assert (nth_error h1 box = nth_error h box) as Hb1
    by (apply nth_error_setNth_other; congruence).
  rewrite Hb in Hb1.
  set (o1 := Heap.mkBoxObject (boxType v) itemsAt
               (filledVolume v + getItemVolume item) (totalWeight v)).
  set (h2 := setNth box (Heap.BoxObj o1) h1).
  assert (nth_error h2 box = Some (Heap.BoxObj o1)) as Hb2
    by (apply nth_error_setNth_same; unfold h1; rewrite setNth_length; exact Lb).
  set (o2 := Heap.mkBoxObject (boxType v) itemsAt
               (filledVolume v + getItemVolume item)
               (totalWeight v + Item.weight item)).
  exists (setNth box (Heap.BoxObj o2) h2).
  split; [|split; [|split]].
  - unfold Heap.pushItem. run_step. simpl.
    erewrite run_bind by (eapply pushToItems_at; exact Hi).
    fold h1.
    erewrite run_bind by (eapply updateObject_at; exact Hb1).
    simpl. fold o1 h2.
    erewrite updateObject_at by exact Hb2. reflexivity.
  - unfold h2, h1. rewrite !setNth_length. reflexivity.
  - split.
    + apply nth_error_setNth_same.
      unfold h2, h1. rewrite !setNth_length. exact Lb.
    + rewrite nth_error_setNth_other by exact Hne. unfold h2.
      rewrite nth_error_setNth_other by exact Hne. unfold h1.
      apply nth_error_setNth_same. exact Li.
  - split; [unfold h2, h1; rewrite !setNth_length; lia|].
    intros l _ Hn. simpl in Hn.
    rewrite nth_error_setNth_other by tauto. unfold h2.
    rewrite nth_error_setNth_other by tauto. unfold h1.
    apply nth_error_setNth_other. tauto.
Qed.

Lemma fillFurther_snd_cons (box : PackedBox) (x : Item.t) (l : list Item.t) :
  snd (fillFurther box (x :: l))
  = if accepts x box
    then snd (fillFurther (addItem box x) l)
    else x :: snd (fillFurther box l).
Proof.
  simpl. fold (accepts x box). destruct (accepts x box); [reflexivity|].
  destruct (fillFurther box l). reflexivity.
Qed.

Lemma fillFurther_fst_cons (box : PackedBox) (x : Item.t) (l : list Item.t) :
  fst (fillFurther box (x :: l))
  = if accepts x box
    then fst (fillFurther (addItem box x) l)
    else fst (fillFurther box l).
Proof.
  simpl. fold (accepts x box). destruct (accepts x box); [reflexivity|].
  destruct (fillFurther box l). reflexivity.
Qed.

(** The refill pass on the store computes [fillFurther]: the box takes the
    items that fit, the others are appended to the array of pending items,
    and nothing else is written. *)
Lemma heap_fillFurther_spec (l : list Item.t) (h : Heap.heap)
    (box itemsAt pendingAt : Heap.loc) (v : PackedBox) (acc : list Item.t) :
  Heap.holdsBox h box itemsAt v ->
  nth_error h pendingAt = Some (Heap.ItemArray acc) ->
  box <> itemsAt -> pendingAt <> box -> pendingAt <> itemsAt ->
  exists h',
    Heap.fillFurther box l pendingAt h = Some (tt, h') /\
    List.length h' = List.length h /\
    Heap.holdsBox h' box itemsAt (fst (fillFurther v l)) /\
    nth_error h' pendingAt
    = Some (Heap.ItemArray (acc ++ snd (fillFurther v l))) /\
    Heap.modifies [box; itemsAt; pendingAt] h h'.
Proof.
  revert h v acc.
  induction l as [|x l IH]; intros h v acc Hv Hp N1 N2 N3.
  - exists h. simpl. rewrite app_nil_r.
    repeat split; try assumption; try apply Hv; try lia.
  - rewrite fillFurther_fst_cons, fillFurther_snd_cons.
    cbn [Heap.fillFurther].
    destruct Hv as [Hb Hi].
    erewrite run_bind by (eapply loadObject_at; exact Hb).
    cbn [Heap.objType Heap.objFilledVolume Heap.objTotalWeight].
    fold (accepts x v).
    destruct (accepts x v) eqn:Ea.
    + destruct (@pushItem_spec h box itemsAt v x (conj Hb Hi) N1)
        as (h1 & Hrun & Hlen & Hv1 & Hm1).
      erewrite run_bind by exact Hrun.
      assert (nth_error h1 pendingAt = Some (Heap.ItemArray acc)) as Hp1.
      { eapply modifies_keeps; [exact Hm1 | exact Hp |].
        simpl. intuition congruence. }
      destruct (IH h1 (addItem v x) acc Hv1 Hp1 N1 N2 N3)
        as (h2 & Hrun2 & Hlen2 & Hv2 & Hp2 & Hm2).
      exists h2. split; [exact Hrun2|]. split; [congruence|].
      split; [exact Hv2|]. split; [exact Hp2|].
      eapply modifies_trans; [exact Hm1 | exact Hm2 | |];
        intros y Hy; simpl in *; tauto.
    + erewrite run_bind by (eapply pushToItems_at; exact Hp).
      set (h1 := setNth pendingAt (Heap.ItemArray (acc ++ [x])) h).
      assert (Heap.holdsBox h1 box itemsAt v) as Hv1.
      { split; unfold h1; rewrite nth_error_setNth_other; auto. }
      assert (nth_error h1 pendingAt = Some (Heap.ItemArray (acc ++ [x])))
        as Hp1.
      { apply nth_error_setNth_same. eapply nth_error_lt; exact Hp. }
      destruct (IH h1 v (acc ++ [x]) Hv1 Hp1 N1 N2 N3)
        as (h2 & Hrun2 & Hlen2 & Hv2 & Hp2 & Hm2).
      exists h2. split; [exact Hrun2|].
      split; [rewrite Hlen2; apply setNth_length|].
      split; [exact Hv2|].
      split; [rewrite Hp2, <- app_assoc; reflexivity|].
      apply modifies_trans
        with (W1 := [box; itemsAt; pendingAt]) (W2 := [box; itemsAt; pendingAt])
             (h1 := h1);
        [apply modifies_store; simpl; tauto | exact Hm2 | |];
        apply incl_refl.
Qed.

(** ** Box objects that do not share cells *)

Lemma footprint_In (cells : list (Heap.loc * Heap.loc)) (i : nat)
    (box itemsAt : Heap.loc) :
  nth_error cells i = Some (box, itemsAt) ->
  In box (Heap.footprint cells) /\ In itemsAt (Heap.footprint cells).
Proof.
  intro H. apply nth_error_In in H.
  unfold Heap.footprint. rewrite !in_flat_map.
  split; exists (box, itemsAt); simpl; auto.
Qed.

Lemma footprint_distinct (cells : list (Heap.loc * Heap.loc)) (i : nat)
    (box itemsAt : Heap.loc) :
  NoDup (Heap.footprint cells) ->
  nth_error cells i = Some (box, itemsAt) -> box <> itemsAt.
Proof.
  revert i. induction cells as [|p cells IH]; intros [|i] Hnd Hn;
    simpl in *; try discriminate.
  - injection Hn as ->. simpl in Hnd. inversion Hnd as [|? ? Hnot _]; subst.
    intros ->. apply Hnot. left. reflexivity.
  - inversion Hnd as [|? ? _ Hnd']; subst.
    inversion Hnd' as [|? ? _ Hnd'']; subst. eauto.
Qed.

Lemma represents_nth (h : Heap.heap) (cells : list (Heap.loc * Heap.loc))
    (vs : list PackedBox) (i : nat) (v : PackedBox) :
  Heap.represents h cells vs -> nth_error vs i = Some v ->
  exists box itemsAt,
    nth_error cells i = Some (box, itemsAt) /\ Heap.holdsBox h box itemsAt v.
Proof.
  intro Hr. revert i. induction Hr as [|p w cells vs Hp _ IH]; intros [|i] Hn;
    simpl in *; try discriminate.
  - injection Hn as ->. exists (fst p), (snd p). destruct p. split; auto.
  - apply IH. exact Hn.
Qed.

Lemma represents_update (W : list Heap.loc) (h h' : Heap.heap)
    (cells : list (Heap.loc * Heap.loc)) (vs : list PackedBox) (i : nat)
    (box itemsAt : Heap.loc) (v' : PackedBox) :
  Heap.represents h cells vs ->
  NoDup (Heap.footprint cells) ->
  nth_error cells i = Some (box, itemsAt) ->
  Heap.modifies W h h' ->
  (forall l, In l W -> In l (Heap.footprint cells) -> l = box \/ l = itemsAt) ->
  Heap.holdsBox h' box itemsAt v' ->
  Heap.represents h' cells (setNth i v' vs).
Proof.
  intros Hr. revert i.
  induction Hr as [|p w cells vs Hp Hr IH]; intros [|i] Hnd Hn Hm HW Hv';
    simpl in *; try discriminate.
  - injection Hn as ->. simpl in *.
    inversion Hnd as [|? ? Hnb Hnd']; subst.
    inversion Hnd' as [|? ? Hni _]; subst.
    constructor; [exact Hv'|].
    eapply represents_keeps; [exact Hm | exact Hr |].
    intros l Hin HlW.
    destruct (HW l HlW (or_intror (or_intror Hin))) as [-> | ->].
    + apply Hnb. right. exact Hin.
    + apply Hni. exact Hin.
  - inversion Hnd as [|? ? Hnb Hnd']; subst.
    inversion Hnd' as [|? ? Hni Hnd'']; subst.
    destruct (footprint_In _ _ Hn) as [Inb Ini].
    constructor.
    + eapply holdsBox_keeps; [exact Hm | exact Hp | |].
      * intro HlW. destruct (HW _ HlW (or_introl eq_refl)) as [E | E].
        -- apply Hnb. right. rewrite E. exact Inb.
        -- apply Hnb. right. rewrite E. exact Ini.
      * intro HlW.
        destruct (HW _ HlW (or_intror (or_introl eq_refl))) as [E | E].
        -- apply Hni. rewrite E. exact Inb.
        -- apply Hni. rewrite E. exact Ini.
    + apply IH; try assumption.
      intros l HlW Hin. apply HW; auto.
Qed.

(** ** The simulator on the store *)

Lemma heap_tryAddLoop_spec (item : Item.t) (q : nat) (h : Heap.heap)
    (vs : list PackedBox) (n : nat) (sim : Heap.loc)
    (cells : list (Heap.loc * Heap.loc)) :
  nth_error h sim = Some (Heap.BoxArray (map fst cells)) ->
  Heap.represents h cells vs ->
  NoDup (sim :: Heap.footprint cells) ->
  exists h',
    Heap.tryAddLoop item q sim n h = Some (fst (tryAddLoop item q vs n), h') /\
    List.length h' = List.length h /\
    nth_error h' sim = Some (Heap.BoxArray (map fst cells)) /\
    Heap.represents h' cells (snd (tryAddLoop item q vs n)) /\
    Heap.modifies (Heap.footprint cells) h h'.
Proof.
  revert h vs n.
  induction q as [|q IH]; intros h vs n Hs Hr Hnd.
  - exists h. simpl. repeat split; try assumption; try lia.
  - cbn [Heap.tryAddLoop tryAddLoop].
    erewrite run_bind by (eapply loadPackedBoxes_at; eassumption).
    destruct (bestFitBox item vs) as [i|] eqn:Eb.
    + destruct (bestFitBox_accepts _ _ Eb) as (target & Hn & _).
      rewrite Hn.
      destruct (represents_nth _ Hr Hn) as (box & itemsAt & Hc & Hv).
      inversion Hnd as [|? ? Hsim Hnd']; subst.
      pose proof (footprint_distinct _ _ Hnd' Hc) as Hne.
      destruct (footprint_In _ _ Hc) as [Inb Ini].
      run_step.
      erewrite map_nth_error by exact Hc. cbn [fst].
      destruct (@pushItem_spec h box itemsAt target item Hv Hne)
        as (h1 & Hrun & Hlen & Hv1 & Hm1).
      erewrite run_bind by exact Hrun.
      assert (nth_error h1 sim = Some (Heap.BoxArray (map fst cells))) as Hs1.
      { eapply modifies_keeps; [exact Hm1 | exact Hs |].
        simpl. intros [E | [E | []]]; apply Hsim; rewrite <- E; assumption. }
      assert (Heap.represents h1 cells (setNth i (addItem target item) vs))
        as Hr1.
      { eapply represents_update; try eassumption.
        simpl. intros l [E | [E | []]] _; auto. }
      destruct (IH h1 _ (S n) Hs1 Hr1 Hnd)
        as (h2 & Hrun2 & Hlen2 & Hs2 & Hr2 & Hm2).
      exists h2. split; [exact Hrun2|]. split; [congruence|].
      split; [exact Hs2|]. split; [exact Hr2|].
      eapply modifies_trans; [exact Hm1 | exact Hm2 | | apply incl_refl].
      intros l [<- | [<- | []]]; assumption.
    + exists h. repeat split; try assumption; try lia.
Qed.

Lemma extends_trans (h h1 h2 : Heap.heap) :
  Heap.extends h h1 -> Heap.extends h1 h2 -> Heap.extends h h2.
Proof.
  intros [f1 ->] [f2 ->]. exists (f1 ++ f2). rewrite app_assoc. reflexivity.
Qed.

Lemma extends_alloc (h : Heap.heap) (c : Heap.cell) : Heap.extends h (h ++ [c]).
Proof. exists [c]. reflexivity. Qed.

(** Copying the boxes (lines 208-211): new objects with new items arrays
    that hold the same values. *)
Lemma copyBoxes_spec (h0 : Heap.heap) (cells0 : list (Heap.loc * Heap.loc))
    (vs : list PackedBox) :
  Heap.represents h0 cells0 vs ->
  forall h, Heap.extends h0 h ->
  exists cells h',
    Heap.mapM Heap.copyBox (map fst cells0) h = Some (map fst cells, h') /\
    Heap.extends h h' /\
    Heap.represents h' cells vs /\
    Forall (fun l => (List.length h <= l < List.length h')%nat)
      (Heap.footprint cells) /\
    NoDup (Heap.footprint cells).
Proof.
  induction 1 as [|p v cells0 vs [Hb Hi] _ IH]; intros h He.
  - exists [], h. simpl. repeat split; try constructor. apply extends_refl.
  - cbn [map Heap.mapM].
    assert (Hb' := Hb). eapply extends_keeps in Hb'; [|exact He].
    assert (Hi' := Hi). eapply extends_keeps in Hi'; [|exact He].
    set (n := List.length h).
    set (h1 := h ++ [Heap.ItemArray (items v)]).
    set (h2 := h1 ++ [Heap.BoxObj (Heap.mkBoxObject (boxType v) n
                                     (filledVolume v) (totalWeight v))]).
    assert (Heap.copyBox (fst p) h = Some (S n, h2)) as Hcopy.
    { unfold Heap.copyBox. run_step. simpl. run_step.
      unfold Heap.bind, Heap.alloc. fold n h1.
      replace (List.length h1) with (S n)
        by (unfold h1; rewrite length_app; simpl; lia).
      reflexivity. }
    assert (Heap.extends h h2) as He2
      by (eapply extends_trans; apply extends_alloc).
    assert (Heap.extends h0 h2) as He02
      by (eapply extends_trans; eassumption).
    destruct (IH h2 He02) as (cells & h' & Hrun & He' & Hr' & Hbd & Hnd).
    assert (List.length h2 = S (S n)) as Hl2
      by (unfold h2, h1; rewrite !length_app; simpl; lia).
    assert (List.length h2 <= List.length h')%nat as Hl'
      by (apply extends_length; exact He').
    exists ((S n, n) :: cells), h'.
    erewrite run_bind by exact Hcopy.
    erewrite run_bind by exact Hrun.
    split; [reflexivity|].
    split; [eapply extends_trans; eassumption|].
    split; [|split].
    + constructor; [|exact Hr']. split; cbn [fst snd].
      * eapply extends_keeps; [exact He'|]. unfold h2.
        replace (S n) with (List.length h1)
          by (unfold h1; rewrite length_app; simpl; lia).
        apply nth_error_snoc_new.
      * eapply extends_keeps; [exact He'|]. unfold h2.
        apply nth_error_snoc_old. unfold h1, n. apply nth_error_snoc_new.
    + cbn [Heap.footprint flat_map fst snd app].
      constructor; [lia|]. constructor; [lia|].
      eapply Forall_impl; [|exact Hbd]. simpl. intros l Hl. lia.
    + cbn [Heap.footprint flat_map fst snd app].
      rewrite Forall_forall in Hbd.
      constructor.
      * intros [E | Hin]; [lia|]. specialize (Hbd _ Hin). lia.
      * constructor; [|exact Hnd].
        intro Hin. specialize (Hbd _ Hin). lia.
Qed.

(** [tryAddItemsToExistingBoxes] on the store: it returns, it leaves every
    existing object as it is, and the array it returns denotes the boxes
    that the value model computes. *)
Lemma heap_tryAdd_spec (item : Item.t) (q : nat) (h : Heap.heap)
    (existing : Heap.loc) (vs : list PackedBox) :
  Heap.denotes h existing vs ->
  exists sim h',
    Heap.tryAddItemsToExistingBoxes item q existing h
    = Some ((quantityAdded (tryAddItemsToExistingBoxes item q vs), sim), h') /\
    Heap.extends h h' /\
    Heap.denotes h' sim (newPackedBoxes (tryAddItemsToExistingBoxes item q vs)).
Proof.
  intro Hd. destruct (denotes_inv Hd) as (cells0 & Hb & Hr0).
  destruct (copyBoxes_spec Hr0 (h := h)) as (cells & h1 & Hcopy & He1 & Hr1 & Hbd & Hnd);
    [apply extends_refl|].
  set (sim := List.length h1).
  set (h2 := h1 ++ [Heap.BoxArray (map fst cells)]).
  assert (nth_error h2 sim = Some (Heap.BoxArray (map fst cells))) as Hs2
    by apply nth_error_snoc_new.
  assert (Heap.represents h2 cells vs) as Hr2
    by (eapply represents_extends; [apply extends_alloc | exact Hr1]).
  assert (NoDup (sim :: Heap.footprint cells)) as Hnd2.
  { constructor; [|exact Hnd]. intro Hin.
    rewrite Forall_forall in Hbd. specialize (Hbd _ Hin). unfold sim in Hbd. lia. }
  destruct (@heap_tryAddLoop_spec item q h2 vs 0%nat sim cells Hs2 Hr2 Hnd2)
    as (h3 & Hrun & Hlen & Hs3 & Hr3 & Hm).
  exists sim, h3.
  rewrite tryAdd_quantityAdded, tryAdd_newPackedBoxes.
  split; [|split].
  - unfold Heap.tryAddItemsToExistingBoxes. run_step.
    erewrite run_bind by exact Hcopy.
    unfold Heap.bind at 1. unfold Heap.alloc. fold sim h2.
    erewrite run_bind by exact Hrun. reflexivity.
  - eapply extends_modifies;
      [eapply extends_trans; [exact He1 | apply extends_alloc] | exact Hm |].
    eapply Forall_impl; [|exact Hbd]. simpl. intros l Hl. lia.
  - eapply loadPackedBoxes_at; eassumption.
Qed.

(** ** Phase 2 on the store *)

Lemma run_alloc (A : Type) (c : Heap.cell) (k : Heap.loc -> Heap.M A)
    (h : Heap.heap) :
  Heap.bind (Heap.alloc c) k h = k (List.length h) (h ++ [c]).
Proof. reflexivity. Qed.

Lemma represents_bound (h : Heap.heap) (cells : list (Heap.loc * Heap.loc))
    (vs : list PackedBox) :
  Heap.represents h cells vs ->
  Forall (fun l => (l < List.length h)%nat) (Heap.footprint cells).
Proof.
  induction 1 as [|p v cells vs [Hb Hi] _ IH]; simpl; [constructor|].
  constructor; [eapply nth_error_lt; exact Hb|].
  constructor; [eapply nth_error_lt; exact Hi | exact IH].
Qed.

Lemma footprint_app (c1 c2 : list (Heap.loc * Heap.loc)) :
  Heap.footprint (c1 ++ c2) = Heap.footprint c1 ++ Heap.footprint c2.
Proof. apply flat_map_app. Qed.

(** Writes after writes: what changed below the old end of the store. *)
Lemma modifies_then (W W' : list Heap.loc) (h h1 h2 : Heap.heap) :
  Heap.modifies W h h1 -> Heap.modifies W' h1 h2 ->
  (forall l, (l < List.length h)%nat -> In l W' -> In l W) ->
  Heap.modifies W h h2.
Proof.
  intros [L1 H1] [L2 H2] Hsub. split; [lia|].
  intros l Hl Hn. rewrite H2.
  - apply H1; assumption.
  - lia.
  - intro Hin. apply Hn. apply Hsub; assumption.
Qed.

Lemma NoDup_replace_third (S P U U' : Heap.loc) (F : list Heap.loc) :
  NoDup (S :: P :: U :: F) ->
  U' <> S -> U' <> P -> ~ In U' F ->
  NoDup (S :: P :: U' :: F).
Proof.
  intros Hnd N1 N2 N3.
  inversion Hnd as [|? ? HS Hnd1]; subst.
  inversion Hnd1 as [|? ? HP Hnd2]; subst.
  inversion Hnd2 as [|? ? HU Hnd3]; subst.
  simpl in HS, HP.
  constructor; [simpl; intuition congruence|].
  constructor; [simpl; intuition congruence|].
  constructor; assumption.
Qed.

Lemma NoDup_fresh_cells (l : list Heap.loc) (n a b : Heap.loc) :
  NoDup l -> Forall (fun x => (x < n)%nat) l ->
  (n <= a)%nat -> (n <= b)%nat -> a <> b ->
  NoDup (l ++ [a; b]).
Proof.
  intros Hnd Hb Ha Hb' Hab.
  apply NoDup_app; [exact Hnd | |].
  - constructor; [simpl; intuition congruence|].
    constructor; [intros []|constructor].
  - intros x Hx [<- | [<- | []]];
      rewrite Forall_forall in Hb; specialize (Hb _ Hx); lia.
Qed.

(** The loop of Phase 2 on the store computes [phase2]: it returns the same
    console, the array of opened boxes denotes the same packed boxes, and
    below the old end of the store it writes only to that array, to the
    array of pending items and to the opened boxes. *)
Lemma heap_phase2_spec (sorted : list Box.t) (fuel : nat) :
  forall (h : Heap.heap) (typesAt boxesAt pendingAt : Heap.loc)
         (cells : list (Heap.loc * Heap.loc)) (vs : list PackedBox)
         (unp : list Item.t) (console : list string),
    nth_error h typesAt = Some (Heap.TypeArray sorted) ->
    nth_error h boxesAt = Some (Heap.BoxArray (map fst cells)) ->
    nth_error h pendingAt = Some (Heap.ItemArray unp) ->
    Heap.represents h cells vs ->
    NoDup (typesAt :: boxesAt :: pendingAt :: Heap.footprint cells) ->
    exists h' cells',
      Heap.phase2 fuel typesAt boxesAt pendingAt console h
      = Some (snd (phase2 fuel sorted vs unp console), h') /\
      nth_error h' boxesAt = Some (Heap.BoxArray (map fst cells')) /\
      Heap.represents h' cells' (fst (phase2 fuel sorted vs unp console)) /\
      Heap.modifies (boxesAt :: pendingAt :: Heap.footprint cells) h h'.
Proof.
  induction fuel as [|fuel IH];
    intros h typesAt boxesAt pendingAt cells vs unp console HS HP HU Hr Hnd.
  { exists h, cells. simpl.
    split; [reflexivity|]. split; [exact HP|]. split; [exact Hr|].
    apply modifies_refl. }
  cbn [Heap.phase2 phase2]. run_step.
  destruct unp as [|cur rest].
  { exists h, cells. simpl.
    split; [reflexivity|]. split; [exact HP|]. split; [exact Hr|].
    apply modifies_refl. }
  erewrite run_bind by (eapply store_at; exact HU).
  set (h1 := setNth pendingAt (Heap.ItemArray rest) h).
  inversion Hnd as [|? ? NS Hnd1]; subst.
  inversion Hnd1 as [|? ? NP Hnd2]; subst.
  inversion Hnd2 as [|? ? NU NF]; subst.
  simpl in NS, NP.
  pose proof (represents_bound Hr) as HFb. rewrite Forall_forall in HFb.
  pose proof (nth_error_lt _ _ HS) as LS.
  pose proof (nth_error_lt _ _ HP) as LP.
  pose proof (nth_error_lt _ _ HU) as LU.
  assert (Heap.modifies [pendingAt] h h1) as Hm1
    by (apply modifies_store; left; reflexivity).
  assert (List.length h1 = List.length h) as Hl1 by apply setNth_length.
  assert (nth_error h1 typesAt = Some (Heap.TypeArray sorted)) as HS1
    by (unfold h1; rewrite nth_error_setNth_other; [exact HS | tauto]).
  assert (nth_error h1 boxesAt = Some (Heap.BoxArray (map fst cells))) as HP1
    by (unfold h1; rewrite nth_error_setNth_other; [exact HP | tauto]).
  assert (nth_error h1 pendingAt = Some (Heap.ItemArray rest)) as HU1
    by (apply nth_error_setNth_same; exact LU).
  assert (Heap.represents h1 cells vs) as Hr1.
  { eapply represents_keeps; [exact Hm1 | exact Hr |].
    intros l Hin [E | []]. subst. contradiction. }
  erewrite run_bind by (eapply loadPackedBoxes_at; [exact HP1 | exact Hr1]).
  destruct (bestFitBox cur vs) as [i|] eqn:Eb.
  - (* the item goes into an opened box *)
    destruct (bestFitBox_accepts _ _ Eb) as (target & Hn & _).
    rewrite Hn.
    destruct (represents_nth _ Hr1 Hn) as (box & itemsAt & Hc & Hv).
    pose proof (footprint_distinct _ _ NF Hc) as Hne.
    destruct (footprint_In _ _ Hc) as [Inb Ini].
    pose proof (HFb _ Inb) as Lb. pose proof (HFb _ Ini) as Li.
    run_step. erewrite map_nth_error by exact Hc. cbn [fst].
    destruct (@pushItem_spec h1 box itemsAt target cur Hv Hne)
      as (h2 & Hrun2 & Hl2 & Hv2 & Hm2).
    erewrite run_bind by exact Hrun2.
    assert (nth_error h2 pendingAt = Some (Heap.ItemArray rest)) as HU2.
    { eapply modifies_keeps; [exact Hm2 | exact HU1 |].
      simpl. intros [E | [E | []]]; subst; contradiction. }
    run_step. rewrite !run_alloc.
    set (h3 := h2 ++ [Heap.ItemArray rest]).
    set (h4 := h3 ++ [Heap.ItemArray []]).
    set (recheckAt := List.length h2).
    set (pendingAt' := List.length h3).
    assert (List.length h3 = S (List.length h)) as Hl3
      by (unfold h3; rewrite length_app; simpl; lia).
    assert (nth_error h4 recheckAt = Some (Heap.ItemArray rest)) as HR4
      by (apply nth_error_snoc_old, nth_error_snoc_new).
    run_step.
    assert (Heap.holdsBox h4 box itemsAt (addItem target cur)) as Hv4.
    { destruct Hv2 as [Hb2 Hi2].
      split; apply nth_error_snoc_old, nth_error_snoc_old; assumption. }
    assert (nth_error h4 pendingAt' = Some (Heap.ItemArray [])) as HU4
      by apply nth_error_snoc_new.
    destruct (@heap_fillFurther_spec rest h4 box itemsAt pendingAt'
                (addItem target cur) [] Hv4 HU4 Hne)
      as (h5 & Hrun5 & Hl5 & Hv5 & HU5 & Hm5);
      [unfold pendingAt'; lia | unfold pendingAt'; lia |].
    erewrite run_bind by exact Hrun5.
    destruct (fillFurther (addItem target cur) rest) as [tb un] eqn:Ef.
    cbn [fst snd app] in Hv5, HU5.
    assert (Heap.modifies [pendingAt; box; itemsAt] h h5) as Hm.
    { apply modifies_then with (W' := [box; itemsAt; pendingAt']) (h1 := h4).
      - apply modifies_then with (W' := []) (h1 := h3);
          [|apply modifies_alloc | intros ? ? []].
        apply modifies_then with (W' := []) (h1 := h2);
          [|apply modifies_alloc | intros ? ? []].
        apply modifies_then with (W' := [box; itemsAt]) (h1 := h1);
          [|exact Hm2 | simpl; tauto].
        apply modifies_store. left. reflexivity.
      - exact Hm5.
      - unfold pendingAt'. simpl. intros l Hl [E | [E | [E | []]]]; auto; lia. }
    assert (List.length h5 = S (S (List.length h))) as Hl5'
      by (rewrite Hl5; unfold h4; rewrite length_app; simpl; lia).
    destruct (IH h5 typesAt boxesAt pendingAt' cells (setNth i tb vs) un console)
      as (h' & cells' & Hrun' & HP' & Hr' & Hm').
    + eapply modifies_keeps; [exact Hm | exact HS |].
      simpl. intros [E | [E | [E | []]]]; subst; tauto.
    + eapply modifies_keeps; [exact Hm | exact HP |].
      simpl. intros [E | [E | [E | []]]]; subst; tauto.
    + exact HU5.
    + eapply represents_update; [exact Hr | exact NF | exact Hc | exact Hm | | exact Hv5].
      simpl. intros l [E | [E | [E | []]]] Hin; subst; tauto.
    + apply NoDup_replace_third with (U := pendingAt); [exact Hnd | | |];
        unfold pendingAt'; try lia.
      intro Hin. specialize (HFb _ Hin). lia.
    + exists h', cells'.
      split; [exact Hrun'|]. split; [exact HP'|]. split; [exact Hr'|].
      apply modifies_then
        with (W' := boxesAt :: pendingAt' :: Heap.footprint cells) (h1 := h5).
      * apply modifies_then with (W' := [pendingAt; box; itemsAt]) (h1 := h);
          [apply modifies_refl | exact Hm |].
        simpl. intros l _ [E | [E | [E | []]]]; subst; auto.
      * exact Hm'.
      * unfold pendingAt'. simpl. intros l Hl [E | [E | Hin]]; auto; lia.
  - (* no opened box takes the item *)
    run_step.
    destruct (find (canHoldAlone cur) sorted) as [nb|] eqn:Ef.
    + (* a new box is opened *)
      rewrite !run_alloc.
      set (newItems := List.length h1).
      set (h2 := h1 ++ [Heap.ItemArray [cur]]).
      set (newBox := List.length h2).
      set (nbv := mkPacked nb [cur] (getItemVolume cur) (Item.weight cur)).
      set (h3 := h2 ++ [Heap.BoxObj
                          (Heap.mkBoxObject nb newItems (getItemVolume cur)
                             (Item.weight cur))]).
      assert (List.length h2 = S (List.length h)) as Hl2
        by (unfold h2; rewrite length_app; simpl; lia).
      assert (List.length h3 = S (S (List.length h))) as Hl3
        by (unfold h3; rewrite length_app; simpl; lia).
      assert (nth_error h3 pendingAt = Some (Heap.ItemArray rest)) as HU3
        by (apply nth_error_snoc_old, nth_error_snoc_old; exact HU1).
      run_step. rewrite !run_alloc.
      set (h4 := h3 ++ [Heap.ItemArray rest]).
      set (h5 := h4 ++ [Heap.ItemArray []]).
      set (recheckAt := List.length h3).
      set (pendingAt' := List.length h4).
      assert (List.length h4 = S (S (S (List.length h)))) as Hl4
        by (unfold h4; rewrite length_app; simpl; lia).
      assert (nth_error h5 recheckAt = Some (Heap.ItemArray rest)) as HR5
        by (apply nth_error_snoc_old, nth_error_snoc_new).
      run_step.
      assert (Heap.holdsBox h5 newBox newItems nbv) as Hv5.
      { split.
        - apply nth_error_snoc_old, nth_error_snoc_old, nth_error_snoc_new.
        - apply nth_error_snoc_old, nth_error_snoc_old, nth_error_snoc_old.
          apply nth_error_snoc_new. }
      assert (nth_error h5 pendingAt' = Some (Heap.ItemArray [])) as HU5
        by apply nth_error_snoc_new.
      destruct (@heap_fillFurther_spec rest h5 newBox newItems pendingAt'
                  nbv [] Hv5 HU5)
        as (h6 & Hrun6 & Hl6 & Hv6 & HU6 & Hm6);
        [unfold newBox, newItems; lia
        | unfold pendingAt', newBox; lia
        | unfold pendingAt', newItems; lia |].
      erewrite run_bind by exact Hrun6.
      fold nbv. destruct (fillFurther nbv rest) as [nb' un] eqn:Eff.
      cbn [fst snd app] in Hv6, HU6.
      assert (Heap.modifies [pendingAt] h h6) as Hm.
      { apply modifies_then with (W' := [newBox; newItems; pendingAt']) (h1 := h5).
        - apply modifies_then with (W' := []) (h1 := h4);
            [|apply modifies_alloc | intros ? ? []].
          apply modifies_then with (W' := []) (h1 := h3);
            [|apply modifies_alloc | intros ? ? []].
          apply modifies_then with (W' := []) (h1 := h2);
            [|apply modifies_alloc | intros ? ? []].
          apply modifies_then with (W' := []) (h1 := h1);
            [|apply modifies_alloc | intros ? ? []].
          exact Hm1.
        - exact Hm6.
        - unfold pendingAt', newBox, newItems. simpl.
          intros l Hl [E | [E | [E | []]]]; lia. }
      assert (List.length h6 = S (S (S (S (List.length h))))) as Hl6'
        by (rewrite Hl6; unfold h5; rewrite length_app; simpl; lia).
      assert (nth_error h6 boxesAt = Some (Heap.BoxArray (map fst cells))) as HP6.
      { eapply modifies_keeps; [exact Hm | exact HP |].
        simpl. intros [E | []]; subst; tauto. }
      erewrite run_bind by (eapply pushToBoxes_at; exact HP6).
      set (h7 := setNth boxesAt (Heap.BoxArray (map fst cells ++ [newBox])) h6).
      assert (Heap.modifies [pendingAt; boxesAt] h h7) as Hm7.
      { apply modifies_then with (W' := [boxesAt]) (h1 := h6).
        - apply modifies_then with (W' := [pendingAt]) (h1 := h);
            [apply modifies_refl | exact Hm | simpl; tauto].
        - apply modifies_store. left. reflexivity.
        - simpl. tauto. }
      destruct (IH h7 typesAt boxesAt pendingAt' (cells ++ [(newBox, newItems)])
                  (vs ++ [nb']) un console)
        as (h' & cells' & Hrun' & HP' & Hr' & Hm').
      * eapply modifies_keeps; [exact Hm7 | exact HS |].
        simpl. intros [E | [E | []]]; subst; tauto.
      * rewrite map_app. simpl. apply nth_error_setNth_same. lia.
      * unfold h7. rewrite nth_error_setNth_other by (unfold pendingAt'; lia).
        exact HU6.
      * apply Forall2_app.
        -- eapply represents_keeps; [exact Hm7 | exact Hr |].
           simpl. intros l Hin [E | [E | []]]; subst; tauto.
        -- constructor; [|constructor]. destruct Hv6 as [Hb6 Hi6].
           split; cbn [fst snd]; unfold h7;
             rewrite nth_error_setNth_other; try assumption;
             unfold newBox, newItems; lia.
      * rewrite footprint_app. cbn [Heap.footprint flat_map fst snd app].
        assert (NoDup (Heap.footprint cells ++ [newBox; newItems])) as NF'.
        { apply NoDup_fresh_cells with (n := List.length h);
            [exact NF | apply Forall_forall; exact HFb | | |];
            unfold newBox, newItems; lia. }
        assert (forall l, In l (Heap.footprint cells ++ [newBox; newItems]) ->
                          (l < pendingAt')%nat /\
                          ((l < List.length h)%nat ->
                           In l (Heap.footprint cells))) as Hin'.
        { intros l Hin. apply in_app_or in Hin.
          destruct Hin as [Hin | [E | [E | []]]].
          - specialize (HFb _ Hin). unfold pendingAt'. split; [lia | auto].
          - unfold pendingAt', newBox in *. split; lia.
          - unfold pendingAt', newItems in *. split; lia. }
        constructor.
        { simpl. intros [E | [E | Hin]]; [tauto | unfold pendingAt' in E; lia |].
          destruct (Hin' _ Hin) as [_ Hold]. tauto. }
        constructor.
        { simpl. intros [E | Hin]; [unfold pendingAt' in E; lia|].
          destruct (Hin' _ Hin) as [_ Hold]. tauto. }
        constructor; [|exact NF'].
        intro Hin. destruct (Hin' _ Hin) as [Hlt _]. lia.
      * exists h', cells'.
        split; [exact Hrun'|]. split; [exact HP'|]. split; [exact Hr'|].
        apply modifies_then
          with (W' := boxesAt :: pendingAt'
                      :: Heap.footprint (cells ++ [(newBox, newItems)]))
               (h1 := h7).
        -- apply modifies_then with (W' := [pendingAt; boxesAt]) (h1 := h);
             [apply modifies_refl | exact Hm7 |].
           simpl. intros l _ [E | [E | []]]; subst; auto.
        -- exact Hm'.
        -- rewrite footprint_app. cbn [Heap.footprint flat_map fst snd app].
           unfold pendingAt', newBox, newItems. simpl.
           intros l Hl [E | [E | Hin]]; auto; [lia|].
           apply in_app_or in Hin. destruct Hin as [Hin | [E | [E | []]]];
             auto; lia.
    + (* the item is dropped with a warning *)
      destruct (IH h1 typesAt boxesAt pendingAt cells vs rest
                  (console ++ [warning cur]) HS1 HP1 HU1 Hr1 Hnd)
        as (h' & cells' & Hrun' & HP' & Hr' & Hm').
      exists h', cells'.
      split; [exact Hrun'|]. split; [exact HP'|]. split; [exact Hr'|].
      apply modifies_then
        with (W' := boxesAt :: pendingAt :: Heap.footprint cells) (h1 := h1).
      * apply modifies_store. right. left. reflexivity.
      * exact Hm'.
      * intros l _ Hin. exact Hin.
Qed.

(** ** [packOptimal] on the store *)

Lemma setNth_snoc (A : Type) (l : list A) (x y : A) :
  setNth (List.length l) y (l ++ [x]) = l ++ [y].
Proof. induction l as [|z l IH]; simpl; [reflexivity | rewrite IH; reflexivity]. Qed.

Lemma sortedCopyOfItems_spec (h : Heap.heap) (array : Heap.loc)
    (its : list Item.t) :
  nth_error h array = Some (Heap.ItemArray its) ->
  Heap.sortedCopyOfItems array h
  = Some (List.length h, h ++ [Heap.ItemArray (sort_by byVolumeDesc its)]).
Proof.
  intro H. unfold Heap.sortedCopyOfItems. run_step. rewrite run_alloc.
  assert (nth_error (h ++ [Heap.ItemArray its]) (List.length h)
          = Some (Heap.ItemArray its)) as Hc by apply nth_error_snoc_new.
  run_step. erewrite run_bind by (eapply store_at; exact Hc).
  rewrite setNth_snoc. reflexivity.
Qed.

Lemma sortedCopyOfTypes_spec (h : Heap.heap) (array : Heap.loc)
    (ts : list Box.t) :
  nth_error h array = Some (Heap.TypeArray ts) ->
  Heap.sortedCopyOfTypes array h
  = Some (List.length h, h ++ [Heap.TypeArray (sort_by byVolumeAsc ts)]).
Proof.
  intro H. unfold Heap.sortedCopyOfTypes. run_step. rewrite run_alloc.
  assert (nth_error (h ++ [Heap.TypeArray ts]) (List.length h)
          = Some (Heap.TypeArray ts)) as Hc by apply nth_error_snoc_new.
  run_step. erewrite run_bind by (eapply store_at; exact Hc).
  rewrite setNth_snoc. reflexivity.
Qed.

Lemma heap_phase1_spec (sortedItems : Heap.loc) (its : list Item.t)
    (types : list Box.t) (h : Heap.heap) :
  Heap.phase1 sortedItems its types h
  = match phase1 its types with
    | Some box =>
        Some (Some (S (List.length h)),
              (h ++ [Heap.BoxObj
                       (Heap.mkBoxObject (boxType box) sortedItems
                          (filledVolume box) (totalWeight box))])
              ++ [Heap.BoxArray [List.length h]])
    | None => Some (None, h)
    end.
Proof.
  induction types as [|b types IH]; simpl; [reflexivity|].
  destruct (allItemsFitInOneBox b its 0 0) as [[fv tw]|]; [|exact IH].
  rewrite !run_alloc. simpl. rewrite length_app, Nat.add_1_r. reflexivity.
Qed.

(** [packOptimal] on the store: it returns, with the console of the value
    model; it leaves every existing object as it is; and the array it
    returns denotes the packed boxes that the value model computes. *)
Lemma heap_packOptimal_spec (h : Heap.heap) (itemsAt typesAt : Heap.loc)
    (its : list Item.t) (bts : list Box.t) :
  nth_error h itemsAt = Some (Heap.ItemArray its) ->
  nth_error h typesAt = Some (Heap.TypeArray bts) ->
  exists result h',
    Heap.packOptimal itemsAt typesAt h
    = Some ((result, snd (packOptimalLog its bts)), h') /\
    Heap.extends h h' /\
    Heap.denotes h' result (packOptimal its bts).
Proof.
  intros Hi Ht. unfold Heap.packOptimal, packOptimal, packOptimalLog. run_step.
  destruct its as [|x rest].
  { rewrite run_alloc. exists (List.length h), (h ++ [Heap.BoxArray []]).
    split; [reflexivity|]. split; [apply extends_alloc|].
    apply loadPackedBoxes_at with (cells := []);
      [apply nth_error_snoc_new | constructor]. }
  set (its := x :: rest) in *.
  set (sortedItems := sort_by byVolumeDesc its).
  set (sorted := sort_by byVolumeAsc bts).
  erewrite run_bind by (eapply sortedCopyOfItems_spec; exact Hi).
  fold sortedItems.
  set (h1 := h ++ [Heap.ItemArray sortedItems]).
  assert (nth_error h1 typesAt = Some (Heap.TypeArray bts)) as Ht1
    by (apply nth_error_snoc_old; exact Ht).
  erewrite run_bind by (eapply sortedCopyOfTypes_spec; exact Ht1).
  fold sorted.
  set (h2 := h1 ++ [Heap.TypeArray sorted]).
  set (sortedItemsAt := List.length h).
  set (sortedAt := List.length h1).
  assert (List.length h1 = S (List.length h)) as Hl1
    by (unfold h1; rewrite length_app; simpl; lia).
  assert (List.length h2 = S (S (List.length h))) as Hl2
    by (unfold h2; rewrite length_app; simpl; lia).
  assert (nth_error h2 sortedItemsAt = Some (Heap.ItemArray sortedItems)) as HSI
    by (apply nth_error_snoc_old, nth_error_snoc_new).
  assert (nth_error h2 sortedAt = Some (Heap.TypeArray sorted)) as HST
    by apply nth_error_snoc_new.
  assert (Heap.extends h h2) as He2
    by (eapply extends_trans; apply extends_alloc).
  run_step. run_step.
  destruct (phase1 sortedItems sorted) as [box|] eqn:E1;
    (erewrite run_bind by (rewrite heap_phase1_spec, E1; reflexivity)).
  - destruct (phase1_some _ _ E1) as (_ & _ & _ & _ & _ & Hit).
    set (h3 := h2 ++ [Heap.BoxObj
                        (Heap.mkBoxObject (boxType box) sortedItemsAt
                           (filledVolume box) (totalWeight box))]).
    exists (S (List.length h2)), (h3 ++ [Heap.BoxArray [List.length h2]]).
    split; [reflexivity|].
    split; [eapply extends_trans; [exact He2|];
            eapply extends_trans; apply extends_alloc|].
    cbn [fst].
    apply loadPackedBoxes_at with (cells := [(List.length h2, sortedItemsAt)]).
    + replace (S (List.length h2)) with (List.length h3)
        by (unfold h3; rewrite length_app; simpl; lia).
      apply nth_error_snoc_new.
    + constructor; [|constructor]. split; cbn [fst snd].
      * apply nth_error_snoc_old. apply nth_error_snoc_new.
      * rewrite Hit. apply nth_error_snoc_old, nth_error_snoc_old. exact HSI.
  - cbv beta iota. rewrite !run_alloc.
    set (boxesAt := List.length h2).
    set (h3 := h2 ++ [Heap.BoxArray []]).
    set (pendingAt := List.length h3).
    set (h4 := h3 ++ [Heap.ItemArray sortedItems]).
    assert (List.length h3 = S (S (S (List.length h)))) as Hl3
      by (unfold h3; rewrite length_app; simpl; lia).
    destruct (@heap_phase2_spec sorted (List.length sortedItems) h4
                sortedAt boxesAt pendingAt [] [] sortedItems [])
      as (h' & cells' & Hrun & HP' & Hr' & Hm').
    + apply nth_error_snoc_old, nth_error_snoc_old. exact HST.
    + apply nth_error_snoc_old, nth_error_snoc_new.
    + apply nth_error_snoc_new.
    + constructor.
    + unfold sortedAt, boxesAt, pendingAt. simpl.
      repeat constructor; simpl; lia.
    + erewrite run_bind by exact Hrun.
      exists boxesAt, h'.
      split; [reflexivity|]. split.
      * eapply extends_modifies; [|exact Hm' |].
        -- eapply extends_trans; [exact He2|].
           eapply extends_trans; apply extends_alloc.
        -- unfold boxesAt, pendingAt. simpl.
           repeat constructor; lia.
      * eapply loadPackedBoxes_at; eassumption.
Qed.

(** C9.  On a store where [itemsAt] holds an item list, [typesAt] a catalog
    and [existing] an array of packed boxes: [packOptimal] and
    [tryAddItemsToExistingBoxes] return, and the store they leave is the
    store they were given followed by new objects only.  So the item list
    and the catalog are unchanged, the array of existing boxes still denotes
    the same packed boxes (items, filled volume and total weight), and the
    arrays returned denote the results of the value model. *)
Theorem engine_leaves_arguments_untouched
    (h : Heap.heap) (itemsAt typesAt existing : Heap.loc)
    (its : list Item.t) (bts : list Box.t) (vs : list PackedBox)
    (item : Item.t) (q : nat) :
  nth_error h itemsAt = Some (Heap.ItemArray its) ->
  nth_error h typesAt = Some (Heap.TypeArray bts) ->
  Heap.denotes h existing vs ->
  (exists result console h',
     Heap.packOptimal itemsAt typesAt h = Some ((result, console), h') /\
     Heap.extends h h' /\
     nth_error h' itemsAt = Some (Heap.ItemArray its) /\
     nth_error h' typesAt = Some (Heap.TypeArray bts) /\
     Heap.denotes h' existing vs /\
     Heap.denotes h' result (packOptimal its bts) /\
     console = snd (packOptimalLog its bts)) /\
  (exists added simulated h',
     Heap.tryAddItemsToExistingBoxes item q existing h
     = Some ((added, simulated), h') /\
     Heap.extends h h' /\
     nth_error h' itemsAt = Some (Heap.ItemArray its) /\
     nth_error h' typesAt = Some (Heap.TypeArray bts) /\
     Heap.denotes h' existing vs /\
     Heap.denotes h' simulated
       (newPackedBoxes (tryAddItemsToExistingBoxes item q vs)) /\
     added = quantityAdded (tryAddItemsToExistingBoxes item q vs)).
Proof.
  intros Hi Ht Hd. split.
  - destruct (@heap_packOptimal_spec h itemsAt typesAt its bts Hi Ht)
      as (result & h' & Hrun & He & Hr).
    exists result, (snd (packOptimalLog its bts)), h'.
    split; [exact Hrun|]. split; [exact He|].
    split; [eapply extends_keeps; eassumption|].
    split; [eapply extends_keeps; eassumption|].
    split; [eapply denotes_extends; eassumption|].
    split; [exact Hr | reflexivity].
  - destruct (@heap_tryAdd_spec item q h existing vs Hd)
      as (sim & h' & Hrun & He & Hr).
    exists (quantityAdded (tryAddItemsToExistingBoxes item q vs)), sim, h'.
    split; [exact Hrun|]. split; [exact He|].
    split; [eapply extends_keeps; eassumption|].
    split; [eapply extends_keeps; eassumption|].
    split; [eapply denotes_extends; eassumption|].
    split; [exact Hr | reflexivity].
Qed.

Lemma engine_leaves_arguments_untouched_witness :
  (exists result console h',
     Heap.packOptimal 0%nat 1%nat sampleStore = Some ((result, console), h') /\
     Heap.extends sampleStore h' /\
     nth_error h' 0%nat = Some (Heap.ItemArray [book; mug; keyboard]) /\
     nth_error h' 1%nat = Some (Heap.TypeArray AMAZON_BOX_SIZES) /\
     Heap.denotes h' 4%nat [mkPacked smallBox [book] 1800 (8#10)] /\
     Heap.denotes h' result (packOptimal [book; mug; keyboard] AMAZON_BOX_SIZES) /\
     console = snd (packOptimalLog [book; mug; keyboard] AMAZON_BOX_SIZES)) /\
  (exists added simulated h',
     Heap.tryAddItemsToExistingBoxes mug 5 4%nat sampleStore
     = Some ((added, simulated), h') /\
     Heap.extends sampleStore h' /\
     nth_error h' 0%nat = Some (Heap.ItemArray [book; mug; keyboard]) /\
     nth_error h' 1%nat = Some (Heap.TypeArray AMAZON_BOX_SIZES) /\
     Heap.denotes h' 4%nat [mkPacked smallBox [book] 1800 (8#10)] /\
     Heap.denotes h' simulated
       (newPackedBoxes
          (tryAddItemsToExistingBoxes mug 5
             [mkPacked smallBox [book] 1800 (8#10)])) /\
     added = quantityAdded
               (tryAddItemsToExistingBoxes mug 5
                  [mkPacked smallBox [book] 1800 (8#10)])).
Proof.
  apply engine_leaves_arguments_untouched; reflexivity.
Defined.

(** A run on the sample store: three units of the mug are added to a copy
    of the small box; the five objects of the caller are the first five
    objects of the store afterwards, and the caller's box still holds one
    book. *)
Example simulator_on_sample_store :
  exists simulated h',
    Heap.tryAddItemsToExistingBoxes mug 5 4%nat sampleStore
    = Some ((3%nat, simulated), h') /\
    firstn 5 h' = sampleStore /\
    option_map (fun r => map (fun box => List.length (items box)) (fst r))
      (Heap.loadPackedBoxes simulated h') = Some [4%nat] /\
    option_map (fun r => map (fun box => List.length (items box)) (fst r))
      (Heap.loadPackedBoxes 4%nat h') = Some [1%nat].
Proof. eexists _, _. repeat split; vm_compute; reflexivity. Qed.


(** Two simulations in a row against the same array of boxes, as the loop of
    [getBulkOrderSuggestions] runs them: the second sees the boxes that the
    first saw, and each returns what the value model computes from the
    baseline. *)
Lemma successive_simulations_see_the_baseline
    (h : Heap.heap) (existing : Heap.loc) (vs : list PackedBox)
    (item1 item2 : Item.t) (q1 q2 : nat) :
  Heap.denotes h existing vs ->
  exists sim1 h1 sim2 h2,
    Heap.tryAddItemsToExistingBoxes item1 q1 existing h
    = Some ((quantityAdded (tryAddItemsToExistingBoxes item1 q1 vs), sim1), h1) /\
    Heap.tryAddItemsToExistingBoxes item2 q2 existing h1
    = Some ((quantityAdded (tryAddItemsToExistingBoxes item2 q2 vs), sim2), h2) /\
    Heap.denotes h2 existing vs /\
    Heap.denotes h2 sim1
      (newPackedBoxes (tryAddItemsToExistingBoxes item1 q1 vs)) /\
    Heap.denotes h2 sim2
      (newPackedBoxes (tryAddItemsToExistingBoxes item2 q2 vs)).
Proof.
  intro Hd.
  destruct (@heap_tryAdd_spec item1 q1 h existing vs Hd)
    as (sim1 & h1 & Hrun1 & He1 & Hr1).
  assert (Heap.denotes h1 existing vs) as Hd1
    by (eapply denotes_extends; eassumption).
  destruct (@heap_tryAdd_spec item2 q2 h1 existing vs Hd1)
    as (sim2 & h2 & Hrun2 & He2 & Hr2).
  exists sim1, h1, sim2, h2.
  split; [exact Hrun1|]. split; [exact Hrun2|].
  split; [eapply denotes_extends; eassumption|].
  split; [eapply denotes_extends; eassumption | exact Hr2].
Qed.

(** * More of the engine and of the application *)

(** ** The shape of a packing result *)

Lemma fillFurther_items (box : PackedBox) (l : list Item.t) :
  exists placed, items (fst (fillFurther box l)) = items box ++ placed.
Proof.
  revert box. induction l as [|x l IH]; intros box; simpl.
  - exists []. rewrite app_nil_r. reflexivity.
  - destruct (doesItemFit _ _ _ _).
    + destruct (IH (addItem box x)) as [placed Hp].
      exists (x :: placed). rewrite Hp. simpl.
      rewrite <- app_assoc. reflexivity.
    + specialize (IH box). destruct (fillFurther box l). exact IH.
Qed.

Lemma fillFurther_keeps_nonempty (box : PackedBox) (l : list Item.t) :
  items box <> [] -> items (fst (fillFurther box l)) <> [].
Proof.
  intros Hne. destruct (fillFurther_items box l) as [placed ->].
  destruct (items box); [congruence | discriminate].
Qed.

Lemma phase2_shape (sorted : list Box.t) (fuel bound : nat)
    (packed : list PackedBox) (unpacked : list Item.t) (console : list string) :
  Forall (fun box => items box <> [] /\ In (boxType box) sorted) packed ->
  (List.length packed + List.length unpacked <= bound)%nat ->
  (List.length unpacked <= fuel)%nat ->
  Forall (fun box => items box <> [] /\ In (boxType box) sorted)
    (fst (phase2 fuel sorted packed unpacked console)) /\
  (List.length (fst (phase2 fuel sorted packed unpacked console)) <= bound)%nat.
Proof.
  intros Hp Hb Hlen.
  destruct (@phase2_rule sorted
              (fun pk un _ =>
                 Forall (fun box => items box <> [] /\ In (boxType box) sorted) pk /\
                 (List.length pk + List.length un <= bound)%nat))
    with (fuel := fuel) (packed := packed) (unpacked := unpacked)
         (console := console)
    as (packed' & console' & -> & Hp' & Hb'); auto.
  - intros pk cur rest _ i target [Hpk Hn] _ Hnth _.
    destruct (nth_error_Forall _ Hpk Hnth) as [_ Hty].
    pose proof (fillFurther_unpacked_length (addItem target cur) rest) as Hl.
    split.
    + apply setNth_Forall; [exact Hpk|]. split.
      * apply fillFurther_keeps_nonempty. simpl.
        destruct (items target); discriminate.
      * rewrite fillFurther_boxType. exact Hty.
    + rewrite setNth_length. simpl in Hn. lia.
  - intros pk cur rest _ nb [Hpk Hn] _ Hf. simpl.
    destruct (find_some _ _ Hf) as [Hin _].
    pose proof (fillFurther_unpacked_length
                  (mkPacked nb [cur] (getItemVolume cur) (Item.weight cur))
                  rest) as Hl.
    split.
    + apply Forall_app. split; [exact Hpk|]. constructor; [|constructor].
      split.
      * apply fillFurther_keeps_nonempty. discriminate.
      * rewrite fillFurther_boxType. exact Hin.
    + rewrite length_app. simpl in *. lia.
  - intros pk cur rest _ [Hpk Hn] _ _. split; [exact Hpk|]. simpl in Hn. lia.
  - simpl. simpl in Hb'. split; [exact Hp' | lia].
Qed.

(** X1.  Whatever the items and the catalog, every box that [packOptimal]
    returns holds at least one item and has a type of the catalog, and
    there are at most as many boxes as items. *)
Theorem packing_uses_catalog_boxes_none_empty
    (input : list Item.t) (boxTypes : list Box.t) :
  Forall (fun box => items box <> [] /\ In (boxType box) boxTypes)
    (packOptimal input boxTypes) /\
  (List.length (packOptimal input boxTypes) <= List.length input)%nat.
Proof.
  unfold packOptimal, packOptimalLog.
  destruct input as [|x rest]; [split; [constructor | apply Nat.le_refl]|].
  set (its := x :: rest).
  destruct (phase1 (sort_by byVolumeDesc its) (sort_by byVolumeAsc boxTypes))
    as [box|] eqn:E1.
  - cbn [fst]. destruct (phase1_some _ _ E1) as (bf & af & Hsplit & _ & _ & Hit).
    split; [|simpl; lia].
    constructor; [|constructor]. split.
    + rewrite Hit. intro Hn. apply sort_by_nil in Hn. discriminate.
    + apply (sort_by_In byVolumeAsc). rewrite Hsplit.
      apply in_or_app. right. left. reflexivity.
  - destruct (@phase2_shape (sort_by byVolumeAsc boxTypes)
                (List.length (sort_by byVolumeDesc its)) (List.length its)
                [] (sort_by byVolumeDesc its) [])
      as [Hs Hl]; [constructor | rewrite sort_by_length; simpl; lia | lia |].
    split; [|exact Hl].
    eapply Forall_impl; [|exact Hs].
    intros box [Hne Hin]. split; [exact Hne|].
    apply (sort_by_In byVolumeAsc). exact Hin.
Qed.

(** ** Properties kept box by box *)

Section Boxwise.
Variable sorted : list Box.t.
Variable P : PackedBox -> Prop.
Variable R : Item.t -> Prop.

Hypothesis P_addItem :
  forall box item, P box -> R item -> accepts item box = true ->
                   P (addItem box item).

Hypothesis P_newBox :
  forall item b, R item -> find (canHoldAlone item) sorted = Some b ->
                 P (mkPacked b [item] (getItemVolume item) (Item.weight item)).

Lemma fillFurther_boxwise (box : PackedBox) (l : list Item.t) :
  P box -> Forall R l -> P (fst (fillFurther box l)).
Proof.
  intros Hb Hl. revert box Hb.
  induction Hl as [|x l Hx Hl IH]; intros box Hb; simpl; [exact Hb|].
  fold (accepts x box). destruct (accepts x box) eqn:Ea.
  - apply IH. apply P_addItem; assumption.
  - specialize (IH box Hb). destruct (fillFurther box l). exact IH.
Qed.

Lemma phase2_boxwise (fuel : nat) (packed : list PackedBox)
    (unpacked : list Item.t) (console : list string) :
  Forall P packed -> Forall R unpacked ->
  (List.length unpacked <= fuel)%nat ->
  Forall P (fst (phase2 fuel sorted packed unpacked console)).
Proof.
  intros Hp Hu Hlen.
  destruct (@phase2_rule sorted
              (fun pk un _ => Forall P pk /\ Forall R un))
    with (fuel := fuel) (packed := packed) (unpacked := unpacked)
         (console := console)
    as (packed' & console' & -> & Hp' & _); auto.
  - intros pk cur rest _ i target [Hpk Hcr] _ Hn Ha.
    inversion Hcr; subst. split.
    + apply setNth_Forall; [exact Hpk|].
      apply fillFurther_boxwise; [|assumption].
      apply P_addItem; [|assumption|exact Ha].
      eapply nth_error_Forall; eassumption.
    + apply fillFurther_unpacked_Forall. assumption.
  - intros pk cur rest _ nb [Hpk Hcr] _ Hf. simpl.
    inversion Hcr; subst. split.
    + apply Forall_app. split; [exact Hpk|]. constructor; [|constructor].
      apply fillFurther_boxwise; [|assumption].
      apply P_newBox; assumption.
    + apply fillFurther_unpacked_Forall. assumption.
  - intros pk cur rest _ [Hpk Hcr] _ _. inversion Hcr; subst. split; assumption.
Qed.

End Boxwise.

Lemma addItem_holdsEachAlone (box : PackedBox) (item : Item.t) :
  holdsEachAlone box -> weightNonneg item -> accepts item box = true ->
  holdsEachAlone (addItem box item).
Proof.
  intros [Htw Hall] Hw Ha. unfold weightNonneg in Hw.
  apply doesItemFit_iff in Ha. destruct Ha as (Hax & _ & Hmax).
  split; simpl; [lra|].
  apply Forall_app. split; [exact Hall|]. constructor; [|constructor].
  apply canHoldAlone_iff. split; [exact Hax | lra].
Qed.

(** X2.  For items with non-negative weights and any catalog, every item
    that [packOptimal] has put in a box would fit that box alone: it is
    within the three axis limits and the maximum weight of the type of its
    box. *)
Theorem packed_item_fits_its_box_alone
    (input : list Item.t) (boxTypes : list Box.t) :
  Forall weightNonneg input ->
  Forall
    (fun box =>
       Forall
         (fun item =>
            fitsAxes item (boxType box) /\
            Item.weight item <= Box.maxWeight (boxType box))
         (items box))
    (packOptimal input boxTypes).
Proof.
  intros Hw.
  assert (Forall holdsEachAlone (packOptimal input boxTypes)) as Hall.
  { unfold packOptimal, packOptimalLog.
    destruct input as [|x rest]; [constructor|].
    set (its := x :: rest) in *.
    assert (Forall weightNonneg (sort_by byVolumeDesc its)) as Hws
      by (apply sort_by_Forall; exact Hw).
    destruct (phase1 (sort_by byVolumeDesc its) (sort_by byVolumeAsc boxTypes))
      as [box|] eqn:E1.
    - cbn [fst]. constructor; [|constructor].
      destruct (phase1_some _ _ E1) as (bf & af & _ & _ & Hsome & Hit).
      destruct (allItemsFit_totals _ _ _ _ Hsome) as [_ Htw].
      split.
      + rewrite Htw. pose proof (itemsWeight_nonneg Hws). lra.
      + rewrite Hit. eapply allItemsFit_holdable; [|apply Qle_refl|exact Hws].
        rewrite Hsome. discriminate.
    - apply phase2_boxwise with (R := weightNonneg);
        [| |constructor|exact Hws|apply Nat.le_refl].
      + intros box item Hb Hi Ha. apply addItem_holdsEachAlone; assumption.
      + intros item b Hi Hf. destruct (find_some _ _ Hf) as [_ Hc].
        split; simpl; [exact Hi|]. constructor; [exact Hc | constructor]. }
  eapply Forall_impl; [|exact Hall].
  intros box [_ Hitems].
  eapply Forall_impl; [|exact Hitems].
  intros item Hc. apply canHoldAlone_iff. exact Hc.
Qed.

Lemma packed_item_fits_its_box_alone_witness :
  Forall
    (fun box =>
       Forall
         (fun item =>
            fitsAxes item (boxType box) /\
            Item.weight item <= Box.maxWeight (boxType box))
         (items box))
    (packOptimal [laptop; keyboard; book; mug] AMAZON_BOX_SIZES).
Proof.
  apply packed_item_fits_its_box_alone.
  repeat constructor; unfold weightNonneg; simpl; discriminate.
Defined.

(** ** Consolidation against shipping every item alone *)












(** ** The order of the inputs *)

Lemma sorted_perm_unique (A : Type) (cmp : A -> A -> Q) (l1 l2 : list A) :
  StronglySorted (before cmp) l1 -> StronglySorted (before cmp) l2 ->
  Permutation l1 l2 -> tiesAreEqual cmp l1 -> l1 = l2.
Proof.
  intros H1. revert l2.
  induction H1 as [|a l1 Hs1 IH Ha]; intros l2 H2 Hp Ht.
  - apply Permutation_nil in Hp. subst. reflexivity.
  - destruct l2 as [|b l2];
      [apply Permutation_sym, Permutation_nil in Hp; discriminate|].
    inversion H2 as [|? ? Hs2 Hb]; subst.
    assert (a = b) as ->.
    { assert (In a (b :: l2)) as Hain
        by (eapply Permutation_in; [exact Hp | left; reflexivity]).
      assert (In b (a :: l1)) as Hbin
        by (eapply Permutation_in;
            [apply Permutation_sym; exact Hp | left; reflexivity]).
      destruct Hain as [-> | Hain]; [reflexivity|].
      destruct Hbin as [-> | Hbin]; [reflexivity|].
      rewrite Forall_forall in Ha, Hb.
      apply Ht; [left; reflexivity | right; exact Hbin | |].
      - apply Ha. exact Hbin.
      - apply Hb. exact Hain. }
    f_equal. apply IH; [exact Hs2 | eapply Permutation_cons_inv; exact Hp|].
    intros x y Hx Hy. apply Ht; right; assumption.
Qed.

Lemma sort_by_perm_eq (A : Type) (cmp : A -> A -> Q) (l l' : list A) :
  (forall x y, 0 < cmp x y -> cmp y x <= 0) ->
  (forall x y z, cmp x y <= 0 -> cmp y z <= 0 -> cmp x z <= 0) ->
  Permutation l l' -> tiesAreEqual cmp l ->
  sort_by cmp l = sort_by cmp l'.
Proof.
  intros Htot Htr Hp Ht.
  apply sorted_perm_unique with (cmp := cmp).
  - apply sort_by_sorted; assumption.
  - apply sort_by_sorted; assumption.
  - rewrite !sort_by_perm. exact Hp.
  - intros x y Hx Hy. apply Ht; apply (sort_by_In cmp); assumption.
Qed.

(** X4.  The packing does not depend on the order in which the cart lists
    its items, nor on the order of the catalog, as long as the sort has no
    ties to break: if items of equal volume are the same item and box
    types of equal volume are the same type, [packOptimal] returns the same
    boxes, and writes the same warnings, for every reordering of the items
    and of the catalog. *)
Theorem packing_ignores_input_order
    (input input' : list Item.t) (boxTypes boxTypes' : list Box.t) :
  Permutation input input' -> Permutation boxTypes boxTypes' ->
  tiesAreEqual byVolumeDesc input -> tiesAreEqual byVolumeAsc boxTypes ->
  packOptimalLog input boxTypes = packOptimalLog input' boxTypes' /\
  packOptimal input boxTypes = packOptimal input' boxTypes'.
Proof.
  intros Hpi Hpb Hti Htb.
  assert (packOptimalLog input boxTypes = packOptimalLog input' boxTypes') as E.
  { unfold packOptimalLog.
    assert (sort_by byVolumeDesc input = sort_by byVolumeDesc input') as ->.
    { apply sort_by_perm_eq; try assumption;
        unfold byVolumeDesc; intros; lra. }
    assert (sort_by byVolumeAsc boxTypes = sort_by byVolumeAsc boxTypes') as ->.
    { apply sort_by_perm_eq; try assumption;
        unfold byVolumeAsc; intros; lra. }
    destruct input as [|x rest].
    - apply Permutation_nil in Hpi. subst. reflexivity.
    - destruct input' as [|x' rest'];
        [apply Permutation_sym, Permutation_nil in Hpi; discriminate|].
      reflexivity. }
  split; [exact E|]. unfold packOptimal. rewrite E. reflexivity.
Qed.

Lemma packing_ignores_input_order_witness :
  packOptimalLog [book; mug; laptop] AMAZON_BOX_SIZES
  = packOptimalLog [laptop; book; mug] (rev AMAZON_BOX_SIZES) /\
  packOptimal [book; mug; laptop] AMAZON_BOX_SIZES
  = packOptimal [laptop; book; mug] (rev AMAZON_BOX_SIZES).
Proof.
  apply packing_ignores_input_order.
  - apply Permutation_sym. apply perm_trans with (l' := [book; laptop; mug]).
    + apply perm_swap.
    + apply perm_skip. apply perm_swap.
  - apply Permutation_rev.
  - intros x y Hx Hy H1 H2. simpl in Hx, Hy.
    unfold byVolumeDesc, getItemVolume in H1, H2.
    destruct Hx as [<- | [<- | [<- | []]]];
      destruct Hy as [<- | [<- | [<- | []]]];
      first [reflexivity | exfalso; simpl in H1, H2; lra].
  - intros x y Hx Hy H1 H2. simpl in Hx, Hy.
    unfold byVolumeAsc in H1, H2.
    destruct Hx as [<- | [<- | [<- | [<- | []]]]];
      destruct Hy as [<- | [<- | [<- | [<- | []]]]];
      first [reflexivity | exfalso; simpl in H1, H2; lra].
Defined.

(** ** The simulation in rounds *)

Lemma tryAddLoop_stuck (item : Item.t) (boxes : list PackedBox) (q n : nat) :
  tryAddLoop item 1 boxes n = (n, boxes) ->
  tryAddLoop item q boxes n = (n, boxes).
Proof.
  destruct q as [|q]; [reflexivity|]. simpl.
  destruct (bestFitBox item boxes) as [i|]; [|reflexivity].
  destruct (nth_error boxes i) as [target|]; [|reflexivity].
  intro H. injection H as Hn _. lia.
Qed.

Lemma tryAddLoop_app (item : Item.t) (q1 q2 : nat) (boxes : list PackedBox)
    (n : nat) :
  tryAddLoop item (q1 + q2) boxes n
  = tryAddLoop item q2 (snd (tryAddLoop item q1 boxes n))
      (fst (tryAddLoop item q1 boxes n)).
Proof.
  revert boxes n. induction q1 as [|q1 IH]; intros boxes n; [reflexivity|].
  cbn [Nat.add tryAddLoop].
  destruct (bestFitBox item boxes) as [i|] eqn:Eb.
  - destruct (nth_error boxes i) as [target|] eqn:En.
    + apply IH.
    + cbn [fst snd]. symmetry. apply tryAddLoop_stuck.
      simpl. rewrite Eb, En. reflexivity.
  - cbn [fst snd]. symmetry. apply tryAddLoop_stuck.
    simpl. rewrite Eb. reflexivity.
Qed.

(** A loop that stops short of the requested quantity leaves boxes that
    accept no further unit. *)
Lemma tryAddLoop_short (item : Item.t) (q : nat) (boxes : list PackedBox) (n : nat) :
  (fst (tryAddLoop item q boxes n) < n + q)%nat ->
  tryAddLoop item 1 (snd (tryAddLoop item q boxes n))
    (fst (tryAddLoop item q boxes n))
  = tryAddLoop item q boxes n.
Proof.
  revert boxes n. induction q as [|q IH]; intros boxes n; [simpl; lia|].
  cbn [tryAddLoop].
  destruct (bestFitBox item boxes) as [i|] eqn:Eb.
  - destruct (nth_error boxes i) as [target|] eqn:En.
    + intro H. apply IH. lia.
    + intros _. simpl. rewrite Eb, En. reflexivity.
  - intros _. simpl. rewrite Eb. reflexivity.
Qed.

(** X5.  Simulating [q1 + q2] units in one call is simulating [q1] units
    and then [q2] more on the boxes that the first call returned: the final
    boxes are the same and the counts add up. *)
Theorem simulation_in_two_rounds
    (item : Item.t) (q1 q2 : nat) (existing : list PackedBox) :
  let whole := tryAddItemsToExistingBoxes item (q1 + q2) existing in
  let first := tryAddItemsToExistingBoxes item q1 existing in
  let second := tryAddItemsToExistingBoxes item q2 (newPackedBoxes first) in
  newPackedBoxes whole = newPackedBoxes second /\
  quantityAdded whole = (quantityAdded first + quantityAdded second)%nat.
Proof.
  intros whole first second. subst whole first second.
  rewrite !tryAdd_newPackedBoxes, !tryAdd_quantityAdded.
  rewrite tryAddLoop_app.
  rewrite (tryAddLoop_count item q2 _ (fst (tryAddLoop item q1 existing 0))).
  split; reflexivity.
Qed.

(** X6.  Asking the simulator for more units never places fewer, and once
    a request has been cut short every larger request has the same result:
    the count of units placed is the requested quantity capped by what the
    boxes take. *)
Theorem simulation_saturates
    (item : Item.t) (q q' : nat) (existing : list PackedBox) :
  (q <= q')%nat ->
  let r := tryAddItemsToExistingBoxes item q existing in
  let r' := tryAddItemsToExistingBoxes item q' existing in
  (quantityAdded r <= quantityAdded r')%nat /\
  ((quantityAdded r < q)%nat -> r' = r).
Proof.
  intros Hle r r'. subst r r'.
  replace q' with (q + (q' - q))%nat by lia.
  split.
  - rewrite !tryAdd_quantityAdded, tryAddLoop_app.
    rewrite (tryAddLoop_count item (q' - q) _ (fst (tryAddLoop item q existing 0))).
    simpl. lia.
  - rewrite tryAdd_quantityAdded. intro Hshort.
    unfold tryAddItemsToExistingBoxes. rewrite tryAddLoop_app.
    rewrite tryAddLoop_stuck.
    + destruct (tryAddLoop item q existing 0). reflexivity.
    + rewrite tryAddLoop_short by (simpl; exact Hshort).
      destruct (tryAddLoop item q existing 0). reflexivity.
Qed.

Lemma simulation_saturates_witness :
  let existing := packOptimal [book; keyboard] AMAZON_BOX_SIZES in
  let r := tryAddItemsToExistingBoxes mug 30 existing in
  let r' := tryAddItemsToExistingBoxes mug 40 existing in
  (quantityAdded r <= quantityAdded r')%nat /\
  ((quantityAdded r < 30)%nat -> r' = r).
Proof. apply simulation_saturates. lia. Defined.

(** ** What the simulation does to a box *)

Lemma withUnits_zero (item : Item.t) (box : PackedBox) : withUnits item 0 box box.
Proof.
  unfold withUnits. simpl. rewrite app_nil_r.
  split; [reflexivity|]. split; [reflexivity|]. split; ring.
Qed.

Lemma withUnits_addItem (item : Item.t) (k : nat) (old box : PackedBox) :
  withUnits item k old box -> withUnits item (S k) old (addItem box item).
Proof.
  intros (Hty & Hit & Hv & Hw). unfold withUnits, addItem.
  cbn [boxType items filledVolume totalWeight].
  split; [exact Hty|]. split.
  - rewrite Hit, <- app_assoc. f_equal.
    rewrite <- repeat_cons. reflexivity.
  - rewrite Znat.Nat2Z.inj_succ. unfold Z.succ. rewrite inject_Z_plus.
    rewrite Hv, Hw. split; ring.
Qed.

Lemma Forall2_setNth_r (A B : Type) (R R' : A -> B -> Prop) (l : list A)
    (l' : list B) (i : nat) (y y' : B) :
  Forall2 R l l' -> nth_error l' i = Some y ->
  (forall x z, R x z -> R' x z) ->
  (forall x, R x y -> R' x y') ->
  Forall2 R' l (setNth i y' l').
Proof.
  intros H. revert i.
  induction H as [|x z l l' Hxz HF IH]; intros [|i] Hn Hw Hy;
    simpl in *; try discriminate.
  - injection Hn as ->. constructor; [apply Hy; exact Hxz|].
    eapply Forall2_impl; [|exact HF]. exact Hw.
  - constructor; [apply Hw; exact Hxz | apply IH; assumption].
Qed.

(** X7.  The simulator only appends units: each box it returns is the box
    it was given at the same position, of the same type, with some number
    of units of the item added after the items already there, and with the
    filled volume and total weight raised by that many units.  No item
    already packed is moved or removed. *)
Theorem simulation_only_appends_units
    (item : Item.t) (q : nat) (existing : list PackedBox) :
  Forall2 (fun old new => exists k, (k <= q)%nat /\ withUnits item k old new)
    existing
    (newPackedBoxes (tryAddItemsToExistingBoxes item q existing)).
Proof.
  rewrite tryAdd_newPackedBoxes.
  assert (Forall2 (fun old new =>
                     exists k, (k <= fst (tryAddLoop item q existing 0))%nat /\
                               withUnits item k old new)
            existing (snd (tryAddLoop item q existing 0))) as H.
  { apply (@tryAddLoop_rule
             (fun bs n =>
                Forall2 (fun old new =>
                           exists k, (k <= n)%nat /\ withUnits item k old new)
                  existing bs)).
    - intros bs n i target HF _ Hn _.
      eapply Forall2_setNth_r; [exact HF | exact Hn | |].
      + intros old new (k & Hk & Hu). exists k. split; [lia | exact Hu].
      + intros old (k & Hk & Hu). exists (S k).
        split; [lia | apply withUnits_addItem; exact Hu].
    - clear. induction existing as [|b l IH]; constructor; [|exact IH].
      exists 0%nat. split; [lia | apply withUnits_zero]. }
  pose proof (tryAddLoop_bound item q existing) as Hb.
  eapply Forall2_impl; [|exact H].
  intros old new (k & Hk & Hu). exists k. split; [lia | exact Hu].
Qed.

(** ** Suggestions *)

Lemma tryAdd_no_boxes (item : Item.t) (q : nat) :
  tryAddItemsToExistingBoxes item q [] = mkAddResult 0 [] false.
Proof. destruct q; reflexivity. Qed.

(** X8.  When the cart packs into no box at all (an empty cart, or a cart
    of items that no box type holds), nothing can be folded in: every
    entry of the saved map gets a [tooBig] suggestion with the standard
    message, in the order of the map. *)
Theorem no_boxes_every_saved_item_rejected
    (currentFlatItems : list Item.t) (saved : list (string * SavedItem))
    (boxTypes : list Box.t) :
  packOptimal currentFlatItems boxTypes = [] ->
  getBulkOrderSuggestions currentFlatItems saved boxTypes
  = map (fun entry => tooBig (snd entry) tooBigMessage) saved.
Proof.
  intros Hnone. rewrite getBulkOrderSuggestions_flat_map, Hnone.
  induction saved as [|entry saved IH]; [reflexivity|].
  cbn [flat_map map]. rewrite IH.
  unfold suggestionsFor. rewrite tryAdd_no_boxes. reflexivity.
Qed.

Lemma no_boxes_every_saved_item_rejected_witness :
  getBulkOrderSuggestions [] sampleSaved AMAZON_BOX_SIZES
  = map (fun entry => tooBig (snd entry) tooBigMessage) sampleSaved.
Proof. apply no_boxes_every_saved_item_rejected. reflexivity. Defined.




(** ** The efficiency gained by folding in *)

Lemma totals_setNth (boxes : list PackedBox) (i : nat) (target box' : PackedBox) :
  nth_error boxes i = Some target -> boxType box' = boxType target ->
  totalFilled (setNth i box' boxes)
  == totalFilled boxes - filledVolume target + filledVolume box' /\
  totalCapacity (setNth i box' boxes) == totalCapacity boxes.
Proof.
  revert i. induction boxes as [|b boxes IH]; intros [|i] Hn Hty;
    simpl in *; try discriminate.
  - injection Hn as ->. rewrite Hty. split; ring.
  - destruct (IH i Hn Hty) as [H1 H2]. rewrite H1, H2. split; ring.
Qed.

Lemma tryAddLoop_totals (item : Item.t) (q : nat) (boxes : list PackedBox) :
  totalFilled (snd (tryAddLoop item q boxes 0))
  == totalFilled boxes
     + inject_Z (Z.of_nat (fst (tryAddLoop item q boxes 0))) * getItemVolume item /\
  totalCapacity (snd (tryAddLoop item q boxes 0)) == totalCapacity boxes.
Proof.
  apply (@tryAddLoop_rule
           (fun bs n =>
              totalFilled bs
              == totalFilled boxes + inject_Z (Z.of_nat n) * getItemVolume item /\
              totalCapacity bs == totalCapacity boxes)).
  - intros bs n i target [HF HC] _ Hn _.
    destruct (@totals_setNth bs i target (addItem target item) Hn eq_refl)
      as [H1 H2].
    rewrite H1, H2, HF, HC. cbn [addItem filledVolume].
    rewrite Znat.Nat2Z.inj_succ. unfold Z.succ. rewrite inject_Z_plus.
    split; ring.
  - split; ring.
Qed.

Lemma efficiency_of_boxes (boxes : list PackedBox) (l : list Item.t) :
  0 < totalCapacity boxes ->
  packagingEfficiencyScore (calculateMetrics boxes l)
  == totalFilled boxes / totalCapacity boxes * 100.
Proof.
  intros Hc. unfold calculateMetrics. cbn [packagingEfficiencyScore].
  assert (Qgt_bool (totalBoxesVolume boxes) 0 = true) as ->
    by (apply Qgt_bool_iff; rewrite totalBoxesVolume_spec; exact Hc).
  rewrite totalPackedVolume_spec, totalBoxesVolume_spec. reflexivity.
Qed.

Lemma packOptimal_capacity (input : list Item.t) (boxTypes : list Box.t) :
  Forall dimsPositive input -> Forall volumeCoversDims boxTypes ->
  packOptimal input boxTypes <> [] ->
  0 < totalCapacity (packOptimal input boxTypes).
Proof.
  intros Hi Hb Hne.
  assert (Forall dimsNonneg input) as Hd
    by (eapply Forall_impl; [|exact Hi]; apply dimsPositive_nonneg).
  pose proof (packOptimal_loaded boxTypes Hi) as Hl.
  pose proof (packOptimal_invariant Hd Hb) as Hinv.
  apply totalFilled_bounds; [exact Hl | | exact Hne].
  eapply Forall_impl; [|exact Hinv]. intros b (_ & _ & Hv & _). exact Hv.
Qed.

(** X10.  For a cart of items with positive dimensions that packs into at
    least one box (the catalog declaring volumes of at least length x
    width x height), the efficiency improvement computed for a saved item
    type is its units that fit times the volume of one unit, as a
    percentage of the total volume of the baseline boxes; it is never
    negative for an item whose dimensions are not negative. *)
Theorem efficiency_gain_of_folding
    (currentFlatItems : list Item.t) (boxTypes : list Box.t) (s : SavedItem) :
  Forall dimsPositive currentFlatItems -> Forall volumeCoversDims boxTypes ->
  packOptimal currentFlatItems boxTypes <> [] ->
  let baseline := packOptimal currentFlatItems boxTypes in
  let metrics := calculateMetrics baseline currentFlatItems in
  efficiencyImprovementOf currentFlatItems baseline metrics s
  == inject_Z (Z.of_nat (unitsThatFit s baseline))
     * getItemVolume (savedItem s) / totalCapacity baseline * 100 /\
  (dimsNonneg (savedItem s) ->
   0 <= efficiencyImprovementOf currentFlatItems baseline metrics s).
Proof.
  intros Hi Hb Hne baseline metrics.
  pose proof (packOptimal_capacity Hi Hb Hne) as Hc. fold baseline in Hc.
  assert (efficiencyImprovementOf currentFlatItems baseline metrics s
          == inject_Z (Z.of_nat (unitsThatFit s baseline))
             * getItemVolume (savedItem s) / totalCapacity baseline * 100) as E.
  { unfold efficiencyImprovementOf, unitsThatFit. subst metrics.
    rewrite tryAdd_newPackedBoxes, tryAdd_quantityAdded.
    destruct (tryAddLoop_totals (savedItem s) (quantity s) baseline) as [HF HC].
    rewrite !efficiency_of_boxes by (try rewrite HC; exact Hc).
    rewrite HF, HC. field. intro Hz. rewrite Hz in Hc. inversion Hc. }
  split; [exact E|].
  intros Hd. rewrite E.
  pose proof (getItemVolume_nonneg Hd) as Hv.
  assert (0 <= inject_Z (Z.of_nat (unitsThatFit s baseline))) as Hn.
  { change 0 with (inject_Z 0). rewrite <- Zle_Qle. apply Znat.Nat2Z.is_nonneg. }
  apply Qmult_le_0_compat; [|discriminate].
  apply Qle_shift_div_l; [exact Hc|]. rewrite Qmult_0_l.
  apply Qmult_le_0_compat; assumption.
Qed.

Lemma efficiency_gain_of_folding_witness :
  let baseline := packOptimal [book; mug] AMAZON_BOX_SIZES in
  let metrics := calculateMetrics baseline [book; mug] in
  efficiencyImprovementOf [book; mug] baseline metrics (mkSaved mug 3)
  == inject_Z (Z.of_nat (unitsThatFit (mkSaved mug 3) baseline))
     * getItemVolume (savedItem (mkSaved mug 3)) / totalCapacity baseline * 100 /\
  (dimsNonneg (savedItem (mkSaved mug 3)) ->
   0 <= efficiencyImprovementOf [book; mug] baseline metrics (mkSaved mug 3)).
Proof.
  apply efficiency_gain_of_folding.
  - repeat constructor.
  - repeat constructor; unfold volumeCoversDims; simpl; discriminate.
  - vm_compute. discriminate.
Defined.

(** ** The fill bar *)

(** X11.  For items with positive dimensions and a catalog whose box types
    declare a volume of at least length x width x height, the fill
    percentage that [PackingVisualization] draws for a box of [packOptimal]
    is above 0 and at most 100: no bar is empty and none overflows. *)
Theorem fill_bar_in_range (input : list Item.t) (boxTypes : list Box.t) :
  Forall dimsPositive input -> Forall volumeCoversDims boxTypes ->
  Forall (fun box => 0 < filledPercentage box <= 100)
    (packOptimal input boxTypes).
Proof.
  intros Hi Hb. apply Forall_forall. intros box Hin.
  assert (Forall dimsNonneg input) as Hd
    by (eapply Forall_impl; [|exact Hi]; apply dimsPositive_nonneg).
  pose proof (packOptimal_loaded boxTypes Hi) as Hl.
  pose proof (packOptimal_invariant Hd Hb) as Hinv.
  rewrite Forall_forall in Hl, Hinv.
  specialize (Hl box Hin). destruct (Hinv box Hin) as (_ & _ & Hv & _).
  unfold loaded in Hl. unfold filledPercentage.
  assert (0 < Box.volume (boxType box)) as Hpos by lra.
  split.
  - apply Qlt_le_trans with (y := filledVolume box / Box.volume (boxType box) * 1).
    + rewrite Qmult_1_r. apply Qlt_shift_div_l; [exact Hpos | lra].
    + apply Qmult_le_l; [|discriminate].
      apply Qlt_shift_div_l; [exact Hpos | lra].
  - setoid_replace 100 with (1 * 100) at 2 by reflexivity.
    apply Qmult_le_compat_r; [|discriminate].
    apply Qle_shift_div_r; [exact Hpos | lra].
Qed.

Lemma fill_bar_in_range_witness :
  Forall (fun box => 0 < filledPercentage box <= 100)
    (packOptimal [laptop; keyboard; book; mug] AMAZON_BOX_SIZES).
Proof.
  apply fill_bar_in_range.
  - repeat constructor.
  - repeat constructor; unfold volumeCoversDims; simpl; discriminate.
Defined.

(** ** Objects used as maps: reading after writing *)

Section ObjLaws.
Variable V : Type.
Implicit Types (obj : Obj.t V) (k : string) (v : V).

Lemma get_set_same obj k v : Obj.get k (Obj.set k v obj) = Some v.
Proof.
  induction obj as [|[k' v'] obj IH]; simpl.
  - rewrite String.eqb_refl. reflexivity.
  - destruct (String.eqb k k') eqn:E; simpl; rewrite E; [reflexivity | exact IH].
Qed.





Lemma get_Some_In obj k v : Obj.get k obj = Some v -> In (k, v) obj.
Proof.
  induction obj as [|[k' v'] obj IH]; simpl; [discriminate|].
  destruct (String.eqb k k') eqn:E.
  - apply String.eqb_eq in E. subst. intro H. injection H as ->. left. reflexivity.
  - intro H. right. apply IH. exact H.
Qed.





Lemma keys_delete_subset obj k k' :
  In k' (Obj.keys (Obj.delete k obj)) -> In k' (Obj.keys obj).
Proof.
  unfold Obj.keys, Obj.delete. rewrite !in_map_iff.
  intros ([k0 v0] & <- & Hin). apply filter_In in Hin.
  exists (k0, v0). split; [reflexivity | apply Hin].
Qed.

Lemma NoDup_keys_delete obj k :
  NoDup (Obj.keys obj) -> NoDup (Obj.keys (Obj.delete k obj)).
Proof.
  induction obj as [|[k' v'] obj IH]; simpl; [constructor|].
  intro H. inversion H as [|? ? Hnin Hnd]; subst.
  unfold Obj.delete. simpl. destruct (String.eqb k k'); simpl.
  - apply IH. exact Hnd.
  - constructor; [|apply IH; exact Hnd].
    intro Hin. apply Hnin. eapply keys_delete_subset. exact Hin.
Qed.

Lemma keys_set_subset obj k v k' :
  In k' (Obj.keys (Obj.set k v obj)) -> k' = k \/ In k' (Obj.keys obj).
Proof.
  induction obj as [|[k0 v0] obj IH]; simpl.
  - intros [<- | []]. left. reflexivity.
  - destruct (String.eqb k k0) eqn:E; simpl.
    + tauto.
    + intros [<- | H]; [tauto|]. destruct (IH H); tauto.
Qed.

Lemma NoDup_keys_set obj k v :
  NoDup (Obj.keys obj) -> NoDup (Obj.keys (Obj.set k v obj)).
Proof.
  induction obj as [|[k' v'] obj IH]; simpl.
  - intros _. constructor; [intros [] | constructor].
  - intro H. inversion H as [|? ? Hnin Hnd]; subst.
    destruct (String.eqb k k') eqn:E; simpl.
    + constructor; assumption.
    + constructor; [|apply IH; exact Hnd].
      intro Hin. destruct (keys_set_subset _ _ _ _ Hin) as [-> | Hin'].
      * rewrite String.eqb_refl in E. discriminate.
      * contradiction.
Qed.

Lemma Forall_set (P : string * V -> Prop) obj k v :
  Forall P obj -> P (k, v) -> Forall P (Obj.set k v obj).
Proof.
  intros H Hkv. induction H as [|[k' v'] obj Hx HF IH]; simpl.
  - constructor; [exact Hkv | constructor].
  - destruct (String.eqb k k') eqn:E.
    + apply String.eqb_eq in E. subst k'. constructor; assumption.
    + constructor; assumption.
Qed.

Lemma Forall_delete (P : string * V -> Prop) obj k :
  Forall P obj -> Forall P (Obj.delete k obj).
Proof.
  intro H. unfold Obj.delete. apply Forall_forall. intros x Hx.
  apply filter_In in Hx. rewrite Forall_forall in H. apply H, Hx.
Qed.

End ObjLaws.

(** ** Counting the units of a state object *)

Lemma totalItemsInCart_spec (cart : ItemMap) :
  totalItemsInCart cart = list_sum (map (fun entry => quantity (snd entry)) cart).
Proof.
  unfold totalItemsInCart, cartAsList, Obj.values.
  assert (forall a,
            fold_left (fun sum item => (sum + quantity item)%nat) (map snd cart) a
            = (a + list_sum (map (fun entry => quantity (snd entry)) cart))%nat)
    as H.
  { induction cart as [|[k e] cart IH]; intros a; simpl; [lia|].
    rewrite IH. lia. }
  rewrite H. reflexivity.
Qed.




(** ** The handlers of the cart *)


Lemma handleUpdateQuantity_wellFormed (item : Item.t) (change : Z) (prev : ItemMap) :
  wellFormed prev -> wellFormed (handleUpdateQuantity item change prev).
Proof.
  intros [Hnd Hall]. unfold handleUpdateQuantity.
  destruct (0 <? _)%Z eqn:E.
  - split; [apply NoDup_keys_set; exact Hnd|].
    apply Forall_set; [exact Hall|]. simpl. split; [reflexivity|].
    apply Z.ltb_lt in E. lia.
  - split; [apply NoDup_keys_delete; exact Hnd | apply Forall_delete; exact Hall].
Qed.

(** X13.  The three handlers keep the two state objects well formed: no
    key twice, every entry under the id of its item, every quantity at
    least one.  [moveToSavedForLater] needs an entry that holds at least
    one unit, [moveToCartFromSaved] a quantity to move of at least one. *)
Theorem handlers_keep_states_well_formed (state : AppState) :
  wellFormed (cartItems state) -> wellFormed (savedForLaterItems state) ->
  (forall item change,
     wellFormed (handleUpdateQuantity item change (cartItems state))) /\
  (forall entry,
     (0 < quantity entry)%nat ->
     wellFormed (cartItems (moveToSavedForLater entry state)) /\
     wellFormed (savedForLaterItems (moveToSavedForLater entry state))) /\
  (forall entry quantityToMove,
     (0 < quantityToMove)%nat ->
     wellFormed (cartItems (moveToCartFromSaved entry quantityToMove state)) /\
     wellFormed (savedForLaterItems (moveToCartFromSaved entry quantityToMove state))).
Proof.
  intros Hc Hs. split; [|split].
  - intros item change. apply handleUpdateQuantity_wellFormed. exact Hc.
  - intros entry Hq. destruct Hc as [Hnc Hac], Hs as [Hns Has].
    unfold moveToSavedForLater. cbn [cartItems savedForLaterItems]. split.
    + split; [apply NoDup_keys_delete; exact Hnc | apply Forall_delete; exact Hac].
    + split; [apply NoDup_keys_set; exact Hns|].
      apply Forall_set; [exact Has|]. simpl. split; [reflexivity | lia].
  - intros entry qm Hq. destruct Hc as [Hnc Hac], Hs as [Hns Has].
    unfold moveToCartFromSaved. cbn [cartItems savedForLaterItems]. split.
    + split; [apply NoDup_keys_set; exact Hnc|].
      apply Forall_set; [exact Hac|]. simpl. split; [reflexivity | lia].
    + destruct (Obj.get _ (savedForLaterItems state)) as [held|] eqn:E;
        [|split; assumption].
      destruct (_ <=? 0)%Z eqn:El.
      * split; [apply NoDup_keys_delete; exact Hns
               | apply Forall_delete; exact Has].
      * split; [apply NoDup_keys_set; exact Hns|].
        apply Forall_set; [exact Has|]. simpl.
        apply get_Some_In in E. rewrite Forall_forall in Has.
        destruct (Has _ E) as [Hid _]. simpl in Hid.
        split; [exact Hid|]. apply Z.leb_gt in El. lia.
Qed.

Ltac distinct_keys :=
  repeat (constructor; [simpl; intuition discriminate|]); constructor.

Lemma handlers_keep_states_well_formed_witness :
  (forall item change,
     wellFormed (handleUpdateQuantity item change (cartItems sampleState))) /\
  (forall entry,
     (0 < quantity entry)%nat ->
     wellFormed (cartItems (moveToSavedForLater entry sampleState)) /\
     wellFormed (savedForLaterItems (moveToSavedForLater entry sampleState))) /\
  (forall entry quantityToMove,
     (0 < quantityToMove)%nat ->
     wellFormed (cartItems (moveToCartFromSaved entry quantityToMove sampleState)) /\
     wellFormed
       (savedForLaterItems (moveToCartFromSaved entry quantityToMove sampleState))).
Proof.
  apply handlers_keep_states_well_formed.
  - split; [distinct_keys | repeat constructor].
  - split; [distinct_keys | repeat constructor].
Defined.



(** ** The list handed to the engine *)


(** X15.  [flatItemList] has one element per unit in the cart: its length
    is [totalItemsInCart], and its elements are the items of the entries
    that hold at least one unit. *)
Theorem flat_list_has_one_element_per_unit (cart : ItemMap) :
  List.length (flatItemList cart) = totalItemsInCart cart /\
  forall item,
    In item (flatItemList cart) <->
    exists entry, In entry (cartAsList cart) /\ savedItem entry = item /\
                  (0 < quantity entry)%nat.
Proof.
  split.
  - rewrite totalItemsInCart_spec. unfold flatItemList, cartAsList, Obj.values.
    induction cart as [|[k e] cart IH]; simpl; [reflexivity|].
    rewrite length_app, repeat_length, IH. reflexivity.
  - intros item. unfold flatItemList. rewrite in_flat_map. split.
    + intros (e & He & Hin). apply repeat_spec in Hin as Heq.
      exists e. split; [exact He|]. split; [congruence|].
      destruct (quantity e); [contradiction | lia].
    + intros (e & He & <- & Hq). exists e. split; [exact He|].
      destruct (quantity e); [lia | left; reflexivity].
Qed.



(** ** Moving between the cart and the saved list *)








(** ** The box counts behind the box breakdown *)




(** ** The saved list over a store: a write into the previous state *)

Lemma view_write_other (h : CartStore.store) (obj : CartStore.StateObject)
    (l : CartStore.loc) (e : CartStore.Entry) :
  ~ In l (Obj.values obj) ->
  CartStore.view (setNth l e h) obj = CartStore.view h obj.
Proof.
  induction obj as [|[k l0] obj IH]; simpl; [reflexivity|].
  intros Hnin. rewrite nth_error_setNth_other by (intros ->; tauto).
  rewrite IH by tauto. reflexivity.
Qed.

Lemma get_values (V : Type) (obj : Obj.t V) (k : string) (v : V) :
  Obj.get k obj = Some v -> In v (Obj.values obj).
Proof.
  intro H. apply get_Some_In in H. unfold Obj.values.
  apply in_map_iff. exists (k, v). split; [reflexivity | exact H].
Qed.

Lemma view_get (h : CartStore.store) (obj : CartStore.StateObject)
    (entries : Obj.t CartStore.Entry) (k : string) :
  CartStore.view h obj = Some entries ->
  Obj.get k entries
  = match Obj.get k obj with
    | Some l => nth_error h l
    | None => None
    end.
Proof.
  revert entries. induction obj as [|[k0 l0] obj IH]; intros entries; simpl.
  - intro H. injection H as <-. reflexivity.
  - destruct (nth_error h l0) as [e0|] eqn:E0; [|discriminate].
    destruct (CartStore.view h obj) as [rest|]; [|discriminate].
    intro H. injection H as <-. simpl.
    destruct (String.eqb k k0); [symmetry; exact E0 | apply IH; reflexivity].
Qed.

Lemma view_write (h : CartStore.store) (obj : CartStore.StateObject)
    (entries : Obj.t CartStore.Entry) (k : string) (l : CartStore.loc)
    (e : CartStore.Entry) :
  CartStore.view h obj = Some entries -> NoDup (Obj.values obj) ->
  Obj.get k obj = Some l ->
  CartStore.view (setNth l e h) obj = Some (Obj.set k e entries).
Proof.
  revert entries. induction obj as [|[k0 l0] obj IH]; intros entries; simpl;
    [discriminate|].
  destruct (nth_error h l0) as [e0|] eqn:E0; [|discriminate].
  destruct (CartStore.view h obj) as [rest|] eqn:Ev; [|discriminate].
  intros H Hnd Hget. injection H as <-.
  inversion Hnd as [|? ? Hnin Hnd']; subst. simpl.
  destruct (String.eqb k k0) eqn:E.
  - injection Hget as ->. apply String.eqb_eq in E. subst k0.
    rewrite nth_error_setNth_same by (eapply nth_error_lt; exact E0).
    rewrite view_write_other by exact Hnin. rewrite Ev. reflexivity.
  - assert (l <> l0) as Hne.
    { intros ->. apply Hnin. eapply get_values. exact Hget. }
    rewrite nth_error_setNth_other by exact Hne. rewrite E0.
    rewrite (IH rest eq_refl Hnd' Hget). reflexivity.
Qed.

Lemma view_delete (h : CartStore.store) (obj : CartStore.StateObject)
    (entries : Obj.t CartStore.Entry) (k : string) :
  CartStore.view h obj = Some entries ->
  CartStore.view h (Obj.delete k obj) = Some (Obj.delete k entries).
Proof.
  revert entries. induction obj as [|[k0 l0] obj IH]; intros entries; simpl.
  - intro H. injection H as <-. reflexivity.
  - destruct (nth_error h l0) as [e0|] eqn:E0; [|discriminate].
    destruct (CartStore.view h obj) as [rest|]; [|discriminate].
    intro H. injection H as <-. unfold Obj.delete in *. simpl.
    destruct (String.eqb k k0); simpl.
    + apply IH. reflexivity.
    + rewrite E0, (IH rest eq_refl). reflexivity.
Qed.

Lemma delete_set (V : Type) (obj : Obj.t V) (k : string) (v : V) :
  Obj.get k obj <> None -> Obj.delete k (Obj.set k v obj) = Obj.delete k obj.
Proof.
  induction obj as [|[k0 v0] obj IH]; simpl; [congruence|].
  destruct (String.eqb k k0) eqn:E; intro H.
  - unfold Obj.delete. simpl. rewrite E. reflexivity.
  - unfold Obj.delete in *. simpl. rewrite E. simpl. rewrite IH by exact H.
    reflexivity.
Qed.

Lemma set_set (V : Type) (obj : Obj.t V) (k : string) (v v' : V) :
  Obj.set k v' (Obj.set k v obj) = Obj.set k v' obj.
Proof.
  induction obj as [|[k0 v0] obj IH]; simpl.
  - rewrite String.eqb_refl. reflexivity.
  - destruct (String.eqb k k0) eqn:E; simpl; rewrite E; [reflexivity|].
    rewrite IH. reflexivity.
Qed.

(** One run of the updater on a state object whose entry objects are not
    shared between keys. *)
Lemma savedUpdater_run (id : string) (quantityToMove : Z)
    (prevSaved : CartStore.StateObject) (h : CartStore.store)
    (entries : Obj.t CartStore.Entry) (e : CartStore.Entry) :
  CartStore.view h prevSaved = Some entries ->
  NoDup (Obj.values prevSaved) ->
  Obj.get id entries = Some e ->
  exists newSaved h',
    CartStore.savedUpdater id quantityToMove prevSaved h = Some (newSaved, h') /\
    CartStore.view h' newSaved
    = Some (CartStore.decrement id quantityToMove entries) /\
    CartStore.view h' prevSaved
    = Some (Obj.set id
              (CartStore.mkEntry (CartStore.entryItem e)
                 (CartStore.entryQuantity e - quantityToMove))
              entries).
Proof.
  intros Hv Hnd Hget.
  pose proof (@view_get h prevSaved entries id Hv) as Hg. rewrite Hget in Hg.
  unfold CartStore.savedUpdater, CartStore.decrement. rewrite Hget.
  destruct (Obj.get id prevSaved) as [l|] eqn:El; [|discriminate].
  rewrite <- Hg. cbv zeta.
  pose proof (@view_write h prevSaved entries id l
                (CartStore.mkEntry (CartStore.entryItem e)
                   (CartStore.entryQuantity e - quantityToMove))
                Hv Hnd El) as Hw.
  destruct (_ <=? 0)%Z.
  - eexists. eexists. split; [reflexivity|]. split; [|exact Hw].
    rewrite (@view_delete _ _ _ id Hw). rewrite delete_set by congruence. reflexivity.
  - eexists. eexists. split; [reflexivity|]. split; exact Hw.
Qed.

(** X21.  The updater that [moveToCartFromSaved] hands to
    [setSavedForLaterItems] returns the state that a decrement on a copy
    would give, but it makes the decrement on the entry object that the
    previous state shares: afterwards the previous state shows the
    decreased quantity too.  So the updater is not repeatable: run a second
    time on the same previous state, as a render in strict mode runs it, it
    returns the state of a decrement by twice the quantity. *)
Theorem saved_updater_writes_into_previous_state
    (id : string) (quantityToMove : Z)
    (prevSaved : CartStore.StateObject) (h : CartStore.store)
    (entries : Obj.t CartStore.Entry) (e : CartStore.Entry) :
  CartStore.view h prevSaved = Some entries ->
  NoDup (Obj.values prevSaved) ->
  Obj.get id entries = Some e ->
  exists newSaved h',
    CartStore.savedUpdater id quantityToMove prevSaved h = Some (newSaved, h') /\
    CartStore.view h' newSaved
    = Some (CartStore.decrement id quantityToMove entries) /\
    CartStore.view h' prevSaved
    = Some (Obj.set id
              (CartStore.mkEntry (CartStore.entryItem e)
                 (CartStore.entryQuantity e - quantityToMove))
              entries) /\
    exists newSaved2 h2,
      CartStore.savedUpdater id quantityToMove prevSaved h'
      = Some (newSaved2, h2) /\
      CartStore.view h2 newSaved2
      = Some (CartStore.decrement id (2 * quantityToMove) entries).
Proof.
  intros Hv Hnd Hget.
  destruct (@savedUpdater_run id quantityToMove prevSaved h entries e
              Hv Hnd Hget) as (newSaved & h' & Hrun & Hnew & Hprev).
  exists newSaved, h'. split; [exact Hrun|]. split; [exact Hnew|].
  split; [exact Hprev|].
  destruct (@savedUpdater_run id quantityToMove prevSaved h' _
              (CartStore.mkEntry (CartStore.entryItem e)
                 (CartStore.entryQuantity e - quantityToMove))
              Hprev Hnd (get_set_same _ _ _))
    as (newSaved2 & h2 & Hrun2 & Hnew2 & _).
  exists newSaved2, h2. split; [exact Hrun2|]. rewrite Hnew2. f_equal.
  unfold CartStore.decrement. rewrite get_set_same, Hget.
  cbn [CartStore.entryItem CartStore.entryQuantity].
  replace (CartStore.entryQuantity e - quantityToMove - quantityToMove)%Z
    with (CartStore.entryQuantity e - 2 * quantityToMove)%Z by lia.
  destruct (_ <=? 0)%Z.
  - apply delete_set. congruence.
  - apply set_set.
Qed.

Lemma saved_updater_writes_into_previous_state_witness :
  exists newSaved h',
    CartStore.savedUpdater "mug" 1 sampleSavedObject sampleEntries
    = Some (newSaved, h') /\
    CartStore.view h' newSaved
    = Some (CartStore.decrement "mug" 1
              [("mug"%string, CartStore.mkEntry mug 3);
               ("keyboard"%string, CartStore.mkEntry keyboard 1)]) /\
    CartStore.view h' sampleSavedObject
    = Some (Obj.set "mug"
              (CartStore.mkEntry
                 (CartStore.entryItem (CartStore.mkEntry mug 3))
                 (CartStore.entryQuantity (CartStore.mkEntry mug 3) - 1))
              [("mug"%string, CartStore.mkEntry mug 3);
               ("keyboard"%string, CartStore.mkEntry keyboard 1)]) /\
    exists newSaved2 h2,
      CartStore.savedUpdater "mug" 1 sampleSavedObject h'
      = Some (newSaved2, h2) /\
      CartStore.view h2 newSaved2
      = Some (CartStore.decrement "mug" (2 * 1)
                [("mug"%string, CartStore.mkEntry mug 3);
                 ("keyboard"%string, CartStore.mkEntry keyboard 1)]).
Proof.
  apply saved_updater_writes_into_previous_state.
  - reflexivity.
  - repeat (constructor; [simpl; intuition discriminate|]); constructor.
  - reflexivity.
Defined.

(** Three mugs saved, one moved to the cart: the updater returns a state
    with two mugs, and leaves two mugs in the state it was given; run again
    on that state it returns a state with one mug. *)
Example one_mug_moved_twice :
  match CartStore.savedUpdater "mug" 1 sampleSavedObject sampleEntries with
  | Some (newSaved, h') =>
      option_map (Obj.get "mug") (CartStore.view h' newSaved)
      = Some (Some (CartStore.mkEntry mug 2)) /\
      option_map (Obj.get "mug") (CartStore.view h' sampleSavedObject)
      = Some (Some (CartStore.mkEntry mug 2)) /\
      match CartStore.savedUpdater "mug" 1 sampleSavedObject h' with
      | Some (newSaved2, h2) =>
          option_map (Obj.get "mug") (CartStore.view h2 newSaved2)
          = Some (Some (CartStore.mkEntry mug 1))
      | None => False
      end
  | None => False
  end.
Proof. vm_compute. repeat split; reflexivity. Qed.

(** ** Accepting a suggestion *)




(** ** The boxes that Phase 2 opens *)

Lemma fillFurther_items_Forall (P : Item.t -> Prop) (box : PackedBox)
    (l : list Item.t) :
  Forall P (items box) -> Forall P l ->
  Forall P (items (fst (fillFurther box l))).
Proof.
  intros Hb Hl. revert box Hb.
  induction Hl as [|x l Hx Hl IH]; intros box Hb; simpl; [exact Hb|].
  destruct (doesItemFit _ _ _ _).
  - apply IH. simpl. apply Forall_app. split; [exact Hb|].
    constructor; [exact Hx | constructor].
  - specialize (IH box Hb). destruct (fillFurther box l). exact IH.
Qed.

Lemma fillFurther_unpacked_sorted (R : Item.t -> Item.t -> Prop)
    (box : PackedBox) (l : list Item.t) :
  StronglySorted R l -> StronglySorted R (snd (fillFurther box l)).
Proof.
  intros Hs. revert box.
  induction Hs as [|x l Hs IH Hx]; intros box; simpl; [constructor|].
  destruct (doesItemFit _ _ _ _).
  - apply IH.
  - pose proof (fillFurther_unpacked_Forall box Hx) as Hx'.
    specialize (IH box). destruct (fillFurther box l). simpl in *.
    constructor; assumption.
Qed.

(** A box of the loop with its first item [first]: opened for it with the
    type that the lookup gave, and never given a larger item. *)
Lemma phase2_first_items (sorted : list Box.t) (fuel : nat)
    (unpacked : list Item.t) :
  StronglySorted (fun a b => getItemVolume b <= getItemVolume a) unpacked ->
  (List.length unpacked <= fuel)%nat ->
  Forall
    (fun box =>
       exists first rest,
         items box = first :: rest /\
         find (canHoldAlone first) sorted = Some (boxType box) /\
         Forall (fun item => getItemVolume item <= getItemVolume first)
           (items box))
    (fst (phase2 fuel sorted [] unpacked [])).
Proof.
  intros Hs Hlen.
  destruct (@phase2_rule sorted
              (fun pk un _ =>
                 StronglySorted (fun a b => getItemVolume b <= getItemVolume a) un /\
                 Forall
                   (fun box =>
                      exists first rest,
                        items box = first :: rest /\
                        find (canHoldAlone first) sorted = Some (boxType box) /\
                        Forall (fun item => getItemVolume item <= getItemVolume first)
                          (items box) /\
                        Forall (fun item => getItemVolume item <= getItemVolume first)
                          un)
                   pk))
    with (fuel := fuel) (packed := @nil PackedBox) (unpacked := unpacked)
         (console := @nil string)
    as (packed' & console' & -> & _ & Hp'); auto.
  - (* the item goes into an opened box *)
    intros pk cur rest _ i target [Hsorted Hpk] _ Hn _.
    inversion Hsorted as [|? ? Hsrest Hcur]; subst.
    split; [apply fillFurther_unpacked_sorted; exact Hsrest|].
    pose proof (nth_error_Forall _ Hpk Hn)
      as (first & tl & Hit & Hf & Hin & Hun).
    inversion Hun as [|? ? Hc Hrest]; subst.
    apply setNth_Forall.
    + eapply Forall_impl; [|exact Hpk].
      intros box (f & t & H1 & H2 & H3 & H4).
      exists f, t. split; [exact H1|]. split; [exact H2|]. split; [exact H3|].
      inversion H4; subst. apply fillFurther_unpacked_Forall. assumption.
    + destruct (fillFurther_items (addItem target cur) rest) as [placed Hpl].
      exists first, (tl ++ [cur] ++ placed).
      split; [rewrite Hpl; simpl; rewrite Hit; simpl; rewrite <- app_assoc;
              reflexivity|].
      split; [rewrite fillFurther_boxType; exact Hf|].
      split; [|apply fillFurther_unpacked_Forall; exact Hrest].
      apply fillFurther_items_Forall; [|exact Hrest].
      simpl. apply Forall_app. split; [exact Hin|].
      constructor; [exact Hc | constructor].
  - (* a new box is opened *)
    intros pk cur rest _ nb [Hsorted Hpk] _ Hf. simpl.
    inversion Hsorted as [|? ? Hsrest Hcur]; subst.
    split; [apply fillFurther_unpacked_sorted; exact Hsrest|].
    apply Forall_app. split.
    + eapply Forall_impl; [|exact Hpk].
      intros box (f & t & H1 & H2 & H3 & H4).
      exists f, t. split; [exact H1|]. split; [exact H2|]. split; [exact H3|].
      inversion H4; subst. apply fillFurther_unpacked_Forall. assumption.
    + constructor; [|constructor].
      destruct (fillFurther_items
                  (mkPacked nb [cur] (getItemVolume cur) (Item.weight cur)) rest)
        as [placed Hpl].
      exists cur, placed. split; [exact Hpl|].
      split; [rewrite fillFurther_boxType; exact Hf|].
      split; [|apply fillFurther_unpacked_Forall; exact Hcur].
      apply fillFurther_items_Forall; [|exact Hcur].
      simpl. constructor; [apply Qle_refl | constructor].
  - (* the item is dropped *)
    intros pk cur rest _ [Hsorted Hpk] _ _.
    inversion Hsorted as [|? ? Hsrest Hcur]; subst.
    split; [exact Hsrest|].
    eapply Forall_impl; [|exact Hpk].
    intros box (f & t & H1 & H2 & H3 & H4).
    exists f, t. split; [exact H1|]. split; [exact H2|]. split; [exact H3|].
    inversion H4; subst. assumption.
  - simpl. eapply Forall_impl; [|exact Hp'].
    intros box (f & t & H1 & H2 & H3 & _). exists f, t. auto.
Qed.

(** X23.  When no box type of the catalog takes all the items, every box
    that [packOptimal] returns was sized for its first item: its type is a
    smallest type of the catalog able to hold that item alone, and none of
    the items that joined the box later has a larger volume than the
    first. *)
Theorem opened_boxes_are_sized_for_their_first_item
    (input : list Item.t) (boxTypes : list Box.t) :
  Forall (fun b => ~ allFitIn input b) boxTypes ->
  Forall (sizedForFirstItem boxTypes) (packOptimal input boxTypes).
Proof.
  intros Hnone. unfold packOptimal, packOptimalLog.
  destruct input as [|x rest]; [constructor|].
  set (its := x :: rest) in *.
  destruct (phase1 (sort_by byVolumeDesc its) (sort_by byVolumeAsc boxTypes))
    as [box|] eqn:E1.
  - exfalso.
    destruct (phase1_some _ _ E1) as (bf & af & Hsplit & _ & Hsome & _).
    rewrite Forall_forall in Hnone. apply (Hnone (boxType box)).
    + apply (sort_by_In byVolumeAsc). rewrite Hsplit.
      apply in_or_app. right. left. reflexivity.
    + unfold allFitIn. rewrite Hsome. discriminate.
  - pose proof (@phase2_first_items (sort_by byVolumeAsc boxTypes)
                  (List.length (sort_by byVolumeDesc its))
                  (sort_by byVolumeDesc its)
                  (sortedItems_desc its) (Nat.le_refl _)) as H.
    eapply Forall_impl; [|exact H].
    intros box (first & tl & Hit & Hf & Hall).
    exists first, tl. split; [exact Hit|].
    pose proof (find_smallest_holder boxTypes first) as Hsm.
    rewrite Hf in Hsm. split; [exact Hsm|].
    rewrite Hit in Hall. inversion Hall; subst. assumption.
Qed.

Lemma opened_boxes_are_sized_for_their_first_item_witness :
  Forall (sizedForFirstItem AMAZON_BOX_SIZES)
    (packOptimal (keyboard :: repeat laptop 11) AMAZON_BOX_SIZES).
Proof.
  apply opened_boxes_are_sized_for_their_first_item.
  repeat constructor; intro H; apply H; vm_compute; reflexivity.
Defined.

(** A box that refuses an item refuses it for good: what goes in later
    only takes room and weight away. *)
Lemma grown_refuses (item : Item.t) (box box' : PackedBox) :
  grown box box' -> accepts item box = false -> accepts item box' = false.
Proof.
  intros (Hty & Hv & Hw & _) Hr.
  destruct (accepts item box') eqn:Ea; [|reflexivity].
  exfalso. unfold accepts in *. rewrite Hty in Ea.
  apply doesItemFit_iff in Ea. destruct Ea as (Hax & Av & Aw).
  assert (doesItemFit item (boxType box) (filledVolume box) (totalWeight box)
          = true) as Ht by (apply doesItemFit_iff; repeat split; try apply Hax; lra).
  congruence.
Qed.

Lemma grown_refl (box : PackedBox) : grown box box.
Proof.
  split; [reflexivity|]. split; [apply Qle_refl|]. split; [apply Qle_refl|].
  exists []. rewrite app_nil_r. reflexivity.
Qed.

Lemma grown_trans (b1 b2 b3 : PackedBox) : grown b1 b2 -> grown b2 b3 -> grown b1 b3.
Proof.
  intros (T1 & V1 & W1 & p1 & I1) (T2 & V2 & W2 & p2 & I2).
  split; [congruence|]. split; [lra|]. split; [lra|].
  exists (p1 ++ p2). rewrite I2, I1, app_assoc. reflexivity.
Qed.

Lemma addItem_grown (box : PackedBox) (item : Item.t) :
  dimsNonneg item -> weightNonneg item -> grown box (addItem box item).
Proof.
  intros Hd Hw. pose proof (getItemVolume_nonneg Hd). unfold weightNonneg in Hw.
  unfold grown, addItem. simpl.
  split; [reflexivity|]. split; [lra|]. split; [lra|].
  exists [item]. reflexivity.
Qed.

Lemma fillFurther_grown (box : PackedBox) (l : list Item.t) :
  Forall dimsNonneg l -> Forall weightNonneg l ->
  grown box (fst (fillFurther box l)).
Proof.
  intros Hd. revert box.
  induction Hd as [|x l Hx Hd IH]; intros box Hw; simpl; [apply grown_refl|].
  inversion Hw as [|? ? Hwx Hw']; subst.
  destruct (doesItemFit _ _ _ _).
  - eapply grown_trans; [apply addItem_grown; eassumption | apply IH; exact Hw'].
  - specialize (IH box Hw'). destruct (fillFurther box l). exact IH.
Qed.

Lemma grown_passedOver_later (earlier later later' : PackedBox) :
  items later <> [] -> grown later later' ->
  passedOver earlier later -> passedOver earlier later'.
Proof.
  intros Hne (_ & _ & _ & placed & Hit). unfold passedOver. rewrite Hit.
  destruct (items later) as [|first rest]; [congruence|]. simpl. auto.
Qed.

Lemma grown_passedOver_earlier (earlier earlier' later : PackedBox) :
  grown earlier earlier' ->
  passedOver earlier later -> passedOver earlier' later.
Proof.
  intros Hg. unfold passedOver. destruct (items later) as [|first rest]; [auto|].
  apply grown_refuses. exact Hg.
Qed.

Lemma ForallOrdPairs_snoc (A : Type) (R : A -> A -> Prop) (l : list A) (x : A) :
  ForallOrdPairs R l -> Forall (fun a => R a x) l ->
  ForallOrdPairs R (l ++ [x]).
Proof.
  induction 1 as [|a l Ha _ IH]; intros Hx; simpl.
  - constructor; constructor.
  - inversion Hx as [|? ? Hax Hx']; subst. constructor.
    + apply Forall_app. split; [exact Ha|]. constructor; [exact Hax | constructor].
    + apply IH. exact Hx'.
Qed.

Lemma ForallOrdPairs_setNth (A : Type) (R : A -> A -> Prop) (l : list A)
    (i : nat) (t t' : A) :
  ForallOrdPairs R l -> nth_error l i = Some t ->
  (forall a, R a t -> R a t') -> (forall b, R t b -> R t' b) ->
  ForallOrdPairs R (setNth i t' l).
Proof.
  intros H. revert i.
  induction H as [|a l Ha Hl IH]; intros [|i] Hn H1 H2; simpl in *;
    try discriminate.
  - injection Hn as ->. constructor; [|exact Hl].
    eapply Forall_impl; [|exact Ha]. exact H2.
  - constructor; [|apply IH; assumption].
    apply setNth_Forall; [exact Ha|].
    apply H1. eapply nth_error_Forall; eassumption.
Qed.

Lemma phase2_passedOver (sorted : list Box.t) (fuel : nat)
    (unpacked : list Item.t) :
  Forall dimsPositive unpacked -> Forall weightNonneg unpacked ->
  (List.length unpacked <= fuel)%nat ->
  ForallOrdPairs passedOver (fst (phase2 fuel sorted [] unpacked [])).
Proof.
  intros Hd Hw Hlen.
  destruct (@phase2_rule sorted
              (fun pk un _ =>
                 Forall dimsPositive un /\ Forall weightNonneg un /\
                 Forall (fun box => items box <> [] /\ filledNonneg box) pk /\
                 ForallOrdPairs passedOver pk))
    with (fuel := fuel) (packed := @nil PackedBox) (unpacked := unpacked)
         (console := @nil string)
    as (packed' & console' & -> & _ & _ & _ & Hp');
    [| | |exact Hlen| |exact Hp'].
  - (* the item goes into an opened box *)
    intros pk cur rest _ i target (Hdu & Hwu & Hpk & Hop) _ Hn _.
    inversion Hdu as [|? ? Hdc Hdr]; subst.
    inversion Hwu as [|? ? Hwc Hwr]; subst.
    assert (Forall dimsNonneg rest) as Hnr
      by (eapply Forall_impl; [|exact Hdr]; apply dimsPositive_nonneg).
    destruct (nth_error_Forall _ Hpk Hn) as [Hne Hfn].
    assert (grown target (fst (fillFurther (addItem target cur) rest))) as Hg.
    { eapply grown_trans;
        [apply addItem_grown; [apply dimsPositive_nonneg|]; eassumption|].
      apply fillFurther_grown; assumption. }
    split; [apply fillFurther_unpacked_Forall; exact Hdr|].
    split; [apply fillFurther_unpacked_Forall; exact Hwr|].
    split.
    + apply setNth_Forall; [exact Hpk|]. split.
      * apply fillFurther_keeps_nonempty. simpl.
        destruct (items target); discriminate.
      * destruct Hg as (_ & Hv & _). unfold filledNonneg in *. lra.
    + eapply ForallOrdPairs_setNth; [exact Hop | exact Hn | |].
      * intros a. apply grown_passedOver_later; assumption.
      * intros b. apply grown_passedOver_earlier. exact Hg.
  - (* a new box is opened *)
    intros pk cur rest _ nb (Hdu & Hwu & Hpk & Hop) Hb _. simpl.
    inversion Hdu as [|? ? Hdc Hdr]; subst.
    inversion Hwu as [|? ? Hwc Hwr]; subst.
    assert (Forall dimsNonneg rest) as Hnr
      by (eapply Forall_impl; [|exact Hdr]; apply dimsPositive_nonneg).
    set (newBox := mkPacked nb [cur] (getItemVolume cur) (Item.weight cur)).
    pose proof (@fillFurther_grown newBox rest Hnr Hwr) as Hg.
    assert (Forall filledNonneg pk) as Hfn
      by (eapply Forall_impl; [|exact Hpk]; intros b [_ Hb']; exact Hb').
    pose proof (@bestFitBox_spec cur pk Hdc Hfn) as Hspec.
    rewrite Hb in Hspec.
    split; [apply fillFurther_unpacked_Forall; exact Hdr|].
    split; [apply fillFurther_unpacked_Forall; exact Hwr|].
    split.
    + apply Forall_app. split; [exact Hpk|]. constructor; [|constructor].
      split.
      * apply fillFurther_keeps_nonempty. discriminate.
      * destruct Hg as (_ & Hv & _). unfold filledNonneg. simpl in Hv.
        pose proof (getItemVolume_pos Hdc). lra.
    + apply ForallOrdPairs_snoc; [exact Hop|].
      apply Forall_forall. intros a Ha.
      apply grown_passedOver_later with (later := newBox);
        [discriminate | exact Hg|].
      unfold passedOver. simpl. apply Hspec. exact Ha.
  - (* the item is dropped *)
    intros pk cur rest _ (Hdu & Hwu & Hpk & Hop) _ _.
    inversion Hdu; subst. inversion Hwu; subst. repeat split; assumption.
  - repeat split; try assumption; constructor.
Qed.

(** X24.  For items with positive dimensions and non-negative weights and
    any catalog, a box is opened only for an item that no box opened before
    it accepts, and such an item stays refused: in the boxes that
    [packOptimal] returns, the first item of each box does not fit, by
    [doesItemFit], into any of the boxes listed before it. *)
Theorem later_boxes_hold_what_earlier_boxes_refuse
    (input : list Item.t) (boxTypes : list Box.t) :
  Forall dimsPositive input -> Forall weightNonneg input ->
  ForallOrdPairs passedOver (packOptimal input boxTypes).
Proof.
  intros Hd Hw. unfold packOptimal, packOptimalLog.
  destruct input as [|x rest]; [constructor|].
  set (its := x :: rest) in *.
  destruct (phase1 (sort_by byVolumeDesc its) (sort_by byVolumeAsc boxTypes))
    as [box|].
  - cbn [fst]. constructor; constructor.
  - apply phase2_passedOver; [| |apply Nat.le_refl];
      apply sort_by_Forall; assumption.
Qed.

Lemma later_boxes_hold_what_earlier_boxes_refuse_witness :
  ForallOrdPairs passedOver
    (packOptimal (keyboard :: repeat laptop 11) AMAZON_BOX_SIZES).
Proof.
  apply later_boxes_hold_what_earlier_boxes_refuse.
  - repeat constructor.
  - repeat constructor; unfold weightNonneg; simpl; discriminate.
Defined.
